(** * Check_Standard_Conjectures: the Grassmannian standard-conjecture checker

    A shallow embedding of the SageMath notebook
    [Check_Standard_Conjectures.ipynb]: the graded basis [B], the
    pairing-index builders [Vgeom] and [Varith], the degree functions
    [gdeg] and [adeg], the assemblers [gHodge] and [aHodge] and the
    checker [Check_GST].

    Sage integers are [Z], Sage rationals are [Q] kept in lowest terms,
    vectors over ZZ are [list Z], Python lists are lists, and a Python
    call that may raise is a value of [res]. *)

From Stdlib Require Import ZArith QArith Lia ArithRing.
From stdpp Require Import base tactics option list numbers strings gmap.

Local Open Scope Z_scope.

(** ** Python results *)

Inductive exn : Set :=
  | ValueError | TypeError | NameError | IndexError | ZeroDivisionError.

Inductive res (A : Type) : Type :=
  | Ok (a : A)
  | Raise (e : exn).
Arguments Ok {A} a.
Arguments Raise {A} e.

Global Instance res_ret : MRet res := λ A a, Ok a.
Global Instance res_bind : MBind res := λ A A' f r,
  match r with Ok a => f a | Raise e => Raise e end.

(** [for x in xs: s = f(s, x)], stopping at the first exception. *)
Fixpoint foldM {S X : Type} (f : S → X → res S) (xs : list X) (s : S) : res S :=
  match xs with
  | [] => Ok s
  | x :: xs' => s' ← f s x; foldM f xs' s'
  end.

(** [[f(x) for x in xs]], stopping at the first exception. *)
Fixpoint res_mapM {X Y : Type} (f : X → res Y) (xs : list X) : res (list Y) :=
  match xs with
  | [] => Ok []
  | x :: xs' => y ← f x; ys ← res_mapM f xs'; Ok (y :: ys)
  end.

(** ** Ranges and indexing *)

(** Sage's inclusive range [(a..b)]. *)
Definition erange (a b : Z) : list Z := seqZ a (b - a + 1).

(** Python's [l[k]]: a negative index counts from the end. *)
Definition py_get {A : Type} (l : list A) (k : Z) : res A :=
  let len := Z.of_nat (length l) in
  if (- len <=? k) && (k <? len) then
    match l !! Z.to_nat (if k <? 0 then len + k else k) with
    | Some x => Ok x
    | None => Raise IndexError
    end
  else Raise IndexError.

(** Python's [[x]*k]: empty when [k <= 0]. *)
Definition py_rep {A : Type} (x : A) (k : Z) : list A := replicate (Z.to_nat k) x.

Definition sumZ (l : list Z) : Z := foldr Z.add 0 l.

(** ** Vectors over ZZ *)

Definition vec : Type := list Z.

(** [u + v]: the coercion model refuses vectors of different degree. *)
Definition vadd (u v : vec) : res vec :=
  if decide (length u = length v) then Ok (zip_with Z.add u v) else Raise TypeError.

Definition vscale (c : Z) (v : vec) : vec := Z.mul c <$> v.

(** [weight(v) = sum([v[k-1]*k for k in (1..len(v))])] *)
Definition weight (v : vec) : Z :=
  sumZ ((λ k, (v !!! Z.to_nat (k - 1)) * k) <$> erange 1 (Z.of_nat (length v))).

(** ** The graded basis *)

(** Sage's [IntegerVectors(n,k).list()]: the vectors of [k] non-negative
    integers of sum [n], the first coordinate decreasing from [n] to [0]
    and the rest enumerated recursively. *)
Fixpoint IntegerVectors_nk (k : nat) : nat → list vec :=
  match k with
  | O => λ n, match n with O => [[]] | _ => [] end
  | S k' => λ n,
      seq 0 (S n) ≫= λ nbar, cons (Z.of_nat (n - nbar)) <$> IntegerVectors_nk k' nbar
  end.

Definition IntegerVectors (n k : Z) : list vec :=
  IntegerVectors_nk (Z.to_nat k) (Z.to_nat n).

(** [l.sort(key=...)]: Python's sort is stable, so the result is the one
    of a stable insertion sort. *)
Fixpoint insert_by {A : Type} (key : A → Z) (a : A) (l : list A) : list A :=
  match l with
  | [] => [a]
  | b :: l' => if key a <=? key b then a :: b :: l' else b :: insert_by key a l'
  end.

Fixpoint sort_by {A : Type} (key : A → Z) (l : list A) : list A :=
  match l with
  | [] => []
  | a :: l' => insert_by key a (sort_by key l')
  end.

(** [itertools.groupby]: the maximal runs of consecutive elements with
    the same key. *)
Fixpoint groupby {A : Type} (key : A → Z) (l : list A) : list (list A) :=
  match l with
  | [] => []
  | a :: l' =>
      match groupby key l' with
      | (b :: g) :: gs =>
          if decide (key a = key b) then (a :: b :: g) :: gs
          else [a] :: (b :: g) :: gs
      | gs => [a] :: gs
      end
  end.

Definition B (m n : Z) : list (list vec) :=
  if (m <? 0) || (n <? 0) then []
  else
    let l := erange 0 m ≫= λ j, IntegerVectors j n in
    groupby weight (sort_by weight l).


(** ** Matrices *)

Record matrix (A : Type) : Type := Mat {
  nrows : nat;
  ncols : nat;
  mdata : list (list A)
}.
Arguments Mat {A} nrows ncols mdata.
Arguments nrows {A} m.
Arguments ncols {A} m.
Arguments mdata {A} m.

Definition zero_matrix {A : Type} (zero : A) (r c : nat) : matrix A :=
  Mat r c (replicate r (replicate c zero)).

Definition mat_at {A : Type} (M : matrix A) (i j : nat) : option A :=
  mdata M !! i ≫= λ row, row !! j.

(** [M[i,j]], for indices that come from [range] *)
Definition mat_get {A : Type} (M : matrix A) (i j : nat) : res A :=
  match mat_at M i j with
  | Some x => Ok x
  | None => Raise IndexError
  end.

(** [M[i,j] = x] *)
Definition mat_set {A : Type} (M : matrix A) (i j : nat) (x : A) : res (matrix A) :=
  if decide (i < nrows M ∧ j < ncols M)%nat
  then Ok (Mat (nrows M) (ncols M) (alter (λ row, <[j:=x]> row) i (mdata M)))
  else Raise IndexError.

Definition mat_map {A A' : Type} (f : A → A') (M : matrix A) : matrix A' :=
  Mat (nrows M) (ncols M) ((λ row : list A, f <$> row) <$> mdata M).

Definition transpose {A : Type} (zero : A) (M : matrix A) : matrix A :=
  Mat (ncols M) (nrows M)
      ((λ j, (λ row, default zero (row !! j)) <$> mdata M) <$> seq 0 (ncols M)).

(** [l[i]] for an index that comes from [range]. *)
Definition list_get {A : Type} (l : list A) (i : nat) : res A :=
  match l !! i with
  | Some x => Ok x
  | None => Raise IndexError
  end.

(** ** The pool of vectors *)

(** [Z.index(z)] *)
Definition py_index (z : vec) (Zp : list vec) : res nat :=
  match list_find (λ y, y = z) Zp with
  | Some (k, _) => Ok k
  | None => Raise ValueError
  end.

(** What a builder returns: the empty list on negative bounds, else a tuple. *)
Inductive returned (T : Type) : Type :=
  | EmptyList
  | Tuple (t : T).
Arguments EmptyList {T}.
Arguments Tuple {T} t.

(** [vector([1]+[0]*(n-1))] *)
Definition e1 (n : Z) : vec := 1 :: py_rep 0 (n - 1).

(** The body of the loop over [j in range(i,len(l))]: the combined vector
    is looked up in the pool, appended when new, and its index is stored
    at [(i,j)] and copied to [(j,i)]. *)
Definition sym_pair (l : list vec) (off : vec) (i j : nat)
    (st : list vec * matrix Z) : res (list vec * matrix Z) :=
  let '(Zp, Mp) := st in
  vi ← list_get l i;
  vj ← list_get l j;
  s ← vadd vi vj;
  z ← vadd s off;
  if bool_decide (z ∈ Zp) then
    k ← py_index z Zp;
    M1 ← mat_set Mp i j (Z.of_nat k);
    x ← mat_get M1 i j;
    M2 ← mat_set M1 j i x;
    Ok (Zp, M2)
  else
    let Zp' := Zp ++ [z] in
    M1 ← mat_set Mp i j (Z.of_nat (length Zp') - 1);
    x ← mat_get M1 i j;
    M2 ← mat_set M1 j i x;
    Ok (Zp', M2).

Definition sym_loop (l : list vec) (off : vec) (st : list vec * matrix Z)
    : res (list vec * matrix Z) :=
  foldM (λ st i,
           foldM (λ st j, sym_pair l off i j st) (seq i (length l - i)) st)
        (seq 0 (length l)) st.

(** The body of the cross-pairing loop of [Varith]. *)
Definition rect_pair (l l2 : list vec) (off : vec) (i j : nat)
    (st : list vec * matrix Z) : res (list vec * matrix Z) :=
  let '(Zp, Mp) := st in
  vi ← list_get l i;
  wj ← list_get l2 j;
  s ← vadd vi wj;
  z ← vadd s off;
  if bool_decide (z ∈ Zp) then
    k ← py_index z Zp;
    M1 ← mat_set Mp i j (Z.of_nat k);
    Ok (Zp, M1)
  else
    let Zp' := Zp ++ [z] in
    M1 ← mat_set Mp i j (Z.of_nat (length Zp') - 1);
    Ok (Zp', M1).

Definition rect_loop (l l2 : list vec) (off : vec) (st : list vec * matrix Z)
    : res (list vec * matrix Z) :=
  foldM (λ st i,
           foldM (λ st j, rect_pair l l2 off i j st) (seq 0 (length l2)) st)
        (seq 0 (length l)) st.

(** ** The geometric pairing-index builder *)

(** The matrix [M[p]] is updated in place; [M] was built from the first
    grades of [L], so [M[p]] exists whenever [L[p]] does. *)
Definition Vgeom (m n : Z) : res (returned (list vec * list (matrix Z))) :=
  if (m <? 0) || (n <? 0) then Ok EmptyList
  else
    let L := B m n in
    let e := e1 n in
    let M := (λ x, zero_matrix 0 (length x) (length x))
               <$> take (Z.to_nat ((n * m) `div` 2 + 1)) L in
    st ← foldM (λ '(Zp, M) p,
                  l ← py_get L p;
                  Mp ← py_get M p;
                  '(Zp', Mp') ← sym_loop l (vscale (n * m - 2 * p) e) (Zp, Mp);
                  Ok (Zp', <[Z.to_nat p := Mp']> M))
               (erange 0 ((n * m) `div` 2)) ([], M);
    Ok (Tuple st).

(** ** The arithmetic pairing-index builder *)

(** [M[0]] holds rational zero matrices and the other grades integer ones;
    both hold integer values, so the entries are kept in [Z]. *)
Definition Varith (m n : Z)
    : res (returned ((list vec * list vec) * list (matrix Z * matrix Z))) :=
  if (m <? 0) || (n <? 0) then Ok EmptyList
  else
    let L := B m n in
    let e := e1 n in
    let top := (n * m + 1) `div` 2 in
    Ms ← res_mapM (λ p, lp ← py_get L p;
                        lq ← py_get L (p - 1);
                        Ok (zero_matrix 0 (length lp) (length lp),
                            zero_matrix 0 (length lp) (length lq)))
                  (erange 1 top);
    let M := (zero_matrix 0 1 1, zero_matrix 0 0 0) :: Ms in
    st ← foldM (λ '(ZA, ZB, M) p,
                  l ← py_get L p;
                  Mp ← py_get M p;
                  let off := vscale (n * m + 1 - 2 * p) e in
                  '(ZA', MA) ← sym_loop l off (ZA, Mp.1);
                  l2 ← py_get L (p - 1);
                  '(ZB', MB) ← rect_loop l l2 off (ZB, Mp.2);
                  Ok (ZA', ZB', <[Z.to_nat p := (MA, MB)]> M))
               (erange 1 top) ([vscale (n * m + 1) e], [], M);
    Ok (Tuple (st.1, st.2)).

(** ** Kostka numbers *)

(** The partitions obtained from [lam] by removing a horizontal strip of
    [k] cells: row [i] keeps at least the length of row [i+1]. *)
Fixpoint strips (lam : list Z) (k : Z) : list (list Z) :=
  match lam with
  | [] => if decide (k = 0) then [[]] else []
  | a :: rest =>
      seqZ 0 (Z.min k (a - hd 0 rest) + 1) ≫= λ d,
        cons (a - d) <$> strips rest (k - d)
  end.

(** The tableaux of shape [lam] whose largest entries, in number the head
    of [content_rev], fill a horizontal strip, counted recursively. *)
Fixpoint kostka_rev (content_rev : list Z) (lam : list Z) : Z :=
  match content_rev with
  | [] => if decide (Forall (λ a, a = 0) lam) then 1 else 0
  | c :: cs => sumZ (kostka_rev cs <$> strips lam c)
  end.

(** Modelled from the spec: the Kostka-number routine of the
    computer-algebra backend ([kostka_number_symmetrica]), which the
    notebook imports: the count of semistandard Young tableaux of the
    given shape in which [i] occurs [content[i-1]] times. *)
Definition kostka (shape content : list Z) : Z :=
  kostka_rev (reverse content) shape.

(** ** The geometric degree *)

(** [sum([[j]*r[j-1] for j in (1..n)],[])] *)
Definition mu (r : vec) : list Z :=
  erange 1 (Z.of_nat (length r)) ≫= λ j, py_rep j (r !!! Z.to_nat (j - 1)).

Definition gdeg (r : vec) : res Z :=
  let n := Z.of_nat (length r) in
  let p := weight r in
  if decide (n = 0) then Raise ZeroDivisionError
  else if decide (p `mod` n ≠ 0) then Raise ValueError
  else
    let m := p `div` n in
    let l := py_rep n m in
    let w := mu r in
    Ok (kostka l w).



(** ** In-place substitution of degrees for pool indices *)

(** [for i in range(d1): for j in range(d2): M[i,j] = f(M[i,j])] *)
Definition subst_loop {A : Type} (f : A → res A) (d1 d2 : nat) (M : matrix A)
    : res (matrix A) :=
  foldM (λ M i,
           foldM (λ M j, x ← mat_get M i j; y ← f x; mat_set M i j y)
                 (seq 0 d2) M)
        (seq 0 d1) M.

Definition gHodge (m n : Z) : res (list (matrix Z)) :=
  r ← Vgeom m n;
  match r with
  | EmptyList => Raise ValueError
  | Tuple (Zp, M) =>
      D ← res_mapM gdeg Zp;
      res_mapM (λ Mp, let d := nrows Mp in subst_loop (py_get D) d d Mp) M
  end.

(** ** Hilbert functions *)

(** Polynomials over ZZ by their coefficients, constant term first. *)
Definition poly : Type := list Z.

Fixpoint padd (f g : poly) : poly :=
  match f, g with
  | [], _ => g
  | _, [] => f
  | a :: f', b :: g' => (a + b) :: padd f' g'
  end.

Definition pscale (c : Z) (f : poly) : poly := Z.mul c <$> f.

Fixpoint pmul (f g : poly) : poly :=
  match f with
  | [] => []
  | a :: f' => padd (pscale a g) (0 :: pmul f' g)
  end.

Fixpoint drop_zeros (l : list Z) : list Z :=
  match l with
  | [] => []
  | a :: l' => if decide (a = 0) then drop_zeros l' else l
  end.

(** Drop the zero leading coefficients. *)
Definition pnorm (f : poly) : poly := reverse (drop_zeros (reverse f)).

(** Long division, leading coefficient first, by a divisor whose leading
    coefficient is 1 or -1: quotient and remainder. *)
Fixpoint pdiv_hi (fuel : nat) (N D : list Z) : list Z * list Z :=
  match fuel with
  | O => ([], N)
  | S fuel' =>
      if (length N <? length D)%nat then ([], N)
      else
        match N, D with
        | a :: _, d :: _ =>
            let c := a * d in
            let N' := tail (zip_with Z.sub N (pscale c D ++ replicate (length N - length D) 0)) in
            let '(q, r) := pdiv_hi fuel' N' D in
            (c :: q, r)
        | _, _ => ([], N)
        end
  end.

(** The polynomial [N/D] when the division is exact. *)
Definition pexact (N D : poly) : option poly :=
  let Nh := reverse (pnorm N) in
  let Dh := reverse (pnorm D) in
  match Dh with
  | [] => None
  | _ :: _ =>
      let '(q, r) := pdiv_hi (length Nh) Nh Dh in
      if decide (Forall (λ a, a = 0) r) then Some (reverse q) else None
  end.

Definition pprod (fs : list poly) : poly := foldr pmul [1] fs.

(** [t^e] *)
Definition pmonom (e : Z) : poly := py_rep 0 e ++ [1].

(** [1 - t^e] as a fraction: for a negative exponent, [(t^(-e) - 1) / t^(-e)]. *)
Definition one_minus_pow (e : Z) : poly * poly :=
  if 0 <=? e then (padd [1] (pscale (-1) (pmonom e)), [1])
  else (padd (pmonom (- e)) [-1], pmonom (- e)).

(** [product(1-t^(m+j))/product(1-t^j)], converted back to a polynomial:
    the conversion fails unless the quotient is a polynomial. *)
Definition hilbert_poly (m n : Z) : res poly :=
  let tops := (λ j, one_minus_pow (m + j)) <$> erange 1 n in
  let bots := (λ j, (one_minus_pow j).1) <$> erange 1 n in
  let N := pprod (fst <$> tops) in
  let D := pmul (pprod (snd <$> tops)) (pprod bots) in
  match pexact N D with
  | Some q => Ok q
  | None => Raise TypeError
  end.

(** [.coefficients()]: the non-zero coefficients, by increasing degree. *)
Definition coefficients (f : poly) : list Z := filter (λ a, a ≠ 0) f.

Definition HilbGeom (m n : Z) : res (list Z) :=
  P ← hilbert_poly m n;
  Ok (coefficients P).

Definition HilbArithm (m n : Z) : res (list Z) :=
  P ← hilbert_poly m n;
  Ok (coefficients (pmul [1; 1] P)).

(** [(-1)^e] *)
Definition sign_pow (e : Z) : Z := if Z.even e then 1 else -1.

Definition Signature (v : list Z) : res (list Z) :=
  let d := Z.of_nat (length v) - 1 in
  w ← res_mapM (λ i, a ← py_get v i; b ← py_get v (i - 1); Ok (a - b))
               (erange 1 (d `div` 2));
  let w := 1 :: w in
  res_mapM (λ q,
              ts ← res_mapM (λ p, x ← py_get w p; Ok (sign_pow p * x)) (erange 0 q);
              Ok (sign_pow q * sumZ ts))
           (erange 0 (d `div` 2)).

(** ** The names bound in the notebook *)

(** Every name the notebook binds at top level, by import or by [def];
    the names of the Sage library itself are not listed. *)
Definition notebook_names : list string :=
  ["groupby"; "kostka"; "weight"; "harm_list"; "B"; "Vgeom"; "gdeg"; "gHodge";
   "HilbGeom"; "Signature"; "Check_GST"; "Varith"; "Tam"; "adeg"; "aHodge";
   "HilbArithm"; "Check_AST"; "aKostka"].

(** The bound functions of two integers that return a list of integers. *)
Definition hilbert_functions : gmap string (Z → Z → res (list Z)) :=
  <["HilbGeom" := HilbGeom]> (<["HilbArithm" := HilbArithm]> ∅).

(** A call [name(m,n)] of a global: the name is resolved when the call is
    evaluated, and an unbound name raises [NameError]. *)
Definition call_global (name : string) (m n : Z) : res (list Z) :=
  if bool_decide (name ∈ notebook_names) then
    match hilbert_functions !! name with
    | Some f => f m n
    | None => Raise TypeError
    end
  else Raise NameError.

(** ** The geometric check *)

(** The loop over the matrices: [None] when a singular matrix is met,
    else the signatures collected so far. *)
Fixpoint signatures {A : Type} (is_singular : matrix A → bool)
    (signature : matrix A → res Z) (hs : list (matrix A)) : res (option (list Z)) :=
  match hs with
  | [] => Ok (Some [])
  | h :: hs' =>
      if is_singular h then Ok None
      else
        s ← signature h;
        r ← signatures is_singular signature hs';
        Ok (match r with Some ss => Some (s :: ss) | None => None end)
  end.

Definition check_signatures {A : Type} (is_singular : matrix A → bool)
    (signature : matrix A → res Z) (s1 : list Z) (H : list (matrix A))
    : res (list (matrix A) * bool) :=
  r ← signatures is_singular signature H;
  match r with
  | None => Ok (H, false)
  | Some s2 => if decide (s1 = s2) then Ok (H, true) else Ok (H, false)
  end.

(** The matrix routines of the backend, [h.is_singular()] and
    [QuadraticForm(h).signature()], are parameters. *)
Definition Check_GST (is_singular : matrix Z → bool)
    (signature : matrix Z → res Z) (m n : Z) : res (list (matrix Z) * bool) :=
  hilb ← call_global "HilbGeommm" m n;
  s1 ← Signature hilb;
  H ← gHodge m n;
  check_signatures is_singular signature s1 H.

(** ** Rationals in lowest terms *)

Definition qadd (x y : Q) : Q := Qred (x + y).
Definition qsub (x y : Q) : Q := Qred (x - y).
Definition qmul (x y : Q) : Q := Qred (x * y).
Definition qdiv (x y : Q) : Q := Qred (x / y).
Definition qsum (l : list Q) : Q := foldl qadd (inject_Z 0) l.

(** ** The arithmetic degree *)

Definition Tam (m n : Z) : list (Z * Z * Z) :=
  erange 0 (m - 1) ≫= λ a,
    erange 0 (n - 1) ≫= λ j,
      erange (j + 1) (Z.min (n - 1) (m + n - a - j - 1)) ≫= λ b,
        [(a, b, j)].

(** [H = [0]; for k in (1..n): H.append(H[-1]+1/k)]; the list is never
    empty, so [H[-1]] is its last element. *)
Definition harm_list (n : Z) : list Q :=
  foldl (λ H k, H ++ [qadd (default (inject_Z 0) (last H)) (qdiv (inject_Z 1) (inject_Z k))])
        [inject_Z 0] (erange 1 n).

(** Sage's [Partition(l)]: a weakly decreasing list of non-negative
    integers, stored without its trailing zeros; anything else is refused. *)
Fixpoint weakly_decreasing (l : list Z) : bool :=
  match l with
  | [] => true
  | a :: l' => match l' with [] => true | b :: _ => b <=? a end && weakly_decreasing l'
  end.

Definition Partition (l : list Z) : res (list Z) :=
  if weakly_decreasing l && forallb (λ a, 0 <=? a) l
  then Ok (filter (λ a, a ≠ 0) l)
  else Raise ValueError.

(** [lam.conjugate()]: column [i] has as many cells as [lam] has parts
    longer than [i]. *)
Definition conjugate (lam : list Z) : list Z :=
  (λ i, Z.of_nat (length (filter (λ a, i < a) lam))) <$> seqZ 0 (hd 0 lam).

Definition zip_sum3 (x y z : list Z) : list Z :=
  zip_with Z.add (zip_with Z.add x y) z.

(** The summand of Tamvakis's formula for the triple [(a,b,j)]. *)
Definition adeg_term (m n : Z) (w : list Z) (H : list Q) (s : Q) (t : Z * Z * Z)
    : res Q :=
  let '(a, b, j) := t in
  let l := zip_sum3 (py_rep (m - 1) (n - 1) ++ [a])
                    (py_rep 1 b ++ py_rep 0 (n - b))
                    ([m + n - a - b - j] ++ py_rep 1 j ++ py_rep 0 (n - j - 1)) in
  lam ← Partition l;
  let l := conjugate lam in
  h1 ← py_get H (m + n - a - j - 1);
  h2 ← py_get H (m + n - a - b - 1);
  Ok (qadd s (qmul (qmul (inject_Z (sign_pow (n + b + j))) (inject_Z (kostka l w)))
                   (qsub h1 h2))).

Definition adeg (r : vec) (T : option (list (Z * Z * Z))) (H : option (list Q))
    : res Q :=
  let n := Z.of_nat (length r) in
  let p := weight r in
  if decide (n = 0) then Raise ZeroDivisionError
  else if decide ((p - 1) `mod` n ≠ 0) then Raise ValueError
  else
    let m := (p - 1) `div` n in
    let T := match T with None => Tam m n | Some T => T end in
    let H := match H with None => harm_list (m + n - 1) | Some H => H end in
    let w := mu r in
    let l := py_rep n m ++ [1] in
    hs ← res_mapM (py_get H) (erange n (m + n - 1));
    let s := qmul (inject_Z (kostka l w)) (qsum hs) in
    s ← foldM (adeg_term m n w H) T s;
    Ok (qdiv s (inject_Z 2)).

(** ** The arithmetic bilinear forms *)

(** An entry used as a list index: it must be an integer. *)
Definition q_index (x : Q) : res Z :=
  if decide (Qden x = 1%positive) then Ok (Qnum x) else Raise TypeError.

(** [block_matrix([[A,Bm],[Bm.transpose(),0]])] *)
Definition block_matrix (A Bm : matrix Q) : res (matrix Q) :=
  if decide (nrows A = nrows Bm ∧ ncols A = nrows Bm) then
    Ok (Mat (nrows A + ncols Bm) (ncols A + ncols Bm)
            (zip_with app (mdata A) (mdata Bm)
             ++ ((λ row, row ++ replicate (ncols Bm) (inject_Z 0))
                   <$> mdata (transpose (inject_Z 0) Bm))))
  else Raise ValueError.

(** The body of the loop of [aHodge] over [p >= 1]. *)
Definition aHodge_grade (Darith : list Q) (Dgeom : list Z)
    (M : list (matrix Z * matrix Z)) (p : Z) : res (matrix Q) :=
  Mp ← py_get M p;
  let d := nrows Mp.1 in
  let MA := mat_map inject_Z Mp.1 in
  MA ← subst_loop (λ x, k ← q_index x; py_get Darith k) d d MA;
  let '(d1, d2) := (nrows Mp.2, ncols Mp.2) in
  let MB := mat_map inject_Z Mp.2 in
  MB ← subst_loop (λ x, k ← q_index x; g ← py_get Dgeom k;
                        Ok (qdiv (inject_Z g) (inject_Z 2))) d1 d2 MB;
  blk ← block_matrix MA MB;
  Ok (mat_map (qmul (inject_Z (sign_pow p))) blk).

(** [M[0]] and then every [M[p]] are replaced in place; each replacement
    reads the old [M[p]] only, so the result is built grade by grade. *)
Definition aHodge (m n : Z) : res (list (matrix Q)) :=
  r ← Varith m n;
  match r with
  | EmptyList => Raise ValueError
  | Tuple ((ZA, ZB), M) =>
      let T := Tam m n in
      let H := harm_list (m + n - 1) in
      Darith ← res_mapM (λ v, adeg v (Some T) (Some H)) ZA;
      Dgeom ← res_mapM gdeg ZB;
      M0 ← py_get M 0;
      x ← mat_get M0.1 0 0;
      d0 ← py_get Darith x;
      let H0 := Mat 1 1 [[d0]] in
      rest ← res_mapM (aHodge_grade Darith Dgeom M)
                      (erange 1 (Z.of_nat (length M) - 1));
      Ok (H0 :: rest)
  end.

Definition Check_AST (is_singular : matrix Q → bool)
    (signature : matrix Q → res Z) (m n : Z) : res (list (matrix Q) * bool) :=
  hilb ← call_global "HilbArithm" m n;
  s1 ← Signature hilb;
  H ← aHodge m n;
  check_signatures is_singular signature s1 H.

(** ** Auxiliary definitions for the proofs *)

Fixpoint weight_from (c : Z) (v : vec) : Z :=
  match v with
  | [] => 0
  | x :: v' => x * c + weight_from (c + 1) v'
  end.

Definition nonneg (v : vec) : Prop := Forall (λ x, 0 ≤ x) v.

(** The vectors [B] sorts and groups. *)
Definition all_vectors (m n : Z) : list vec := erange 0 m ≫= λ j, IntegerVectors j n.

(** Pascal's triangle. *)
Fixpoint binomial (n k : nat) : nat :=
  match n, k with
  | _, O => 1
  | O, S _ => 0
  | S n', S k' => binomial n' k' + binomial n' (S k')
  end%nat.

(** The elements of key [p], in their order of appearance. *)
Definition bucket {A : Type} (key : A → Z) (l : list A) (p : Z) : list A :=
  filter (λ x, key x = p) l.

Definition buckets {A : Type} (key : A → Z) (l : list A) (lo : Z) (k : nat) : list (list A) :=
  bucket key l <$> seqZ lo (Z.of_nat k).

(** A vector of weight [p]: [p // n] copies of [x_n] and, when [n] does not
    divide [p], one copy of [x_(p mod n)]. *)
Definition grade_vector (n p : Z) : vec :=
  if decide (p `mod` n = 0) then replicate (Z.to_nat (n - 1)) 0 ++ [p `div` n]
  else replicate (Z.to_nat (p `mod` n - 1)) 0 ++ [1]
       ++ replicate (Z.to_nat (n - p `mod` n - 1)) 0 ++ [p `div` n].

(** The combined vector [u + v + off] when the degrees agree. *)
Definition comb (u v off : vec) : vec := zip_with Z.add (zip_with Z.add u v) off.

(** The first position of [z] in the pool. *)
Definition pool_find (z : vec) (Zp : list vec) : option nat :=
  fst <$> list_find (λ y, y = z) Zp.

(** The pool after [z] has been looked up, and the index [z] gets. *)
Definition pool_add (z : vec) (Zp : list vec) : list vec :=
  if bool_decide (z ∈ Zp) then Zp else Zp ++ [z].

Definition pool_pos (z : vec) (Zp : list vec) : nat :=
  default (length Zp) (pool_find z Zp).

(** [M] with the entry [(i,j)] replaced. *)
Definition mat_put {A : Type} (M : matrix A) (i j : nat) (x : A) : matrix A :=
  Mat (nrows M) (ncols M) (alter (λ row, <[j:=x]> row) i (mdata M)).

(** The stored rows agree with the dimensions. *)
Definition mat_wf {A : Type} (M : matrix A) : Prop :=
  length (mdata M) = nrows M ∧ Forall (λ row, length row = ncols M) (mdata M).

(** [Mp] is the pairing-index table of the grades [l] and [l2] for the
    offset [off]: entry [(i,j)] is the first position, in the pool, of the
    combined vector of [l[i]] and [l2[j]]. *)
Definition index_table (l l2 : list vec) (off : vec) (Zp : list vec) (Mp : matrix Z) : Prop :=
  mat_wf Mp ∧ nrows Mp = length l ∧ ncols Mp = length l2
  ∧ ∀ i j vi wj, l !! i = Some vi → l2 !! j = Some wj →
      ∃ k, mat_at Mp i j = Some (Z.of_nat k) ∧ pool_find (comb vi wj off) Zp = Some k.

(** The state of grade [p] in [Vgeom]: filled in, or still zero. *)
Definition geom_done (m n : Z) (L : list (list vec)) (Zp : list vec)
    (M : list (matrix Z)) (p : nat) : Prop :=
  ∃ l Mp, L !! p = Some l ∧ M !! p = Some Mp
    ∧ index_table l l (vscale (n * m - 2 * Z.of_nat p) (e1 n)) Zp Mp.

Definition geom_fresh (L : list (list vec)) (M : list (matrix Z)) (p : nat) : Prop :=
  ∃ l, L !! p = Some l ∧ M !! p = Some (zero_matrix 0 (length l) (length l)).

(** The state of grade [p >= 1] in [Varith]. *)
Definition arith_done (m n : Z) (L : list (list vec)) (ZA ZB : list vec)
    (M : list (matrix Z * matrix Z)) (p : nat) : Prop :=
  ∃ l l2 MA MB, L !! p = Some l ∧ L !! (p - 1)%nat = Some l2 ∧ M !! p = Some (MA, MB)
    ∧ index_table l l (vscale (n * m + 1 - 2 * Z.of_nat p) (e1 n)) ZA MA
    ∧ index_table l l2 (vscale (n * m + 1 - 2 * Z.of_nat p) (e1 n)) ZB MB.

Definition arith_fresh (L : list (list vec)) (M : list (matrix Z * matrix Z)) (p : nat) : Prop :=
  ∃ l l2, L !! p = Some l ∧ L !! (p - 1)%nat = Some l2
    ∧ M !! p = Some (zero_matrix 0 (length l) (length l),
                     zero_matrix 0 (length l) (length l2)).

(** A vector of the pool: [n] non-negative coordinates and weight [w]. *)
Definition pool_vector (n w : Z) (x : vec) : Prop :=
  Z.of_nat (length x) = n ∧ nonneg x ∧ weight x = w.

(** [Mp] is a table of first positions: entry [(i,j)] is a position of
    the combined vector of [l[i]] and [l2[j]] in the pool, and no earlier
    position holds that vector. *)
Definition first_seen_table (l l2 : list vec) (off : vec) (Zp : list vec)
    (Mp : matrix Z) : Prop :=
  nrows Mp = length l ∧ ncols Mp = length l2
  ∧ ∀ i j vi wj, l !! i = Some vi → l2 !! j = Some wj →
      ∃ k : nat, mat_at Mp i j = Some (Z.of_nat k)
        ∧ Zp !! k = Some (comb vi wj off)
        ∧ ∀ i', (i' < k)%nat → Zp !! i' ≠ Some (comb vi wj off).
(** [D] holds the degrees of the vectors that the index table [Mi] names:
    entry [(i,j)] of [Mi] is the position in the pool of
    [l[i] + l2[j] + off], and entry [(i,j)] of [D] is its degree. *)
Definition degree_block (deg : vec → res Q) (l l2 : list vec) (off : vec)
    (Zp : list vec) (Mi : matrix Z) (D : matrix Q) : Prop :=
  mat_wf D ∧ nrows D = length l ∧ ncols D = length l2
  ∧ ∀ i j vi wj, l !! i = Some vi → l2 !! j = Some wj →
      ∃ (k : nat) (z : vec) (q : Q),
        mat_at Mi i j = Some (Z.of_nat k) ∧ Zp !! k = Some z
        ∧ (s ← vadd vi wj; vadd s off) = Ok z
        ∧ deg z = Ok q ∧ mat_at D i j = Some q.

(** [blk] is laid out as [[A, Bm], [Bm^T, 0]], with [A] of size [d x d]
    and [Bm] of size [d x d2]. *)
Definition block_layout (A Bm blk : matrix Q) (d d2 : nat) : Prop :=
  nrows blk = (d + d2)%nat ∧ ncols blk = (d + d2)%nat
  ∧ (∀ i j, (i < d)%nat → (j < d)%nat → mat_at blk i j = mat_at A i j)
  ∧ (∀ i j, (i < d)%nat → (j < d2)%nat → mat_at blk i (d + j) = mat_at Bm i j)
  ∧ (∀ i j, (i < d2)%nat → (j < d)%nat → mat_at blk (d + i) j = mat_at Bm j i)
  ∧ (∀ i j, (i < d2)%nat → (j < d2)%nat →
       mat_at blk (d + i) (d + j) = Some (inject_Z 0)).

(** The arithmetic degree with the tables omitted, and half the geometric
    degree. *)
Definition adeg_plain (z : vec) : res Q := adeg z None None.
Definition gdeg_half (z : vec) : res Q :=
  g ← gdeg z; Ok (qdiv (inject_Z g) (inject_Z 2)).

(** [M] is symmetric on its first [d] rows and columns. *)
Definition symmetric_upto (M : matrix Q) (d : nat) : Prop :=
  ∀ i j, (i < d)%nat → (j < d)%nat → mat_at M i j = mat_at M j i.

(** ** The model on small inputs *)

Example weight_2_1_3 : weight [2; 1; 3] = 13.
Proof. reflexivity. Qed.

Example IntegerVectors_2_3 :
  IntegerVectors 2 3 = [[2; 0; 0]; [1; 1; 0]; [1; 0; 1]; [0; 2; 0]; [0; 1; 1]; [0; 0; 2]].
Proof. reflexivity. Qed.

Example B_2_2 : B 2 2 = [[[0; 0]]; [[1; 0]]; [[0; 1]; [2; 0]]; [[1; 1]]; [[0; 2]]].
Proof. by vm_compute. Qed.

Example B_no_variables : B 3 0 = [[[]]].
Proof. by vm_compute. Qed.

Example kostka_values :
  kostka [2; 1] [1; 1; 1] = 2 ∧ kostka [3; 2] [2; 2; 1] = 2
  ∧ kostka [2; 2] [1; 1; 1; 1] = 2 ∧ kostka [3; 3; 3] [1; 1; 1; 1; 1; 1; 1; 1; 1] = 42
  ∧ kostka [2; 2] [1; 1; 2] = 1 ∧ kostka [1; 1] [2] = 0.
Proof. by vm_compute. Qed.

Example Vgeom_2_2 :
  Vgeom 2 2 = Ok (Tuple ([[4; 0]; [0; 2]; [2; 1]],
                         [Mat 1 1 [[0]]; Mat 1 1 [[0]]; Mat 2 2 [[1; 2]; [2; 0]]])).
Proof. by vm_compute. Qed.

Example gHodge_2_2 :
  gHodge 2 2 = Ok [Mat 1 1 [[2]]; Mat 1 1 [[2]]; Mat 2 2 [[1; 1]; [1; 2]]].
Proof. by vm_compute. Qed.

Example HilbGeom_2_2 : HilbGeom 2 2 = Ok [1; 1; 2; 1; 1].
Proof. by vm_compute. Qed.

Example Signature_2_2 : Signature [1; 1; 2; 1; 1] = Ok [1; -1; 2].
Proof. by vm_compute. Qed.

Example Tam_2_2 : Tam 2 2 = [(0, 1, 0); (1, 1, 0)].
Proof. by vm_compute. Qed.

Example harm_list_3 : harm_list 3 = [0 # 1; 1 # 1; 3 # 2; 11 # 6]%Q.
Proof. by vm_compute. Qed.

Example adeg_projective_line : adeg [2] None None = Ok (1 # 2)%Q.
Proof. by vm_compute. Qed.

Example adeg_projective_plane : adeg [3; 0] None None = Ok (5 # 4)%Q.
Proof. by vm_compute. Qed.

Example aHodge_1_1 :
  aHodge 1 1 = Ok [Mat 1 1 [[1 # 2]];
                   Mat 2 2 [[-1 # 2; -1 # 2]; [-1 # 2; 0 # 1]]]%Q.
Proof. by vm_compute. Qed.
(** ** Facts about the basis enumerator *)


Lemma weight_from_spec (v : vec) (c : Z) :
  sumZ ((λ k, (v !!! Z.to_nat (k - c)) * k) <$> seqZ c (Z.of_nat (length v)))
  = weight_from c v.
Proof.
  revert c. induction v as [|x v IH]; intros c; [done|].
  rewrite seqZ_cons by (simpl; lia). cbn [fmap list_fmap sumZ foldr weight_from].
  rewrite Z.sub_diag. cbn [Z.to_nat lookup_total list_lookup_total].
  f_equal. rewrite <- (IH (c + 1)).
  replace (Z.pred (Z.of_nat (length (x :: v)))) with (Z.of_nat (length v))
    by (simpl; lia).
  replace (Z.succ c) with (c + 1) by lia.
  unfold sumZ. f_equal. apply list_fmap_ext. intros i k Hk.
  apply lookup_seqZ in Hk as [-> Hi].
  replace (Z.to_nat (c + 1 + Z.of_nat i - c)) with (S i) by lia.
  replace (Z.to_nat (c + 1 + Z.of_nat i - (c + 1))) with i by lia.
  done.
Qed.

Lemma weight_eq (v : vec) : weight v = weight_from 1 v.
Proof.
  unfold weight, erange. rewrite <- weight_from_spec. do 3 f_equal. lia.
Qed.

Lemma weight_from_app (u v : vec) (c : Z) :
  weight_from c (u ++ v) = weight_from c u + weight_from (c + Z.of_nat (length u)) v.
Proof.
  revert c. induction u as [|x u IH]; intros c; cbn [app weight_from length].
  - by rewrite Z.add_0_r.
  - rewrite IH, Nat2Z.inj_succ.
    replace (c + 1 + Z.of_nat (length u)) with (c + Z.succ (Z.of_nat (length u))) by lia.
    lia.
Qed.

Lemma weight_from_zeros (k : nat) (c : Z) : weight_from c (replicate k 0) = 0.
Proof. revert c. induction k as [|k IH]; intros c; simpl; [done|]. by rewrite IH. Qed.

Lemma weight_from_nonneg (v : vec) (c : Z) :
  0 ≤ c → Forall (λ x, 0 ≤ x) v → 0 ≤ weight_from c v.
Proof.
  intros Hc Hv. revert c Hc. induction Hv as [|x v Hx _ IH]; intros c Hc; simpl; [done|].
  specialize (IH (c + 1)). nia.
Qed.

Lemma weight_from_le (v : vec) (c : Z) :
  0 ≤ c → Forall (λ x, 0 ≤ x) v →
  weight_from c v ≤ (c + Z.of_nat (length v) - 1) * sumZ v
  ∧ 0 ≤ sumZ v.
Proof.
  intros Hc Hv. revert c Hc.
  induction Hv as [|x v Hx _ IH]; intros c Hc; cbn [weight_from sumZ foldr length].
  - lia.
  - destruct (IH (c + 1)) as [IH1 IH2]; [lia|]. fold (sumZ v). split; [|lia].
    rewrite Nat2Z.inj_succ. nia.
Qed.


Lemma sumZ_nonneg (v : vec) : nonneg v → 0 ≤ sumZ v.
Proof. induction 1; cbn [sumZ foldr]; [done|]. fold (sumZ l). lia. Qed.

Lemma elem_of_IntegerVectors_nk (k n : nat) (v : vec) :
  v ∈ IntegerVectors_nk k n ↔
  length v = k ∧ nonneg v ∧ sumZ v = Z.of_nat n.
Proof.
  revert n v. induction k as [|k IH]; intros n v.
  - destruct n as [|n]; cbn [IntegerVectors_nk].
    + rewrite list_elem_of_singleton. split.
      * intros ->. split_and!; [done|constructor|done].
      * intros (Hl & _ & _). by destruct v.
    + split; [by intros ?%elem_of_nil|].
      intros (Hl & _ & Hs). destruct v; [|done]. simpl in Hs. lia.
  - cbn [IntegerVectors_nk]. rewrite list_elem_of_bind. split.
    + intros (nbar & Hv & Hn). apply list_elem_of_fmap in Hv as (w & -> & Hw).
      apply IH in Hw as (Hl & Hnn & Hs). apply elem_of_seq in Hn.
      repeat split.
      * simpl. by rewrite Hl.
      * constructor; [lia|done].
      * cbn [sumZ foldr]. fold (sumZ w). lia.
    + intros (Hl & Hnn & Hs). destruct v as [|x w]; [done|].
      inversion Hnn as [|? ? Hx Hw]; subst. cbn [sumZ foldr] in Hs. fold (sumZ w) in Hs.
      pose proof (sumZ_nonneg w Hw) as Hpos.
      exists (Z.to_nat (sumZ w)). split.
      * apply list_elem_of_fmap. exists w. split; [f_equal; lia|].
        apply IH. repeat split; [by injection Hl|done|lia].
      * apply elem_of_seq. lia.
Qed.

Lemma NoDup_IntegerVectors_nk (k n : nat) : NoDup (IntegerVectors_nk k n).
Proof.
  revert n. induction k as [|k IH]; intros n.
  - destruct n; cbn [IntegerVectors_nk]; [apply NoDup_singleton|apply NoDup_nil_2].
  - cbn [IntegerVectors_nk]. apply NoDup_bind.
    + intros x1 x2 y Hx1 Hx2 Hy1 Hy2.
      apply list_elem_of_fmap in Hy1 as (w1 & -> & _).
      apply list_elem_of_fmap in Hy2 as (w2 & Heq & _).
      apply elem_of_seq in Hx1. apply elem_of_seq in Hx2.
      injection Heq as Heq _. lia.
    + intros x _. apply NoDup_fmap_2; [|done]. by intros ?? [=].
    + apply NoDup_seq.
Qed.


Lemma elem_of_all_vectors (m n : Z) (v : vec) :
  0 ≤ m → 0 ≤ n →
  v ∈ all_vectors m n ↔ Z.of_nat (length v) = n ∧ nonneg v ∧ sumZ v ≤ m.
Proof.
  intros Hm Hn. unfold all_vectors, erange, IntegerVectors.
  rewrite list_elem_of_bind. split.
  - intros (j & Hv & Hj). apply elem_of_seqZ in Hj.
    apply elem_of_IntegerVectors_nk in Hv as (Hl & Hnn & Hs).
    repeat split; [lia|done|lia].
  - intros (Hl & Hnn & Hs). pose proof (sumZ_nonneg v Hnn).
    exists (sumZ v). split.
    + apply elem_of_IntegerVectors_nk. repeat split; [lia|done|lia].
    + apply elem_of_seqZ. lia.
Qed.

Lemma NoDup_all_vectors (m n : Z) : NoDup (all_vectors m n).
Proof.
  unfold all_vectors, erange, IntegerVectors. apply NoDup_bind.
  - intros j1 j2 v Hj1 Hj2 Hv1 Hv2.
    apply elem_of_seqZ in Hj1. apply elem_of_seqZ in Hj2.
    apply elem_of_IntegerVectors_nk in Hv1 as (_ & _ & Hs1).
    apply elem_of_IntegerVectors_nk in Hv2 as (_ & _ & Hs2). lia.
  - intros. apply NoDup_IntegerVectors_nk.
  - apply NoDup_seqZ.
Qed.


Lemma binomial_SS (n k : nat) :
  binomial (S n) (S k) = (binomial n k + binomial n (S k))%nat.
Proof. done. Qed.

Lemma binomial_lt (n k : nat) : (n < k)%nat → binomial n k = 0%nat.
Proof.
  revert k. induction n as [|n IH]; intros k Hk; destruct k as [|k]; try lia; [done|].
  rewrite binomial_SS, !IH by lia. done.
Qed.

Lemma binomial_diag (n : nat) : binomial n n = 1%nat.
Proof.
  induction n as [|n IH]; [done|]. rewrite binomial_SS, IH, binomial_lt by lia. done.
Qed.

(** [binomial] is the binomial coefficient: C(n+k, k) = (n+k)! / (k! n!). *)
Lemma binomial_factorial (n k : nat) :
  (binomial (n + k) k * (fact k * fact n) = fact (n + k))%nat.
Proof.
  revert k. induction n as [|n IHn]; intros k.
  - rewrite Nat.add_0_l, binomial_diag. simpl. lia.
  - induction k as [|k IHk].
    + rewrite Nat.add_0_r. destruct n; simpl; lia.
    + pose proof (IHn (S k)) as H2.
      replace (S n + S k)%nat with (S (S (n + k))) by lia.
      replace (S n + k)%nat with (S (n + k)) in IHk by lia.
      replace (n + S k)%nat with (S (n + k)) in H2 by lia.
      rewrite (binomial_SS (S (n + k)) k).
      change (fact (S (S (n + k)))) with (S (S (n + k)) * fact (S (n + k)))%nat.
      change (fact (S k)) with (S k * fact k)%nat in *.
      change (fact (S n)) with (S n * fact n)%nat in *.
      revert IHk H2.
      generalize (binomial (S (n + k)) k) (binomial (S (n + k)) (S k))
        (fact k) (fact n) (fact (S (n + k))).
      intros A A' fk fn F IHk H2.
      transitivity (S k * (A * (fk * (S n * fn))) + S n * (A' * (S k * fk * fn)))%nat;
        [ring|]. rewrite IHk, H2. ring.
Qed.

Lemma length_bind {X Y : Type} (f : X → list Y) (l : list X) :
  length (l ≫= f) = sum_list_with (λ x, length (f x)) l.
Proof. induction l as [|x l IH]; [done|]. rewrite bind_cons, length_app, IH. done. Qed.

Lemma sum_list_with_ext {X : Type} (f g : X → nat) (l : list X) :
  (∀ x, x ∈ l → f x = g x) → sum_list_with f l = sum_list_with g l.
Proof.
  induction l as [|x l IH]; intros H; [done|]. cbn [sum_list_with].
  rewrite H by left. rewrite IH; [done|]. intros y Hy. apply H. by right.
Qed.

Lemma sum_binomial_diag (k n : nat) :
  sum_list_with (λ j, binomial (j + k) k) (seq 0 (S n)) = binomial (n + S k) (S k).
Proof.
  induction n as [|n IH].
  - cbn [seq sum_list_with]. rewrite !Nat.add_0_l, !binomial_diag. done.
  - rewrite seq_S, sum_list_with_app, IH. cbn [sum_list_with].
    replace (S n + S k)%nat with (S (n + S k)) by lia. rewrite binomial_SS.
    replace (0 + S n + k)%nat with (n + S k)%nat by lia. lia.
Qed.

Lemma length_IntegerVectors_nk (k n : nat) :
  length (IntegerVectors_nk (S k) n) = binomial (n + k) k.
Proof.
  revert n. induction k as [|k IH]; intros n.
  - cbn [IntegerVectors_nk]. rewrite length_bind. cbn [seq sum_list_with].
    rewrite Nat.add_0_r. cbn [binomial].
    assert (Hz : ∀ a c, sum_list_with
      (λ x, length (cons (Z.of_nat (n - x)) <$>
         match x with O => [[]] | S _ => [] end)) (seq (S a) c) = 0%nat).
    { intros a c. revert a. induction c as [|c IHc]; intros a; [done|].
      cbn [seq sum_list_with]. rewrite IHc. done. }
    rewrite Hz. destruct n; done.
  - change (IntegerVectors_nk (S (S k)) n) with
      (seq 0 (S n) ≫= λ nbar, cons (Z.of_nat (n - nbar)) <$> IntegerVectors_nk (S k) nbar).
    rewrite length_bind.
    rewrite <- sum_binomial_diag. apply sum_list_with_ext.
    intros j _. by rewrite length_fmap, IH.
Qed.

Lemma length_all_vectors (m n : Z) :
  0 ≤ m → 0 ≤ n →
  length (all_vectors m n) = binomial (Z.to_nat m + Z.to_nat n) (Z.to_nat n).
Proof.
  intros Hm Hn. rewrite <- length_IntegerVectors_nk.
  cbn [IntegerVectors_nk]. unfold all_vectors, erange, IntegerVectors, seqZ.
  rewrite !length_bind.
  replace (Z.to_nat (m - 0 + 1)) with (S (Z.to_nat m)) by lia.
  generalize (S (Z.to_nat m)) as c. generalize (Z.to_nat m) as m'.
  intros m' c. generalize 0%nat as a. induction c as [|c IH]; intros a; [done|].
  cbn [seq fmap list_fmap sum_list_with]. rewrite IH, length_fmap.
  do 3 f_equal. lia.
Qed.

(** *** Sorting and grouping by key *)

Section grouping.
Context {A : Type} (key : A → Z).
Implicit Types l g s : list A.


Lemma buckets_S l lo k : buckets key l lo (S k) = bucket key l lo :: buckets key l (lo + 1) k.
Proof.
  unfold buckets. rewrite seqZ_cons by lia. cbn [fmap list_fmap].
  do 3 f_equal; lia.
Qed.

Lemma buckets_elem l lo k x :
  x ∈ mjoin (buckets key l lo k) → lo ≤ key x < lo + Z.of_nat k ∧ x ∈ l.
Proof.
  intros (g & Hx & Hg)%list_elem_of_join.
  apply list_elem_of_fmap in Hg as (p & -> & Hp). apply elem_of_seqZ in Hp.
  apply list_elem_of_filter in Hx as [Hk Hx]. split; [lia|done].
Qed.

Lemma insert_by_front a s :
  Forall (λ b, key a ≤ key b) s → insert_by key a s = a :: s.
Proof.
  destruct 1 as [|b s Hb _]; [done|]. cbn [insert_by].
  by rewrite (proj2 (Z.leb_le _ _) Hb).
Qed.

Lemma insert_by_skip a s1 s2 :
  Forall (λ b, key b < key a) s1 →
  insert_by key a (s1 ++ s2) = s1 ++ insert_by key a s2.
Proof.
  induction 1 as [|b s1 Hb _ IH]; [done|]. cbn [app insert_by].
  rewrite (proj2 (Z.leb_gt _ _) Hb). by rewrite IH.
Qed.

Lemma insert_by_buckets a l k lo :
  lo ≤ key a < lo + Z.of_nat k →
  insert_by key a (mjoin (buckets key l lo k)) = mjoin (buckets key (a :: l) lo k).
Proof.
  revert lo. induction k as [|k IH]; intros lo Ha; [lia|].
  rewrite !buckets_S. cbn [mjoin list_join]. unfold bucket at 2.
  destruct (decide (key a = lo)) as [Heq|Hne].
  - rewrite filter_cons_True by done. cbn [app].
    assert (buckets key (a :: l) (lo + 1) k = buckets key l (lo + 1) k) as ->.
    { unfold buckets. apply list_fmap_ext. intros i p Hp.
      apply lookup_seqZ in Hp as [-> _]. unfold bucket.
      rewrite filter_cons_False by lia. done. }
    apply insert_by_front. apply Forall_app. split.
    + apply Forall_forall. intros b [Hb _]%list_elem_of_filter. lia.
    + apply Forall_forall. intros b [Hb _]%buckets_elem. lia.
  - rewrite filter_cons_False by done. rewrite insert_by_skip.
    + f_equal. apply IH. lia.
    + apply Forall_forall. intros b [Hb _]%list_elem_of_filter. lia.
Qed.

(** A stable sort by key is a bucket sort. *)
Lemma sort_by_buckets l lo k :
  Forall (λ x, lo ≤ key x < lo + Z.of_nat k) l →
  sort_by key l = mjoin (buckets key l lo k).
Proof.
  induction 1 as [|a l Ha _ IH]; cbn [sort_by].
  - unfold buckets, bucket. generalize (seqZ lo (Z.of_nat k)).
    intros ps. by induction ps.
  - rewrite IH. by apply insert_by_buckets.
Qed.

Lemma groupby_head b l : ∃ g gs, groupby key (b :: l) = (b :: g) :: gs.
Proof.
  revert b. induction l as [|c l IH]; intros b; [by exists [], []|].
  destruct (IH c) as (g & gs & Hg).
  change (groupby key (b :: c :: l)) with
    (match groupby key (c :: l) with
     | (b' :: g') :: gs' =>
         if decide (key b = key b') then (b :: b' :: g') :: gs'
         else [b] :: (b' :: g') :: gs'
     | gs' => [b] :: gs'
     end).
  rewrite Hg. case_decide; eauto.
Qed.

Lemma groupby_cons_run a b g s :
  key a = key b →
  groupby key (b :: g ++ s) = (b :: g) :: groupby key s →
  groupby key (a :: b :: g ++ s) = (a :: b :: g) :: groupby key s.
Proof.
  intros Hk Hg.
  change (groupby key (a :: b :: g ++ s)) with
    (match groupby key (b :: g ++ s) with
     | (b' :: g') :: gs' =>
         if decide (key a = key b') then (a :: b' :: g') :: gs'
         else [a] :: (b' :: g') :: gs'
     | gs' => [a] :: gs'
     end).
  rewrite Hg. by rewrite decide_True.
Qed.

Lemma groupby_run c g s :
  g ≠ [] → Forall (λ x, key x = c) g → Forall (λ x, key x ≠ c) s →
  groupby key (g ++ s) = g :: groupby key s.
Proof.
  intros Hne Hg Hs. induction Hg as [|a g Ha Hg IH]; [done|].
  destruct g as [|b g].
  - cbn [app]. destruct s as [|b s]; [done|].
    destruct (groupby_head b s) as (g' & gs & Hgs).
    change (groupby key (a :: b :: s)) with
      (match groupby key (b :: s) with
       | (b' :: g'') :: gs' =>
           if decide (key a = key b') then (a :: b' :: g'') :: gs'
           else [a] :: (b' :: g'') :: gs'
       | gs' => [a] :: gs'
       end).
    rewrite Hgs. inversion Hs; subst. rewrite decide_False by congruence. done.
  - cbn [app]. apply groupby_cons_run.
    + inversion Hg; subst. congruence.
    + by apply IH.
Qed.

Lemma groupby_buckets l lo k :
  groupby key (mjoin (buckets key l lo k)) = filter (λ g, g ≠ []) (buckets key l lo k).
Proof.
  revert lo. induction k as [|k IH]; intros lo; [done|].
  rewrite buckets_S. cbn [mjoin list_join].
  destruct (decide (bucket key l lo = [])) as [Hnil|Hne].
  - rewrite filter_cons_False by (intros ?; done). rewrite Hnil. apply IH.
  - rewrite filter_cons_True by done. rewrite <- IH.
    apply (groupby_run lo); [done| |].
    + apply Forall_forall. by intros x [Hx _]%list_elem_of_filter.
    + apply Forall_forall. intros x [Hx _]%buckets_elem. lia.
Qed.

Lemma groupby_sort_by l lo k :
  Forall (λ x, lo ≤ key x < lo + Z.of_nat k) l →
  groupby key (sort_by key l) = filter (λ g, g ≠ []) (buckets key l lo k).
Proof. intros Hl. rewrite (sort_by_buckets l lo k Hl). apply groupby_buckets. Qed.

Lemma length_join_buckets l lo k :
  Forall (λ x, lo ≤ key x < lo + Z.of_nat k) l →
  length (mjoin (buckets key l lo k)) = length l.
Proof.
  intros Hl. rewrite <- (sort_by_buckets l lo k Hl). clear.
  induction l as [|a l IH]; [done|]. cbn [sort_by length]. rewrite <- IH.
  generalize (sort_by key l). intros s. induction s as [|b s IHs]; [done|].
  cbn [insert_by]. case_match; cbn [length]; [done|]. by rewrite IHs.
Qed.

Lemma join_filter_nonempty (gs : list (list A)) :
  mjoin (filter (λ g, g ≠ []) gs) = mjoin gs.
Proof.
  induction gs as [|g gs IH]; [done|].
  destruct (decide (g = [])) as [->|Hne].
  - rewrite filter_cons_False by (intros ?; done). done.
  - rewrite filter_cons_True by done. cbn [mjoin list_join]. f_equal. apply IH.
Qed.
End grouping.

(** *** The grades of [B] *)

Lemma sumZ_app (u v : vec) : sumZ (u ++ v) = sumZ u + sumZ v.
Proof. induction u as [|x u IH]; [done|]. cbn [app sumZ foldr]. fold (sumZ (u ++ v)) (sumZ u). lia. Qed.

Lemma sumZ_zeros (k : nat) : sumZ (replicate k 0) = 0.
Proof. induction k as [|k IH]; [done|]. cbn [replicate sumZ foldr]. fold (sumZ (replicate k 0)). lia. Qed.

Lemma nonneg_zeros (k : nat) : nonneg (replicate k 0).
Proof. apply Forall_replicate. lia. Qed.

Lemma weight_range (m n : Z) (v : vec) :
  0 ≤ m → 0 ≤ n → v ∈ all_vectors m n → 0 ≤ weight v ≤ m * n.
Proof.
  intros Hm Hn (Hl & Hnn & Hs)%elem_of_all_vectors; [|done..].
  rewrite weight_eq. split; [by apply weight_from_nonneg|].
  destruct (weight_from_le v 1) as [Hle Hpos]; [lia|done|]. nia.
Qed.

Lemma B_buckets (m n : Z) :
  0 ≤ m → 0 ≤ n →
  B m n = filter (λ g, g ≠ []) (buckets weight (all_vectors m n) 0 (Z.to_nat (m * n + 1))).
Proof.
  intros Hm Hn. unfold B.
  rewrite (proj2 (Z.ltb_ge _ _) Hm), (proj2 (Z.ltb_ge _ _) Hn). cbn [orb].
  apply groupby_sort_by. apply Forall_forall. intros v Hv.
  pose proof (weight_range m n v Hm Hn Hv). nia.
Qed.


Lemma grade_vector_spec (m n p : Z) :
  0 ≤ m → 1 ≤ n → 0 ≤ p ≤ m * n →
  grade_vector n p ∈ all_vectors m n ∧ weight (grade_vector n p) = p.
Proof.
  intros Hm Hn Hp.
  pose proof (Z.div_mod p n ltac:(lia)) as Hdm.
  pose proof (Z.mod_pos_bound p n ltac:(lia)) as Hr.
  assert (0 ≤ p `div` n) as Hq by (apply Z.div_pos; lia).
  rewrite elem_of_all_vectors, weight_eq by lia. unfold grade_vector.
  case_decide as Hz.
  - assert (p `div` n ≤ m) by nia. split_and!.
    + rewrite length_app, length_replicate. simpl. lia.
    + apply Forall_app. split; [apply nonneg_zeros|]. by repeat constructor.
    + rewrite sumZ_app, sumZ_zeros. cbn. lia.
    + rewrite weight_from_app, weight_from_zeros, length_replicate.
      cbn [weight_from]. nia.
  - assert (p `div` n < m) by nia. split_and!.
    + rewrite !length_app, !length_replicate. simpl. lia.
    + apply Forall_app. split; [apply nonneg_zeros|].
      apply Forall_app. split; [repeat constructor; lia|].
      apply Forall_app. split; [apply nonneg_zeros|]. by repeat constructor.
    + rewrite !sumZ_app, !sumZ_zeros. cbn. lia.
    + rewrite !weight_from_app, !weight_from_zeros, !length_replicate.
      cbn [weight_from length]. nia.
Qed.

Lemma bucket_nonempty (m n p : Z) :
  0 ≤ m → 1 ≤ n → 0 ≤ p ≤ m * n → bucket weight (all_vectors m n) p ≠ [].
Proof.
  intros Hm Hn Hp Hnil.
  destruct (grade_vector_spec m n p Hm Hn Hp) as [Hin Hw].
  eapply (filter_nil_not_elem_of _ _ (grade_vector n p)) in Hnil; done.
Qed.

Lemma B_grades (m n : Z) :
  0 ≤ m → 1 ≤ n →
  B m n = buckets weight (all_vectors m n) 0 (Z.to_nat (m * n + 1)).
Proof.
  intros Hm Hn. rewrite B_buckets by lia.
  assert (Forall (λ g, g ≠ []) (buckets weight (all_vectors m n) 0 (Z.to_nat (m * n + 1)))) as Hall.
  { apply Forall_forall. intros g (p & -> & Hp)%list_elem_of_fmap.
    apply elem_of_seqZ in Hp. apply (bucket_nonempty m n p); nia. }
  induction Hall as [|g gs Hg _ IH]; [done|].
  rewrite filter_cons_True by done. by rewrite IH.
Qed.

Lemma B_length (m n : Z) : 0 ≤ m → 1 ≤ n → length (B m n) = Z.to_nat (m * n + 1).
Proof.
  intros Hm Hn. rewrite B_grades by done. unfold buckets.
  rewrite length_fmap, length_seqZ. lia.
Qed.

Lemma B_lookup (m n : Z) (p : nat) :
  0 ≤ m → 1 ≤ n → Z.of_nat p ≤ m * n →
  B m n !! p = Some (bucket weight (all_vectors m n) (Z.of_nat p)).
Proof.
  intros Hm Hn Hp. rewrite B_grades by done. unfold buckets.
  rewrite list_lookup_fmap, lookup_seqZ_lt by nia. done.
Qed.

Lemma B_lookup_inv (m n : Z) (p : nat) (g : list vec) :
  0 ≤ m → 1 ≤ n → B m n !! p = Some g →
  Z.of_nat p ≤ m * n ∧ g = bucket weight (all_vectors m n) (Z.of_nat p).
Proof.
  intros Hm Hn Hg. pose proof (lookup_lt_Some _ _ _ Hg) as Hlt.
  rewrite B_length in Hlt by done.
  assert (Z.of_nat p ≤ m * n) as Hp by nia. split; [done|].
  rewrite B_lookup in Hg by done. congruence.
Qed.

Lemma elem_of_bucket_weight (m n p : Z) (v : vec) :
  0 ≤ m → 0 ≤ n →
  v ∈ bucket weight (all_vectors m n) p ↔
  Z.of_nat (length v) = n ∧ nonneg v ∧ sumZ v ≤ m ∧ weight v = p.
Proof.
  intros Hm Hn. unfold bucket. rewrite list_elem_of_filter, elem_of_all_vectors by done.
  tauto.
Qed.

(** ** Facts about results, indexing and loops *)

Lemma res_mapM_Forall2 {X Y : Type} (f : X → res Y) (xs : list X) (ys : list Y) :
  res_mapM f xs = Ok ys ↔ Forall2 (λ x y, f x = Ok y) xs ys.
Proof.
  revert ys. induction xs as [|x xs IH]; intros ys; cbn [res_mapM].
  - split; [intros [= <-]; constructor|]. by intros ->%Forall2_nil_inv_l.
  - split.
    + destruct (f x) as [y|e] eqn:Hfx; [|done]. cbn.
      destruct (res_mapM f xs) as [ys'|e] eqn:Hm; [|done]. cbn.
      intros [= <-]. constructor; [done|]. by apply IH.
    + intros (y & ys' & Hy & Hys & ->)%Forall2_cons_inv_l.
      rewrite Hy. cbn. apply IH in Hys. rewrite Hys. done.
Qed.

Lemma res_mapM_ok {X Y : Type} (f : X → res Y) (xs : list X) :
  (∀ x, x ∈ xs → ∃ y, f x = Ok y) → ∃ ys, res_mapM f xs = Ok ys.
Proof.
  induction xs as [|x xs IH]; intros Hf; [by exists []|].
  destruct (Hf x) as [y Hy]; [by left|].
  destruct IH as [ys Hys]; [intros ??; apply Hf; by right|].
  exists (y :: ys). cbn [res_mapM]. rewrite Hy. cbn. rewrite Hys. done.
Qed.

Lemma res_mapM_raise {X Y : Type} (f : X → res Y) (xs : list X) (e : exn) :
  res_mapM f xs = Raise e → ∃ x, x ∈ xs ∧ f x = Raise e.
Proof.
  induction xs as [|x xs IH]; cbn [res_mapM]; [done|].
  destruct (f x) as [y|e'] eqn:Hfx; cbn.
  - destruct (res_mapM f xs) as [ys|e''] eqn:Hm; cbn; [done|].
    intros [= ->]. destruct IH as (x' & Hx' & Hf); [done|].
    exists x'. split; [by right|done].
  - intros [= ->]. exists x. split; [by left|done].
Qed.

Lemma foldM_ok {S X : Type} (f : S → X → res S) (xs : list X) (s : S) :
  (∀ s x, x ∈ xs → ∃ s', f s x = Ok s') → ∃ s', foldM f xs s = Ok s'.
Proof.
  revert s. induction xs as [|x xs IH]; intros s Hf; [by exists s|].
  destruct (Hf s x) as [s1 Hs1]; [by left|]. cbn [foldM]. rewrite Hs1. cbn.
  apply IH. intros ???. apply Hf. by right.
Qed.

Lemma foldM_app {S X : Type} (f : S → X → res S) (xs ys : list X) (s : S) :
  foldM f (xs ++ ys) s = s' ← foldM f xs s; foldM f ys s'.
Proof.
  revert s. induction xs as [|x xs IH]; intros s; [done|].
  cbn [app foldM]. destruct (f s x); cbn; [apply IH|done].
Qed.

Lemma py_get_nat {A : Type} (l : list A) (i : nat) (x : A) :
  l !! i = Some x → py_get l (Z.of_nat i) = Ok x.
Proof.
  intros Hx. pose proof (lookup_lt_Some _ _ _ Hx) as Hlt. unfold py_get.
  rewrite (proj2 (andb_true_iff _ _)); [|split; [apply Z.leb_le|apply Z.ltb_lt]; lia].
  rewrite (proj2 (Z.ltb_ge _ _)) by lia. rewrite Nat2Z.id, Hx. done.
Qed.

Lemma py_get_Z {A : Type} (l : list A) (k : Z) :
  0 ≤ k < Z.of_nat (length l) → ∃ x, py_get l k = Ok x ∧ l !! Z.to_nat k = Some x.
Proof.
  intros Hk. destruct (lookup_lt_is_Some_2 l (Z.to_nat k)) as [x Hx]; [lia|].
  exists x. split; [|done]. rewrite <- (Z2Nat.id k) by lia. by apply py_get_nat.
Qed.

Lemma py_get_inv {A : Type} (l : list A) (k : Z) (x : A) :
  0 ≤ k → py_get l k = Ok x → l !! Z.to_nat k = Some x.
Proof.
  intros Hk. unfold py_get. case_match; [|done].
  rewrite (proj2 (Z.ltb_ge _ _)) by lia. by case_match; intros [= ->].
Qed.

Lemma list_get_ok {A : Type} (l : list A) (i : nat) (x : A) :
  l !! i = Some x → list_get l i = Ok x.
Proof. intros Hx. unfold list_get. by rewrite Hx. Qed.

(** ** Facts about the degree functions *)

Lemma length_harm_list (k : Z) : length (harm_list k) = S (Z.to_nat k).
Proof.
  unfold harm_list, erange.
  assert (∀ (ks : list Z) (H : list Q),
    length (foldl (λ H k, H ++ [qadd (default (inject_Z 0) (last H))
                                     (qdiv (inject_Z 1) (inject_Z k))]) H ks)
    = (length H + length ks)%nat) as Hlen.
  { induction ks as [|k' ks IH]; intros H; cbn [foldl length]; [lia|].
    rewrite IH, length_app. simpl. lia. }
  rewrite Hlen, length_seqZ. simpl. lia.
Qed.

Lemma elem_of_Tam (m n a b j : Z) :
  (a, b, j) ∈ Tam m n ↔
  0 ≤ a ≤ m - 1 ∧ 0 ≤ j ≤ n - 1 ∧ j + 1 ≤ b ≤ Z.min (n - 1) (m + n - a - j - 1).
Proof.
  unfold Tam, erange. rewrite list_elem_of_bind. split.
  - intros (a' & Hin & Ha). apply list_elem_of_bind in Hin as (j' & Hin & Hj).
    apply list_elem_of_bind in Hin as (b' & Hin & Hb).
    apply list_elem_of_singleton in Hin as [= -> -> ->].
    apply elem_of_seqZ in Ha, Hj, Hb. lia.
  - intros (Ha & Hj & Hb). exists a. split; [|apply elem_of_seqZ; lia].
    apply list_elem_of_bind. exists j. split; [|apply elem_of_seqZ; lia].
    apply list_elem_of_bind. exists b. split; [|apply elem_of_seqZ; lia].
    by apply list_elem_of_singleton.
Qed.

(** Weakly decreasing lists. *)
Lemma weakly_decreasing_cons (a : Z) (l : list Z) :
  weakly_decreasing (a :: l) = true ↔
  (match l with [] => True | b :: _ => b ≤ a end) ∧ weakly_decreasing l = true.
Proof.
  cbn [weakly_decreasing]. rewrite andb_true_iff. destruct l as [|b l]; [tauto|].
  by rewrite Z.leb_le.
Qed.

Lemma weakly_decreasing_zip (x y : list Z) :
  weakly_decreasing x = true → weakly_decreasing y = true →
  weakly_decreasing (zip_with Z.add x y) = true.
Proof.
  revert y. induction x as [|a x IH]; intros y Hx Hy; [done|].
  destruct y as [|b y]; [done|]. cbn [zip_with].
  apply weakly_decreasing_cons in Hx as [Ha Hx].
  apply weakly_decreasing_cons in Hy as [Hb Hy].
  apply weakly_decreasing_cons. split; [|by apply IH].
  destruct x as [|a' x]; [done|]. destruct y as [|b' y]; [done|].
  cbn [zip_with]. lia.
Qed.

Lemma weakly_decreasing_rep_app (v : Z) (k : nat) (l : list Z) :
  weakly_decreasing l = true →
  (match l with [] => True | b :: _ => b ≤ v end) →
  weakly_decreasing (replicate k v ++ l) = true.
Proof.
  intros Hl Hhd. induction k as [|k IH]; [done|].
  cbn [replicate app]. apply weakly_decreasing_cons. split; [|done].
  destruct k; cbn [replicate app]; [done|lia].
Qed.

Lemma weakly_decreasing_rep (v : Z) (k : nat) :
  weakly_decreasing (replicate k v) = true.
Proof.
  rewrite <- (app_nil_r (replicate k v)). by apply weakly_decreasing_rep_app.
Qed.

Lemma forallb_nonneg_zip (x y : list Z) :
  forallb (λ a, 0 <=? a) x = true → forallb (λ a, 0 <=? a) y = true →
  forallb (λ a, 0 <=? a) (zip_with Z.add x y) = true.
Proof.
  revert y. induction x as [|a x IH]; intros y Hx Hy; [done|].
  destruct y as [|b y]; [done|]. cbn [zip_with forallb] in *.
  apply andb_true_iff in Hx as [Ha Hx]. apply andb_true_iff in Hy as [Hb Hy].
  apply andb_true_iff. split; [|by apply IH].
  apply Z.leb_le in Ha, Hb. apply Z.leb_le. lia.
Qed.

Lemma forallb_nonneg_app (x y : list Z) :
  forallb (λ a, 0 <=? a) x = true → forallb (λ a, 0 <=? a) y = true →
  forallb (λ a, 0 <=? a) (x ++ y) = true.
Proof. intros Hx Hy. rewrite forallb_app, Hx, Hy. done. Qed.

Lemma forallb_nonneg_rep (v : Z) (k : nat) :
  0 ≤ v → forallb (λ a, 0 <=? a) (replicate k v) = true.
Proof.
  intros Hv. induction k as [|k IH]; [done|]. cbn [replicate forallb].
  rewrite IH. by rewrite (proj2 (Z.leb_le _ _) Hv).
Qed.

(** The shape built for a triple of [Tam(m,n)] is a partition. *)
Lemma Tam_shape_partition (m n a b j : Z) :
  (a, b, j) ∈ Tam m n →
  ∃ lam, Partition
    (zip_sum3 (py_rep (m - 1) (n - 1) ++ [a])
              (py_rep 1 b ++ py_rep 0 (n - b))
              ([m + n - a - b - j] ++ py_rep 1 j ++ py_rep 0 (n - j - 1))) = Ok lam.
Proof.
  intros (Ha & Hj & Hb)%elem_of_Tam. unfold Partition, zip_sum3, py_rep.
  eexists. rewrite (proj2 (andb_true_iff _ _)); [done|]. split.
  - repeat apply weakly_decreasing_zip.
    + apply weakly_decreasing_rep_app; [done|simpl; lia].
    + apply weakly_decreasing_rep_app.
      * apply weakly_decreasing_rep.
      * destruct (Z.to_nat (n - b)); simpl; lia.
    + apply weakly_decreasing_cons. split.
      * destruct (Z.to_nat j); cbn [replicate app].
        -- destruct (Z.to_nat (n - j - 1)); simpl; lia.
        -- lia.
      * apply weakly_decreasing_rep_app.
        -- apply weakly_decreasing_rep.
        -- destruct (Z.to_nat (n - j - 1)); simpl; lia.
  - repeat apply forallb_nonneg_zip.
    + apply forallb_nonneg_app; [apply forallb_nonneg_rep; lia|].
      simpl. rewrite (proj2 (Z.leb_le _ _)); [done|lia].
    + apply forallb_nonneg_app; apply forallb_nonneg_rep; lia.
    + cbn [app forallb]. rewrite (proj2 (Z.leb_le _ _)) by lia.
      apply forallb_nonneg_app; apply forallb_nonneg_rep; lia.
Qed.

Lemma adeg_term_ok (m n : Z) (w : list Z) (H : list Q) (s : Q) (t : Z * Z * Z) :
  t ∈ Tam m n → Z.of_nat (length H) = m + n →
  ∃ s', adeg_term m n w H s t = Ok s'.
Proof.
  destruct t as [[a b] j]. intros Ht Hlen.
  destruct (Tam_shape_partition m n a b j Ht) as [lam Hlam].
  apply elem_of_Tam in Ht as (Ha & Hj & Hb).
  unfold adeg_term. rewrite Hlam. cbn.
  destruct (py_get_Z H (m + n - a - j - 1)) as (h1 & -> & _); [lia|].
  destruct (py_get_Z H (m + n - a - b - 1)) as (h2 & -> & _); [lia|].
  cbn. eauto.
Qed.

(** With the tables of its own grading, [adeg] only fails on the weight
    test. *)
Lemma adeg_tables_ok (r : vec) :
  r ≠ [] → nonneg r →
  let n := Z.of_nat (length r) in
  let m := (weight r - 1) `div` n in
  (weight r - 1) `mod` n = 0 →
  ∃ q, adeg r (Some (Tam m n)) (Some (harm_list (m + n - 1))) = Ok q.
Proof.
  intros Hne Hnn n m Hmod.
  assert (1 ≤ n) as Hn by (subst n; destruct r; [done|simpl; lia]).
  assert (0 ≤ weight r) as Hw by (rewrite weight_eq; by apply weight_from_nonneg).
  pose proof (Z.div_mod (weight r - 1) n ltac:(lia)) as Hdm.
  fold m in Hdm. rewrite Hmod in Hdm.
  assert (-1 ≤ m) as Hm by nia.
  unfold adeg. fold n. rewrite decide_False by lia.
  rewrite decide_False by (intros ?; done). fold m.
  pose proof (length_harm_list (m + n - 1)) as HlenH.
  destruct (res_mapM_ok (py_get (harm_list (m + n - 1))) (erange n (m + n - 1)))
    as [hs ->].
  { intros k Hk%elem_of_seqZ.
    destruct (py_get_Z (harm_list (m + n - 1)) k) as (x & Hx & _); [lia|eauto]. }
  cbn.
  destruct (foldM_ok (adeg_term m n (mu r) (harm_list (m + n - 1))) (Tam m n)
    (qmul (inject_Z (kostka (py_rep n m ++ [1]) (mu r))) (qsum hs))) as [s' ->].
  { intros s [[a b] j] Ht. apply adeg_term_ok; [done|].
    apply elem_of_Tam in Ht. lia. }
  cbn. eauto.
Qed.

Lemma adeg_tables_default (r : vec) :
  let n := Z.of_nat (length r) in
  let m := (weight r - 1) `div` n in
  adeg r (Some (Tam m n)) (Some (harm_list (m + n - 1))) = adeg r None None
  ∧ adeg r (Some (Tam m n)) None = adeg r None None
  ∧ adeg r None (Some (harm_list (m + n - 1))) = adeg r None None.
Proof. done. Qed.

(** ** Facts about the pool and about matrix updates *)

Lemma pool_find_Some (z : vec) (Zp : list vec) (k : nat) :
  pool_find z Zp = Some k ↔
  Zp !! k = Some z ∧ ∀ i x, Zp !! i = Some x → (i < k)%nat → x ≠ z.
Proof.
  unfold pool_find. split.
  - destruct (list_find _ Zp) as [[k' y]|] eqn:Hf; [|done]. intros [= <-].
    apply list_find_Some in Hf as (Hy & -> & Hmin). split; [done|].
    intros i x Hx Hi. by apply (Hmin i).
  - intros [Hk Hmin]. 
    assert (list_find (λ y, y = z) Zp = Some (k, z)) as ->; [|done].
    apply list_find_Some. split_and!; [done..|].
    intros i x Hx Hi. by apply (Hmin i).
Qed.

Lemma pool_find_None (z : vec) (Zp : list vec) : pool_find z Zp = None ↔ z ∉ Zp.
Proof.
  unfold pool_find. rewrite fmap_None, list_find_None, Forall_forall.
  split; [intros H Hin; by apply (H z)|]. intros Hnin x Hx ->. done.
Qed.

Lemma pool_find_elem (z : vec) (Zp : list vec) :
  z ∈ Zp → ∃ k, pool_find z Zp = Some k.
Proof.
  intros Hin. destruct (pool_find z Zp) as [k|] eqn:Hf; [eauto|].
  by apply pool_find_None in Hf.
Qed.

Lemma pool_find_prefix (z : vec) (Zp Zp' : list vec) (k : nat) :
  Zp `prefix_of` Zp' → pool_find z Zp = Some k → pool_find z Zp' = Some k.
Proof.
  intros [W ->] [Hk Hmin]%pool_find_Some. apply pool_find_Some. split.
  - by apply lookup_app_l_Some.
  - intros i x Hx Hi. apply (Hmin i); [|done].
    rewrite lookup_app_l in Hx; [done|]. apply lookup_lt_Some in Hk. lia.
Qed.

Lemma pool_add_prefix (z : vec) (Zp : list vec) : Zp `prefix_of` pool_add z Zp.
Proof. unfold pool_add. case_bool_decide; [done|]. by apply prefix_app_r. Qed.

Lemma pool_add_NoDup (z : vec) (Zp : list vec) : NoDup Zp → NoDup (pool_add z Zp).
Proof.
  intros Hnd. unfold pool_add. case_bool_decide as Hin; [done|].
  apply NoDup_app. split_and!; [done| |apply NoDup_singleton].
  intros x Hx ->%list_elem_of_singleton. done.
Qed.

Lemma pool_add_elem (z x : vec) (Zp : list vec) :
  x ∈ pool_add z Zp ↔ x ∈ Zp ∨ x = z.
Proof.
  unfold pool_add. case_bool_decide as Hin.
  - split; [by left|]. intros [?| ->]; done.
  - rewrite elem_of_app, list_elem_of_singleton. done.
Qed.

Lemma pool_add_find (z : vec) (Zp : list vec) :
  pool_find z (pool_add z Zp) = Some (pool_pos z Zp).
Proof.
  unfold pool_add, pool_pos. case_bool_decide as Hin.
  - destruct (pool_find_elem z Zp Hin) as [k Hk]. by rewrite Hk.
  - pose proof (proj2 (pool_find_None z Zp) Hin) as Hnone. rewrite Hnone. cbn.
    apply pool_find_Some. split.
    + rewrite lookup_app_r by lia. by rewrite Nat.sub_diag.
    + intros i x Hx Hi ->. rewrite lookup_app_l in Hx by done.
      apply Hin. by eapply list_elem_of_lookup_2.
Qed.

Lemma py_index_find (z : vec) (Zp : list vec) :
  z ∈ Zp → py_index z Zp = Ok (pool_pos z Zp).
Proof.
  intros Hin. destruct (pool_find_elem z Zp Hin) as [k Hk].
  unfold py_index, pool_pos. rewrite Hk. unfold pool_find in Hk.
  destruct (list_find _ Zp) as [[k' y]|]; [|done]. by injection Hk as ->.
Qed.

Lemma mat_put_wf {A : Type} (M : matrix A) (i j : nat) (x : A) :
  mat_wf M → mat_wf (mat_put M i j x).
Proof.
  intros [Hr Hc]. split; cbn [mat_put mdata nrows ncols].
  - by rewrite length_alter.
  - apply Forall_alter; [done|]. intros row Hrow. by rewrite length_insert.
Qed.

Lemma mat_at_put {A : Type} (M : matrix A) (i j a b : nat) (x : A) :
  mat_wf M → (i < nrows M)%nat → (j < ncols M)%nat →
  mat_at (mat_put M i j x) a b
  = if decide (a = i ∧ b = j) then Some x else mat_at M a b.
Proof.
  intros [Hr Hc] Hi Hj. unfold mat_at, mat_put. cbn [mdata].
  destruct (decide (a = i)) as [->|Hai].
  - rewrite list_lookup_alter_eq.
    destruct (mdata M !! i) as [row|] eqn:Hrow; cbn.
    + assert (length row = ncols M) as Hlen.
      { eapply Forall_lookup_1 in Hc; done. }
      destruct (decide (b = j)) as [->|Hbj].
      * rewrite decide_True by done. apply list_lookup_insert_eq. lia.
      * rewrite decide_False by tauto. by apply list_lookup_insert_ne.
    + apply lookup_ge_None in Hrow. lia.
  - rewrite list_lookup_alter_ne by done. by rewrite decide_False by tauto.
Qed.

Lemma mat_set_put {A : Type} (M : matrix A) (i j : nat) (x : A) :
  (i < nrows M)%nat → (j < ncols M)%nat → mat_set M i j x = Ok (mat_put M i j x).
Proof. intros Hi Hj. unfold mat_set. by rewrite decide_True. Qed.

Lemma mat_at_is_Some {A : Type} (M : matrix A) (i j : nat) :
  mat_wf M → (i < nrows M)%nat → (j < ncols M)%nat → is_Some (mat_at M i j).
Proof.
  intros [Hr Hc] Hi Hj. unfold mat_at.
  destruct (lookup_lt_is_Some_2 (mdata M) i) as [row Hrow]; [lia|].
  rewrite Hrow. cbn. apply lookup_lt_is_Some_2.
  eapply Forall_lookup_1 in Hc; [|done]. cbn in Hc. lia.
Qed.

Lemma zero_matrix_wf {A : Type} (zero : A) (r c : nat) : mat_wf (zero_matrix zero r c).
Proof.
  split; cbn; [by rewrite length_replicate|].
  apply Forall_replicate. by rewrite length_replicate.
Qed.

Lemma comb_comm (u v off : vec) : comb u v off = comb v u off.
Proof.
  unfold comb. f_equal. revert v. induction u as [|a u IH]; intros [|b v]; try done.
  cbn [zip_with]. rewrite IH. f_equal. lia.
Qed.

Lemma comb_vadd (u v off : vec) :
  length u = length v → length v = length off →
  (s ← vadd u v; vadd s off) = Ok (comb u v off).
Proof.
  intros Huv Hvo. unfold vadd. rewrite decide_True by done. cbn.
  rewrite decide_True; [done|]. rewrite length_zip_with. lia.
Qed.

(** ** The pairing loops *)

Lemma foldM_fmap {S X Y : Type} (f : S → Y → res S) (g : X → Y) (xs : list X) (s : S) :
  foldM f (g <$> xs) s = foldM (λ s x, f s (g x)) xs s.
Proof.
  revert s. induction xs as [|x xs IH]; intros s; [done|].
  cbn [fmap list_fmap foldM]. destruct (f s (g x)); cbn; [apply IH|done].
Qed.

(** Two nested loops run the body over the pairs in row order. *)
Lemma foldM_nested {S : Type} (f : nat → nat → S → res S)
    (rows : list nat) (cols : nat → list nat) (s : S) :
  foldM (λ s i, foldM (λ s j, f i j s) (cols i) s) rows s
  = foldM (λ s t, f t.1 t.2 s) (rows ≫= λ i, pair i <$> cols i) s.
Proof.
  revert s. induction rows as [|i rows IH]; intros s; [done|].
  rewrite bind_cons, foldM_app. cbn [foldM]. rewrite foldM_fmap. cbn [fst snd].
  destruct (foldM (λ s j, f i j s) (cols i) s); cbn; [apply IH|done].
Qed.

Section pairing_loop.
Context (step : nat * nat → list vec * matrix Z → res (list vec * matrix Z)).
Context (cz : nat * nat → vec) (cells : nat * nat → list (nat * nat)).
Context (ok : nat * nat → Prop) (r c : nat).

Hypothesis cells_vec : ∀ t cl, ok t → cl ∈ cells t → cz cl = cz t.
Hypothesis step_spec : ∀ t Zp Mp,
  ok t → mat_wf Mp → nrows Mp = r → ncols Mp = c →
  ∃ Mp', step t (Zp, Mp) = Ok (pool_add (cz t) Zp, Mp')
    ∧ mat_wf Mp' ∧ nrows Mp' = r ∧ ncols Mp' = c
    ∧ ∀ a b, mat_at Mp' a b =
        if bool_decide ((a, b) ∈ cells t)
        then Some (Z.of_nat (pool_pos (cz t) Zp)) else mat_at Mp a b.

Lemma run_tasks (ts : list (nat * nat)) :
  Forall ok ts → ∀ Zp Mp,
  mat_wf Mp → nrows Mp = r → ncols Mp = c →
  ∃ Zp' Mp', foldM (λ st t, step t st) ts (Zp, Mp) = Ok (Zp', Mp')
    ∧ Zp `prefix_of` Zp'
    ∧ (NoDup Zp → NoDup Zp')
    ∧ (∀ x, x ∈ Zp' → x ∈ Zp ∨ ∃ t, t ∈ ts ∧ x = cz t)
    ∧ mat_wf Mp' ∧ nrows Mp' = r ∧ ncols Mp' = c
    ∧ (∀ a b, (∃ t, t ∈ ts ∧ (a, b) ∈ cells t) →
         ∃ k, mat_at Mp' a b = Some (Z.of_nat k) ∧ pool_find (cz (a, b)) Zp' = Some k)
    ∧ (∀ a b, (∀ t, t ∈ ts → (a, b) ∉ cells t) → mat_at Mp' a b = mat_at Mp a b).
Proof.
  induction 1 as [|t ts Ht Hts IH]; intros Zp Mp Hwf Hr Hc.
  - exists Zp, Mp. split_and!; try done.
    + auto.
    + intros a b (t & Ht & _). by apply elem_of_nil in Ht.
  - destruct (step_spec t Zp Mp Ht Hwf Hr Hc) as (M1 & Hstep & Hwf1 & Hr1 & Hc1 & Hat1).
    destruct (IH (pool_add (cz t) Zp) M1 Hwf1 Hr1 Hc1)
      as (Zp' & Mp' & Hrun & Hpre & Hnd & Hel & Hwf' & Hr' & Hc' & Hhit & Hmiss).
    exists Zp', Mp'. cbn [foldM]. rewrite Hstep. cbn. split_and!; try done.
    + etrans; [apply pool_add_prefix|done].
    + intros Hnd0. by apply Hnd, pool_add_NoDup.
    + intros x Hx. destruct (Hel x Hx) as [Hx1|(t' & Ht' & ->)].
      * apply pool_add_elem in Hx1 as [?| ->]; [by left|].
        right. exists t. split; [by left|done].
      * right. exists t'. split; [by right|done].
    + intros a b (t' & Ht' & Hcell).
      destruct (decide (Exists (λ t'', (a, b) ∈ cells t'') ts)) as [Hex|Hnex].
      * apply Hhit. apply Exists_exists in Hex. done.
      * assert (∀ t'', t'' ∈ ts → (a, b) ∉ cells t'') as Hm.
        { intros t'' Hin Hcl. apply Hnex, Exists_exists. eauto. }
        apply elem_of_cons in Ht' as [->|Ht']; [|by destruct (Hm t' Ht')].
        rewrite (Hmiss a b Hm), Hat1, bool_decide_true by done.
        eexists. split; [done|].
        rewrite (cells_vec t (a, b) Ht Hcell).
        eapply pool_find_prefix; [done|]. apply pool_add_find.
    + intros a b Hm. rewrite Hmiss by (intros ??; apply Hm; by right).
      rewrite Hat1, bool_decide_false; [done|]. apply Hm. by left.
Qed.
End pairing_loop.

Local Ltac solve_dims := first [done | lia | cbn; lia].

(** One turn of the symmetric loop. *)
Lemma sym_pair_spec (l : list vec) (off : vec) (d : nat) (i j : nat)
    (Zp : list vec) (Mp : matrix Z) :
  Forall (λ v, length v = d) l → length off = d →
  (i < length l)%nat → (j < length l)%nat →
  mat_wf Mp → nrows Mp = length l → ncols Mp = length l →
  let z := comb (l !!! i) (l !!! j) off in
  ∃ Mp', sym_pair l off i j (Zp, Mp) = Ok (pool_add z Zp, Mp')
    ∧ mat_wf Mp' ∧ nrows Mp' = length l ∧ ncols Mp' = length l
    ∧ ∀ a b, mat_at Mp' a b =
        if bool_decide ((a, b) ∈ [(i, j); (j, i)])
        then Some (Z.of_nat (pool_pos z Zp)) else mat_at Mp a b.
Proof.
  intros Hl Hoff Hi Hj Hwf Hr Hc z.
  destruct (lookup_lt_is_Some_2 l i Hi) as [vi Hvi].
  destruct (lookup_lt_is_Some_2 l j Hj) as [vj Hvj].
  assert (l !!! i = vi) as Hti by (by apply list_lookup_total_correct).
  assert (l !!! j = vj) as Htj by (by apply list_lookup_total_correct).
  pose proof (Forall_lookup_1 _ _ _ _ Hl Hvi) as Hli.
  pose proof (Forall_lookup_1 _ _ _ _ Hl Hvj) as Hlj. cbn in Hli, Hlj.
  set (k := Z.of_nat (pool_pos z Zp)).
  exists (mat_put (mat_put Mp i j k) j i k).
  assert (mat_wf (mat_put Mp i j k)) as Hwf1 by (by apply mat_put_wf).
  assert (mat_get (mat_put Mp i j k) i j = Ok k) as Hget.
  { unfold mat_get. rewrite mat_at_put by solve_dims. by rewrite decide_True. }
  split_and!.
  - unfold sym_pair. rewrite (list_get_ok l i vi Hvi), (list_get_ok l j vj Hvj). cbn.
    pose proof (comb_vadd vi vj off ltac:(lia) ltac:(lia)) as Hz.
    destruct (vadd vi vj) as [s|] eqn:Hs; [|done]. cbn in Hz |- *. rewrite Hz. cbn.
    rewrite <- Hti, <- Htj. fold z. unfold pool_add.
    case_bool_decide as Hin.
    + rewrite (py_index_find z Zp Hin). cbn. fold k.
      rewrite (mat_set_put Mp i j k) by lia. cbn. rewrite Hget. cbn.
      rewrite mat_set_put by (cbn; lia). done.
    + cbn. rewrite length_app. cbn [length].
      replace (Z.of_nat (length Zp + 1) - 1) with k.
      2:{ unfold k, pool_pos. rewrite (proj2 (pool_find_None z Zp) Hin). cbn. lia. }
      rewrite (mat_set_put Mp i j k) by lia. cbn. rewrite Hget. cbn.
      rewrite mat_set_put by (cbn; lia). done.
  - by apply mat_put_wf.
  - done.
  - done.
  - intros a b. rewrite mat_at_put by solve_dims.
    rewrite mat_at_put by solve_dims.
    case_bool_decide as Hcell.
    + apply elem_of_cons in Hcell as [[= -> ->]|Hcell].
      * by destruct (decide (i = j ∧ j = i)); [|rewrite decide_True].
      * apply list_elem_of_singleton in Hcell as [= -> ->]. by rewrite decide_True.
    + rewrite !decide_False; [done|..]; intros [-> ->]; apply Hcell.
      * by left.
      * right. by left.
Qed.

(** One turn of the cross-pairing loop. *)
Lemma rect_pair_spec (l l2 : list vec) (off : vec) (d : nat) (i j : nat)
    (Zp : list vec) (Mp : matrix Z) :
  Forall (λ v, length v = d) l → Forall (λ v, length v = d) l2 → length off = d →
  (i < length l)%nat → (j < length l2)%nat →
  mat_wf Mp → nrows Mp = length l → ncols Mp = length l2 →
  let z := comb (l !!! i) (l2 !!! j) off in
  ∃ Mp', rect_pair l l2 off i j (Zp, Mp) = Ok (pool_add z Zp, Mp')
    ∧ mat_wf Mp' ∧ nrows Mp' = length l ∧ ncols Mp' = length l2
    ∧ ∀ a b, mat_at Mp' a b =
        if bool_decide ((a, b) ∈ [(i, j)])
        then Some (Z.of_nat (pool_pos z Zp)) else mat_at Mp a b.
Proof.
  intros Hl Hl2 Hoff Hi Hj Hwf Hr Hc z.
  destruct (lookup_lt_is_Some_2 l i Hi) as [vi Hvi].
  destruct (lookup_lt_is_Some_2 l2 j Hj) as [vj Hvj].
  assert (l !!! i = vi) as Hti by (by apply list_lookup_total_correct).
  assert (l2 !!! j = vj) as Htj by (by apply list_lookup_total_correct).
  pose proof (Forall_lookup_1 _ _ _ _ Hl Hvi) as Hli.
  pose proof (Forall_lookup_1 _ _ _ _ Hl2 Hvj) as Hlj. cbn in Hli, Hlj.
  set (k := Z.of_nat (pool_pos z Zp)).
  exists (mat_put Mp i j k). split_and!.
  - unfold rect_pair. rewrite (list_get_ok l i vi Hvi), (list_get_ok l2 j vj Hvj). cbn.
    pose proof (comb_vadd vi vj off ltac:(lia) ltac:(lia)) as Hz.
    destruct (vadd vi vj) as [s|] eqn:Hs; [|done]. cbn in Hz |- *. rewrite Hz. cbn.
    rewrite <- Hti, <- Htj. fold z. unfold pool_add.
    case_bool_decide as Hin.
    + rewrite (py_index_find z Zp Hin). cbn. fold k.
      rewrite (mat_set_put Mp i j k) by lia. done.
    + cbn. rewrite length_app. cbn [length].
      replace (Z.of_nat (length Zp + 1) - 1) with k.
      2:{ unfold k, pool_pos. rewrite (proj2 (pool_find_None z Zp) Hin). cbn. lia. }
      rewrite (mat_set_put Mp i j k) by lia. done.
  - by apply mat_put_wf.
  - done.
  - done.
  - intros a b. rewrite mat_at_put by solve_dims.
    case_bool_decide as Hcell.
    + apply list_elem_of_singleton in Hcell as [= -> ->]. by rewrite decide_True.
    + rewrite decide_False; [done|]. intros [-> ->]. apply Hcell. by left.
Qed.

Lemma elem_of_pairs (rows : list nat) (cols : nat → list nat) (a b : nat) :
  (a, b) ∈ rows ≫= (λ i, pair i <$> cols i) ↔ a ∈ rows ∧ b ∈ cols a.
Proof.
  rewrite list_elem_of_bind. split.
  - intros (i & Hin & Hi). apply list_elem_of_fmap in Hin as (j & [= -> ->] & Hj). done.
  - intros [Ha Hb]. exists a. split; [|done]. apply list_elem_of_fmap. eauto.
Qed.

(** The symmetric loop over a grade: every entry of the table is the
    first position, in the pool, of the combined vector of its pair. *)
Lemma sym_loop_spec (l : list vec) (off : vec) (d : nat) (Zp : list vec) (Mp : matrix Z) :
  Forall (λ v, length v = d) l → length off = d →
  mat_wf Mp → nrows Mp = length l → ncols Mp = length l →
  ∃ Zp' Mp', sym_loop l off (Zp, Mp) = Ok (Zp', Mp')
    ∧ Zp `prefix_of` Zp'
    ∧ (NoDup Zp → NoDup Zp')
    ∧ (∀ x, x ∈ Zp' → x ∈ Zp ∨
         ∃ i j vi vj, l !! i = Some vi ∧ l !! j = Some vj ∧ x = comb vi vj off)
    ∧ mat_wf Mp' ∧ nrows Mp' = length l ∧ ncols Mp' = length l
    ∧ ∀ i j vi vj, l !! i = Some vi → l !! j = Some vj →
        ∃ k, mat_at Mp' i j = Some (Z.of_nat k)
             ∧ pool_find (comb vi vj off) Zp' = Some k.
Proof.
  intros Hl Hoff Hwf Hr Hc. unfold sym_loop.
  rewrite (foldM_nested (λ i j st, sym_pair l off i j st)).
  set (tasks := seq 0 (length l) ≫= λ i, pair i <$> seq i (length l - i)).
  destruct (run_tasks (λ t st, sym_pair l off t.1 t.2 st)
              (λ t, comb (l !!! t.1) (l !!! t.2) off)
              (λ t, [(t.1, t.2); (t.2, t.1)])
              (λ t, (t.1 < length l)%nat ∧ (t.2 < length l)%nat)
              (length l) (length l)) with (ts := tasks) (Zp := Zp) (Mp := Mp)
    as (Zp' & Mp' & Hrun & Hpre & Hnd & Hel & Hwf' & Hr' & Hc' & Hhit & _);
    try done.
  - intros [i j] cl _ Hcl. cbn [fst snd] in *.
    apply elem_of_cons in Hcl as [->|Hcl]; [done|].
    apply list_elem_of_singleton in Hcl as ->. cbn [fst snd]. apply comb_comm.
  - intros [i j] Zp0 Mp0 [Hi Hj] Hwf0 Hr0 Hc0. cbn [fst snd] in *.
    by apply (sym_pair_spec l off d).
  - apply Forall_forall. intros [i j] [Hi Hj]%elem_of_pairs.
    apply elem_of_seq in Hi, Hj. cbn [fst snd]. lia.
  - exists Zp', Mp'. split_and!; try done.
    + intros x Hx. destruct (Hel x Hx) as [?|([i j] & [Hi Hj]%elem_of_pairs & ->)];
        [by left|right].
      apply elem_of_seq in Hi, Hj. cbn [fst snd].
      destruct (lookup_lt_is_Some_2 l i) as [vi Hvi]; [lia|].
      destruct (lookup_lt_is_Some_2 l j) as [vj Hvj]; [lia|].
      exists i, j, vi, vj. split_and!; [done..|].
      by rewrite (list_lookup_total_correct _ _ _ Hvi),
                 (list_lookup_total_correct _ _ _ Hvj).
    + intros i j vi vj Hvi Hvj.
      pose proof (lookup_lt_Some _ _ _ Hvi) as Hi.
      pose proof (lookup_lt_Some _ _ _ Hvj) as Hj.
      destruct (Hhit i j) as (k & Hk & Hfind).
      { exists (i `min` j, i `max` j)%nat. cbn [fst snd]. split.
        - apply elem_of_pairs. split; apply elem_of_seq; lia.
        - destruct (decide (i ≤ j)%nat).
          + rewrite Nat.min_l, Nat.max_r by lia. by left.
          + rewrite Nat.min_r, Nat.max_l by lia. right. by left. }
      exists k. split; [done|]. cbn [fst snd] in Hfind.
      by rewrite (list_lookup_total_correct _ _ _ Hvi),
                 (list_lookup_total_correct _ _ _ Hvj) in Hfind.
Qed.

(** The cross-pairing loop over a grade and the grade below. *)
Lemma rect_loop_spec (l l2 : list vec) (off : vec) (d : nat)
    (Zp : list vec) (Mp : matrix Z) :
  Forall (λ v, length v = d) l → Forall (λ v, length v = d) l2 → length off = d →
  mat_wf Mp → nrows Mp = length l → ncols Mp = length l2 →
  ∃ Zp' Mp', rect_loop l l2 off (Zp, Mp) = Ok (Zp', Mp')
    ∧ Zp `prefix_of` Zp'
    ∧ (NoDup Zp → NoDup Zp')
    ∧ (∀ x, x ∈ Zp' → x ∈ Zp ∨
         ∃ i j vi wj, l !! i = Some vi ∧ l2 !! j = Some wj ∧ x = comb vi wj off)
    ∧ mat_wf Mp' ∧ nrows Mp' = length l ∧ ncols Mp' = length l2
    ∧ ∀ i j vi wj, l !! i = Some vi → l2 !! j = Some wj →
        ∃ k, mat_at Mp' i j = Some (Z.of_nat k)
             ∧ pool_find (comb vi wj off) Zp' = Some k.
Proof.
  intros Hl Hl2 Hoff Hwf Hr Hc. unfold rect_loop.
  rewrite (foldM_nested (λ i j st, rect_pair l l2 off i j st) _ (λ _, seq 0 (length l2))).
  set (tasks := seq 0 (length l) ≫= λ i, pair i <$> seq 0 (length l2)).
  destruct (run_tasks (λ t st, rect_pair l l2 off t.1 t.2 st)
              (λ t, comb (l !!! t.1) (l2 !!! t.2) off)
              (λ t, [(t.1, t.2)])
              (λ t, (t.1 < length l)%nat ∧ (t.2 < length l2)%nat)
              (length l) (length l2)) with (ts := tasks) (Zp := Zp) (Mp := Mp)
    as (Zp' & Mp' & Hrun & Hpre & Hnd & Hel & Hwf' & Hr' & Hc' & Hhit & _);
    try done.
  - intros [i j] cl _ Hcl. cbn [fst snd] in *.
    by apply list_elem_of_singleton in Hcl as ->.
  - intros [i j] Zp0 Mp0 [Hi Hj] Hwf0 Hr0 Hc0. cbn [fst snd] in *.
    by apply (rect_pair_spec l l2 off d).
  - apply Forall_forall. intros [i j] [Hi Hj]%elem_of_pairs.
    apply elem_of_seq in Hi, Hj. cbn [fst snd]. lia.
  - exists Zp', Mp'. split_and!; try done.
    + intros x Hx. destruct (Hel x Hx) as [?|([i j] & [Hi Hj]%elem_of_pairs & ->)];
        [by left|right].
      apply elem_of_seq in Hi, Hj. cbn [fst snd].
      destruct (lookup_lt_is_Some_2 l i) as [vi Hvi]; [lia|].
      destruct (lookup_lt_is_Some_2 l2 j) as [vj Hvj]; [lia|].
      exists i, j, vi, vj. split_and!; [done..|].
      by rewrite (list_lookup_total_correct _ _ _ Hvi),
                 (list_lookup_total_correct _ _ _ Hvj).
    + intros i j vi vj Hvi Hvj.
      pose proof (lookup_lt_Some _ _ _ Hvi) as Hi.
      pose proof (lookup_lt_Some _ _ _ Hvj) as Hj.
      destruct (Hhit i j) as (k & Hk & Hfind).
      { exists (i, j). cbn [fst snd]. split; [|by left].
        apply elem_of_pairs. split; apply elem_of_seq; lia. }
      exists k. split; [done|]. cbn [fst snd] in Hfind.
      by rewrite (list_lookup_total_correct _ _ _ Hvi),
                 (list_lookup_total_correct _ _ _ Hvj) in Hfind.
Qed.

(** ** The geometric builder *)

Local Ltac res_simpl := cbn [mbind res_bind mret res_ret]; cbn beta iota.

Lemma index_table_prefix (l l2 : list vec) (off : vec) (Zp Zp' : list vec) (Mp : matrix Z) :
  Zp `prefix_of` Zp' → index_table l l2 off Zp Mp → index_table l l2 off Zp' Mp.
Proof.
  intros Hpre (Hwf & Hr & Hc & Hat). split_and!; [done..|].
  intros i j vi wj Hvi Hwj. destruct (Hat i j vi wj Hvi Hwj) as (k & Hk & Hf).
  exists k. split; [done|]. by eapply pool_find_prefix.
Qed.

Lemma length_e1 (n : Z) : 1 ≤ n → Z.of_nat (length (e1 n)) = n.
Proof. intros Hn. unfold e1, py_rep. cbn [length]. rewrite length_replicate. lia. Qed.

Lemma length_vscale (c : Z) (v : vec) : length (vscale c v) = length v.
Proof. unfold vscale. by rewrite length_fmap. Qed.

Lemma Vgeom_loop (m n : Z) (L : list (list vec)) (d : nat) :
  Z.of_nat d = n → 1 ≤ n → Forall (Forall (λ v, length v = d)) L →
  ∀ (cnt a : nat) (Zp : list vec) (M : list (matrix Z)),
  (a + cnt ≤ length M)%nat →
  (∀ p, (p < a)%nat → geom_done m n L Zp M p) →
  (∀ p, (a ≤ p < length M)%nat → geom_fresh L M p) →
  NoDup Zp →
  ∃ Zp' M',
    foldM (λ '(Zp, M) p,
             l ← py_get L p;
             Mp ← py_get M p;
             '(Zp', Mp') ← sym_loop l (vscale (n * m - 2 * p) (e1 n)) (Zp, Mp);
             Ok (Zp', <[Z.to_nat p := Mp']> M))
          (seqZ (Z.of_nat a) (Z.of_nat cnt)) (Zp, M) = Ok (Zp', M')
    ∧ Zp `prefix_of` Zp' ∧ NoDup Zp' ∧ length M' = length M
    ∧ (∀ p, (p < a + cnt)%nat → geom_done m n L Zp' M' p).
Proof.
  intros Hd Hn HL cnt. induction cnt as [|cnt IH]; intros a Zp M Hlen Hdone Hfresh Hnd.
  - exists Zp, M. split_and!; [done..|]. intros p Hp. apply Hdone. lia.
  - rewrite seqZ_cons by lia.
    replace (Z.succ (Z.of_nat a)) with (Z.of_nat (S a)) by lia.
    replace (Z.pred (Z.of_nat (S cnt))) with (Z.of_nat cnt) by lia.
    destruct (Hfresh a) as (l & Hl & HM); [lia|].
    assert (Forall (λ v, length v = d) l) as Hld.
    { eapply Forall_lookup_1 in HL; done. }
    destruct (sym_loop_spec l (vscale (n * m - 2 * Z.of_nat a) (e1 n)) d Zp
                (zero_matrix 0 (length l) (length l)))
      as (Zp1 & Mp1 & Hrun & Hpre & Hnd1 & _ & Hwf1 & Hr1 & Hc1 & Htab);
      [done| |apply zero_matrix_wf|done|done|].
    { rewrite length_vscale. pose proof (length_e1 n Hn). lia. }
    destruct (IH (S a) Zp1 (<[a := Mp1]> M)) as (Zp' & M' & Hfold & Hpre' & Hnd' & Hlen' & Hdone').
    + rewrite length_insert. lia.
    + intros p Hp. destruct (decide (p = a)) as [->|Hne].
      * exists l, Mp1. split_and!; [done| |done].
        apply list_lookup_insert_eq. lia.
      * destruct (Hdone p) as (lp & Mp & HLp & HMp & Htp); [lia|].
        exists lp, Mp. split_and!; [done| |by eapply index_table_prefix].
        by rewrite list_lookup_insert_ne.
    + intros p Hp. rewrite length_insert in Hp.
      destruct (Hfresh p) as (lp & HLp & HMp); [lia|].
      exists lp. split; [done|]. rewrite list_lookup_insert_ne by lia. done.
    + by apply Hnd1.
    + exists Zp', M'. cbn [foldM]. cbn beta iota.
      rewrite (py_get_nat L a l Hl), (py_get_nat M a _ HM). res_simpl.
      rewrite Hrun. res_simpl. rewrite Nat2Z.id. rewrite Hfold.
      split_and!; [done|by etrans|done| |].
      * by rewrite Hlen', length_insert.
      * intros p Hp. apply Hdone'. lia.
Qed.

Lemma B_vectors_length (m n : Z) :
  0 ≤ m → 0 ≤ n → Forall (Forall (λ v, length v = Z.to_nat n)) (B m n).
Proof.
  intros Hm Hn. rewrite B_buckets by done.
  apply Forall_forall. intros g [_ Hg]%list_elem_of_filter.
  apply list_elem_of_fmap in Hg as (p & -> & _).
  apply Forall_forall. intros v [_ Hv]%list_elem_of_filter.
  apply elem_of_all_vectors in Hv as (Hl & _); [lia|done..].
Qed.

Lemma Vgeom_spec (m n : Z) :
  0 ≤ m → 1 ≤ n →
  ∃ Zp M, Vgeom m n = Ok (Tuple (Zp, M))
    ∧ NoDup Zp
    ∧ length M = Z.to_nat ((n * m) `div` 2 + 1)
    ∧ ∀ p, (p < length M)%nat → geom_done m n (B m n) Zp M p.
Proof.
  intros Hm Hn. unfold Vgeom.
  rewrite (proj2 (Z.ltb_ge _ _) Hm), (proj2 (Z.ltb_ge n 0)) by lia. cbn [orb].
  assert (0 ≤ (n * m) `div` 2) as Hk by (apply Z.div_pos; nia).
  assert ((n * m) `div` 2 ≤ n * m) as Hk' by (apply Z.div_le_upper_bound; nia).
  set (K := Z.to_nat ((n * m) `div` 2 + 1)).
  set (M0 := (λ x : list vec, zero_matrix 0 (length x) (length x)) <$> take K (B m n)).
  assert (length M0 = K) as HlenM.
  { unfold M0. rewrite length_fmap, length_take, B_length by lia. unfold K. nia. }
  destruct (Vgeom_loop m n (B m n) (Z.to_nat n) ltac:(lia) Hn
              (B_vectors_length m n ltac:(lia) ltac:(lia)) K 0 [] M0)
    as (Zp' & M' & Hfold & _ & Hnd & Hlen & Hdone).
  - lia.
  - intros p Hp. lia.
  - intros p Hp. rewrite HlenM in Hp.
    destruct (lookup_lt_is_Some_2 (B m n) p) as [l Hl].
    { rewrite B_length by lia. unfold K in Hp. nia. }
    exists l. split; [done|]. unfold M0.
    rewrite list_lookup_fmap, lookup_take_lt by lia. by rewrite Hl.
  - apply NoDup_nil_2.
  - exists Zp', M'. unfold erange.
    replace ((n * m) `div` 2 - 0 + 1) with (Z.of_nat K) by (unfold K; lia).
    change 0 with (Z.of_nat 0) at 1. rewrite Hfold. cbn.
    split_and!; [done|done|lia|]. intros p Hp. apply Hdone. lia.
Qed.

(** ** The arithmetic builder *)

Section Varith_loop.
Context (m n : Z) (L : list (list vec)) (d top : nat).
Context (PA PB : vec → Prop).
Hypothesis Hd : Z.of_nat d = n.
Hypothesis Hn : 1 ≤ n.
Hypothesis HL : Forall (Forall (λ v, length v = d)) L.
Hypothesis HPA : ∀ (p : nat) l vi vj,
  (1 ≤ p ≤ top)%nat → L !! p = Some l → vi ∈ l → vj ∈ l →
  PA (comb vi vj (vscale (n * m + 1 - 2 * Z.of_nat p) (e1 n))).
Hypothesis HPB : ∀ (p : nat) l l2 vi wj,
  (1 ≤ p ≤ top)%nat → L !! p = Some l → L !! (p - 1)%nat = Some l2 → vi ∈ l → wj ∈ l2 →
  PB (comb vi wj (vscale (n * m + 1 - 2 * Z.of_nat p) (e1 n))).

Lemma Varith_loop (cnt : nat) :
  ∀ (a : nat) (ZA ZB : list vec) (M : list (matrix Z * matrix Z)),
  (1 ≤ a)%nat → (a + cnt ≤ length M)%nat → (a + cnt ≤ S top)%nat →
  (∀ p, (1 ≤ p < a)%nat → arith_done m n L ZA ZB M p) →
  (∀ p, (a ≤ p < length M)%nat → arith_fresh L M p) →
  NoDup ZA → NoDup ZB → Forall PA ZA → Forall PB ZB →
  ∃ ZA' ZB' M',
    foldM (λ '(ZA, ZB, M) p,
             l ← py_get L p;
             Mp ← py_get M p;
             '(ZA', MA) ← sym_loop l (vscale (n * m + 1 - 2 * p) (e1 n)) (ZA, Mp.1);
             l2 ← py_get L (p - 1);
             '(ZB', MB) ← rect_loop l l2 (vscale (n * m + 1 - 2 * p) (e1 n)) (ZB, Mp.2);
             Ok (ZA', ZB', <[Z.to_nat p := (MA, MB)]> M))
          (seqZ (Z.of_nat a) (Z.of_nat cnt)) (ZA, ZB, M) = Ok (ZA', ZB', M')
    ∧ ZA `prefix_of` ZA' ∧ ZB `prefix_of` ZB'
    ∧ NoDup ZA' ∧ NoDup ZB' ∧ Forall PA ZA' ∧ Forall PB ZB'
    ∧ length M' = length M
    ∧ M' !! 0%nat = M !! 0%nat
    ∧ (∀ p, (1 ≤ p < a + cnt)%nat → arith_done m n L ZA' ZB' M' p).
Proof.
  induction cnt as [|cnt IH];
    intros a ZA ZB M Ha Hlen Htop Hdone Hfresh HndA HndB HfA HfB.
  - exists ZA, ZB, M. split_and!; [done..|]. intros p Hp. apply Hdone. lia.
  - rewrite seqZ_cons by lia.
    replace (Z.succ (Z.of_nat a)) with (Z.of_nat (S a)) by lia.
    replace (Z.pred (Z.of_nat (S cnt))) with (Z.of_nat cnt) by lia.
    destruct (Hfresh a) as (l & l2 & Hl & Hl2 & HM); [lia|].
    assert (Forall (λ v, length v = d) l) as Hld
      by (eapply Forall_lookup_1 in HL; done).
    assert (Forall (λ v, length v = d) l2) as Hld2
      by (eapply (Forall_lookup_1 _ _ (a - 1)%nat) in HL; done).
    set (off := vscale (n * m + 1 - 2 * Z.of_nat a) (e1 n)).
    assert (length off = d) as Hoff.
    { unfold off. rewrite length_vscale. pose proof (length_e1 n Hn). lia. }
    destruct (sym_loop_spec l off d ZA (zero_matrix 0 (length l) (length l)))
      as (ZA1 & MA1 & HrunA & HpreA & HndA1 & HelA & HwfA & HrA & HcA & HtabA);
      [done|done|apply zero_matrix_wf|done|done|].
    destruct (rect_loop_spec l l2 off d ZB (zero_matrix 0 (length l) (length l2)))
      as (ZB1 & MB1 & HrunB & HpreB & HndB1 & HelB & HwfB & HrB & HcB & HtabB);
      [done|done|done|apply zero_matrix_wf|done|done|].
    destruct (IH (S a) ZA1 ZB1 (<[a := (MA1, MB1)]> M))
      as (ZA' & ZB' & M' & Hfold & HpreA' & HpreB' & HndA' & HndB' & HfA' & HfB'
          & Hlen' & H0 & Hdone').
    + lia.
    + rewrite length_insert. lia.
    + lia.
    + intros p Hp. destruct (decide (p = a)) as [->|Hne].
      * exists l, l2, MA1, MB1. split_and!; [done|done| |done|done].
        apply list_lookup_insert_eq. lia.
      * destruct (Hdone p) as (lp & lq & MA & MB & HLp & HLq & HMp & HtA & HtB); [lia|].
        exists lp, lq, MA, MB. split_and!; [done|done| |..].
        -- by rewrite list_lookup_insert_ne.
        -- by eapply index_table_prefix.
        -- by eapply index_table_prefix.
    + intros p Hp. rewrite length_insert in Hp.
      destruct (Hfresh p) as (lp & lq & HLp & HLq & HMp); [lia|].
      exists lp, lq. split_and!; [done..|]. rewrite list_lookup_insert_ne by lia. done.
    + by apply HndA1.
    + by apply HndB1.
    + apply Forall_forall. intros x Hx.
      destruct (HelA x Hx) as [Hin|(i & j & vi & vj & Hvi & Hvj & ->)].
      * eapply Forall_forall in HfA; done.
      * apply (HPA a l); [lia|done|by eapply list_elem_of_lookup_2..].
    + apply Forall_forall. intros x Hx.
      destruct (HelB x Hx) as [Hin|(i & j & vi & vj & Hvi & Hvj & ->)].
      * eapply Forall_forall in HfB; done.
      * apply (HPB a l l2); [lia|done|done|by eapply list_elem_of_lookup_2..].
    + exists ZA', ZB', M'. cbn [foldM]. cbn beta iota.
      rewrite (py_get_nat L a l Hl), (py_get_nat M a _ HM). res_simpl.
      cbn [fst snd]. fold off. rewrite HrunA. res_simpl.
      replace (Z.of_nat a - 1) with (Z.of_nat (a - 1)) by lia.
      rewrite (py_get_nat L (a - 1) l2 Hl2). res_simpl.
      rewrite HrunB. res_simpl. rewrite Nat2Z.id. rewrite Hfold.
      split_and!; [done|by etrans|by etrans|done..| | |].
      * by rewrite Hlen', length_insert.
      * rewrite H0. by rewrite list_lookup_insert_ne by lia.
      * intros p Hp. apply Hdone'. lia.
Qed.
End Varith_loop.

Lemma weight_from_zip (u v : vec) (c : Z) :
  length u = length v →
  weight_from c (zip_with Z.add u v) = weight_from c u + weight_from c v.
Proof.
  revert v c. induction u as [|a u IH]; intros [|b v] c Hlen; try done.
  cbn [zip_with weight_from]. rewrite IH by (by injection Hlen). lia.
Qed.

Lemma nonneg_zip (u v : vec) : nonneg u → nonneg v → nonneg (zip_with Z.add u v).
Proof.
  intros Hu. revert v. induction Hu as [|a u Ha Hu IH]; intros v Hv; [constructor|].
  destruct Hv as [|b v Hb Hv]; [constructor|]. cbn [zip_with].
  constructor; [lia|by apply IH].
Qed.

Lemma vscale_e1 (c n : Z) : vscale c (e1 n) = c :: replicate (Z.to_nat (n - 1)) 0.
Proof.
  unfold vscale, e1, py_rep. cbn [fmap list_fmap]. rewrite Z.mul_1_r. f_equal.
  rewrite fmap_replicate. by rewrite Z.mul_0_r.
Qed.

Lemma pool_vector_e1 (c n : Z) : 1 ≤ n → 0 ≤ c → pool_vector n c (vscale c (e1 n)).
Proof.
  intros Hn Hc. rewrite vscale_e1. split_and!.
  - cbn [length]. rewrite length_replicate. lia.
  - constructor; [done|apply nonneg_zeros].
  - rewrite weight_eq. cbn [weight_from]. rewrite weight_from_zeros. lia.
Qed.

Lemma pool_vector_comb (n a b c : Z) (u v off : vec) :
  pool_vector n a u → pool_vector n b v → pool_vector n c off →
  pool_vector n (a + b + c) (comb u v off).
Proof.
  intros (Hlu & Hnu & Hwu) (Hlv & Hnv & Hwv) (Hlo & Hno & Hwo). unfold comb.
  split_and!.
  - rewrite !length_zip_with. lia.
  - by repeat apply nonneg_zip.
  - rewrite weight_eq in *. rewrite !weight_from_zip; [lia|lia|].
    rewrite length_zip_with. lia.
Qed.

Lemma B_grade_vectors (m n : Z) (p : nat) (l : list vec) (v : vec) :
  0 ≤ m → 1 ≤ n → B m n !! p = Some l → v ∈ l → pool_vector n (Z.of_nat p) v.
Proof.
  intros Hm Hn Hl Hv. apply B_lookup_inv in Hl as [Hp ->]; [|done..].
  apply elem_of_bucket_weight in Hv as (? & ? & _ & ?); [done|lia..].
Qed.

Lemma Varith_spec (m n : Z) :
  0 ≤ m → 0 ≤ n →
  ∃ ZA ZB M, Varith m n = Ok (Tuple ((ZA, ZB), M))
    ∧ NoDup ZA ∧ NoDup ZB
    ∧ length M = Z.to_nat ((n * m + 1) `div` 2 + 1)
    ∧ M !! 0%nat = Some (zero_matrix 0 1 1, zero_matrix 0 0 0)
    ∧ ZA !! 0%nat = Some (vscale (n * m + 1) (e1 n))
    ∧ (1 ≤ n → Forall (pool_vector n (n * m + 1)) ZA
               ∧ Forall (pool_vector n (n * m)) ZB)
    ∧ ∀ p, (1 ≤ p < length M)%nat → arith_done m n (B m n) ZA ZB M p.
Proof.
  intros Hm Hn. unfold Varith.
  rewrite (proj2 (Z.ltb_ge _ _) Hm), (proj2 (Z.ltb_ge _ _) Hn). cbn [orb]. cbv zeta.
  destruct (decide (n * m = 0)) as [Hnm|Hnm].
  - rewrite Hnm. replace ((0 + 1) `div` 2) with 0 by done.
    unfold erange. rewrite seqZ_nil by lia. cbn [res_mapM foldM]. res_simpl.
    eexists _, _, _. split; [reflexivity|]. cbn [fst snd]. split_and!.
    + apply NoDup_singleton.
    + apply NoDup_nil_2.
    + done.
    + done.
    + done.
    + intros Hn1. split; [|constructor]. constructor; [|constructor].
      apply pool_vector_e1; lia.
    + intros p Hp. cbn [length] in Hp. lia.
  - assert (1 ≤ m ∧ 1 ≤ n) as [Hm1 Hn1] by nia.
    assert (1 ≤ (n * m + 1) `div` 2) as Htop1 by (apply Z.div_le_lower_bound; nia).
    assert ((n * m + 1) `div` 2 ≤ n * m) as Htop2 by (apply Z.div_le_upper_bound; nia).
    assert (2 * ((n * m + 1) `div` 2) ≤ n * m + 1) as Htop3
      by (apply Z.mul_div_le; lia).
    set (top := Z.to_nat ((n * m + 1) `div` 2)).
    pose proof (B_length m n ltac:(lia) Hn1) as HlenL.
    set (f := λ p : Z,
           lp ← py_get (B m n) p; lq ← py_get (B m n) (p - 1);
           Ok (zero_matrix 0 (length lp) (length lp),
               zero_matrix 0 (length lp) (length lq))).
    destruct (res_mapM_ok f (erange 1 ((n * m + 1) `div` 2))) as [Ms HMs].
    { intros p Hp%elem_of_seqZ. unfold f.
      destruct (py_get_Z (B m n) p) as (lp & -> & _); [lia|].
      destruct (py_get_Z (B m n) (p - 1)) as (lq & -> & _); [lia|].
      res_simpl. eauto. }
    fold f. rewrite HMs. res_simpl.
    apply res_mapM_Forall2 in HMs.
    pose proof (Forall2_length _ _ _ HMs) as HlenMs.
    unfold erange in HlenMs. rewrite length_seqZ in HlenMs.
    set (M0 := (zero_matrix 0 1 1, zero_matrix 0 0 0) :: Ms).
    destruct (Varith_loop m n (B m n) (Z.to_nat n) top
                (pool_vector n (n * m + 1)) (pool_vector n (n * m))
                ltac:(lia) Hn1 (B_vectors_length m n ltac:(lia) ltac:(lia)))
      with (cnt := top) (a := 1%nat) (M := M0)
           (ZA := [vscale (n * m + 1) (e1 n)]) (ZB := @nil vec)
      as (ZA' & ZB' & M' & Hfold & HpreA & _ & HndA & HndB & HfA & HfB
          & Hlen & H0 & Hdone).
    + intros p l vi vj Hp Hl Hvi Hvj.
      replace (n * m + 1) with
        (Z.of_nat p + Z.of_nat p + (n * m + 1 - 2 * Z.of_nat p)) at 1 by lia.
      apply pool_vector_comb;
        [by apply (B_grade_vectors m n p l); [lia|..]
        |by apply (B_grade_vectors m n p l); [lia|..]|].
      apply pool_vector_e1; [done|]. unfold top in Hp. lia.
    + intros p l l2 vi wj Hp Hl Hl2 Hvi Hwj.
      replace (n * m) with
        (Z.of_nat p + Z.of_nat (p - 1) + (n * m + 1 - 2 * Z.of_nat p)) at 1 by lia.
      apply pool_vector_comb;
        [by apply (B_grade_vectors m n p l); [lia|..]
        |by apply (B_grade_vectors m n (p - 1) l2); [lia|..]|].
      apply pool_vector_e1; [done|]. unfold top in Hp. lia.
    + lia.
    + unfold M0. cbn [length]. lia.
    + lia.
    + intros p Hp. lia.
    + intros p Hp. unfold M0 in Hp |- *. cbn [length] in Hp.
      destruct p as [|i]; [lia|].
      destruct (lookup_lt_is_Some_2 (B m n) (S i)) as [l Hl]; [lia|].
      destruct (lookup_lt_is_Some_2 (B m n) i) as [l2 Hl2]; [lia|].
      exists l, l2. replace (S i - 1)%nat with i by lia. split_and!; [done..|].
      destruct (lookup_lt_is_Some_2 Ms i) as [y Hy]; [lia|].
      cbn [lookup list_lookup]. change (Ms !! i = Some
        (zero_matrix 0 (length l) (length l), zero_matrix 0 (length l) (length l2))).
      rewrite Hy. f_equal.
      eapply (Forall2_lookup_lr _ _ _ i (1 + Z.of_nat i)) in HMs;
        [|apply lookup_seqZ; lia|done].
      unfold f in HMs.
      replace (1 + Z.of_nat i) with (Z.of_nat (S i)) in HMs by lia.
      rewrite (py_get_nat _ _ _ Hl) in HMs. cbn [mbind res_bind] in HMs.
      replace (Z.of_nat (S i) - 1) with (Z.of_nat i) in HMs by lia.
      rewrite (py_get_nat _ _ _ Hl2) in HMs. cbn [mbind res_bind] in HMs. congruence.
    + apply NoDup_singleton.
    + apply NoDup_nil_2.
    + constructor; [apply pool_vector_e1; nia|constructor].
    + constructor.
    + exists ZA', ZB', M'. unfold erange.
      replace ((n * m + 1) `div` 2 - 1 + 1) with (Z.of_nat top) by (unfold top; lia).
      change (Z.of_nat 1) with 1 in Hfold. fold M0. rewrite Hfold. res_simpl.
      cbn [fst snd]. split_and!; [done..| | | | |].
      * rewrite Hlen. unfold M0. cbn [length]. lia.
      * rewrite H0. by unfold M0.
      * eapply prefix_lookup_Some; [|done]. done.
      * done.
      * intros p Hp. apply Hdone. rewrite Hlen in Hp. unfold M0 in Hp.
        cbn [length] in Hp. lia.
Qed.

(** ** Further facts about the tables *)

Lemma mat_at_range {A : Type} (M : matrix A) (i j : nat) (x : A) :
  mat_wf M → mat_at M i j = Some x → (i < nrows M)%nat ∧ (j < ncols M)%nat.
Proof.
  intros [Hr Hc]. unfold mat_at.
  destruct (mdata M !! i) as [row|] eqn:Hrow; [|done]. cbn. intros Hx.
  pose proof (lookup_lt_Some _ _ _ Hrow). pose proof (lookup_lt_Some _ _ _ Hx).
  eapply Forall_lookup_1 in Hc; [|done]. cbn in Hc. lia.
Qed.

Lemma index_table_first_seen (l l2 : list vec) (off : vec) (Zp : list vec) (Mp : matrix Z) :
  index_table l l2 off Zp Mp → first_seen_table l l2 off Zp Mp.
Proof.
  intros (Hwf & Hr & Hc & Hat). split_and!; [done..|].
  intros i j vi wj Hvi Hwj.
  destruct (Hat i j vi wj Hvi Hwj) as (k & Hk & [Hz Hmin]%pool_find_Some).
  exists k. split_and!; [done..|]. intros i' Hi' Hz'. by apply (Hmin i' _ Hz').
Qed.

Lemma sym_pair_prefix (l : list vec) (off : vec) (i j : nat)
    (Zp Zp' : list vec) (Mp Mp' : matrix Z) :
  sym_pair l off i j (Zp, Mp) = Ok (Zp', Mp') → Zp `prefix_of` Zp'.
Proof.
  unfold sym_pair, mbind, res_bind. repeat case_match; try done.
  - by intros [= <- _].
  - intros [= <- _]. by apply prefix_app_r.
Qed.

Lemma rect_pair_prefix (l l2 : list vec) (off : vec) (i j : nat)
    (Zp Zp' : list vec) (Mp Mp' : matrix Z) :
  rect_pair l l2 off i j (Zp, Mp) = Ok (Zp', Mp') → Zp `prefix_of` Zp'.
Proof.
  unfold rect_pair, mbind, res_bind. repeat case_match; try done.
  - by intros [= <- _].
  - intros [= <- _]. by apply prefix_app_r.
Qed.

(** Without variables, [n = 0], the offset vector still has one coordinate
    and the first pairing fails. *)
Lemma Vgeom_no_variables (m : Z) : 0 ≤ m → Vgeom m 0 = Raise TypeError.
Proof.
  intros Hm. unfold Vgeom.
  rewrite (proj2 (Z.ltb_ge _ _) Hm). cbn [Z.ltb Z.compare orb].
  rewrite Z.mul_0_l. change (0 `div` 2) with 0. unfold erange.
  rewrite seqZ_cons, seqZ_nil by lia. cbn [foldM].
  pose proof (B_buckets m 0 Hm ltac:(lia)) as HB.
  rewrite Z.mul_0_r in HB. change (Z.to_nat (0 + 1)) with 1%nat in HB.
  unfold buckets in HB. rewrite seqZ_cons, seqZ_nil in HB by lia.
  cbn [fmap list_fmap] in HB.
  assert (bucket weight (all_vectors m 0) 0 = [[]]) as Hb0.
  { assert (all_vectors m 0 = [[]]) as ->; [|done].
    unfold all_vectors, erange, IntegerVectors. cbn [Z.to_nat IntegerVectors_nk].
    rewrite seqZ_cons by lia. rewrite bind_cons. cbn [Z.to_nat].
    assert (∀ a c, 1 ≤ a → seqZ a c ≫=
              (λ j, match Z.to_nat j with O => [[]] | S _ => [] end) = @nil vec) as Hz.
    { intros a c Ha. unfold seqZ. generalize (seq 0 (Z.to_nat c)). intros s.
      induction s as [|x s IH]; [done|]. cbn [fmap list_fmap]. rewrite bind_cons, IH.
      destruct (Z.to_nat (Z.of_nat x + a)) eqn:E; [lia|done]. }
    rewrite Hz by lia. done. }
  rewrite Hb0 in HB. rewrite filter_cons_True in HB by done.
  rewrite filter_nil in HB. rewrite HB. by vm_compute.
Qed.

(** ** Substituting degrees and assembling blocks *)

Lemma mat_map_wf {A A' : Type} (f : A → A') (M : matrix A) :
  mat_wf M → mat_wf (mat_map f M).
Proof.
  intros [Hr Hc]. split; cbn [mat_map mdata nrows ncols].
  - by rewrite length_fmap.
  - apply Forall_fmap. eapply Forall_impl; [done|]. intros row Hrow. cbn.
    by rewrite length_fmap.
Qed.

Lemma mat_at_map {A A' : Type} (f : A → A') (M : matrix A) (i j : nat) :
  mat_at (mat_map f M) i j = f <$> mat_at M i j.
Proof.
  unfold mat_at, mat_map. cbn [mdata]. rewrite list_lookup_fmap.
  destruct (mdata M !! i) as [row|]; [|done]. cbn. by rewrite list_lookup_fmap.
Qed.

Section subst.
Context {A : Type} (f : A → res A).

Lemma subst_tasks (ts : list (nat * nat)) :
  NoDup ts → ∀ M : matrix A,
  mat_wf M →
  (∀ a b, (a, b) ∈ ts →
     (a < nrows M)%nat ∧ (b < ncols M)%nat
     ∧ ∃ x y, mat_at M a b = Some x ∧ f x = Ok y) →
  ∃ M', foldM (λ M t, x ← mat_get M t.1 t.2; y ← f x; mat_set M t.1 t.2 y) ts M = Ok M'
    ∧ mat_wf M' ∧ nrows M' = nrows M ∧ ncols M' = ncols M
    ∧ (∀ a b, (a, b) ∈ ts →
         ∃ x y, mat_at M a b = Some x ∧ f x = Ok y ∧ mat_at M' a b = Some y)
    ∧ (∀ a b, (a, b) ∉ ts → mat_at M' a b = mat_at M a b).
Proof.
  induction 1 as [|[i j] ts Hnin Hnd IH]; intros M Hwf Hts.
  - exists M. split_and!; try done. intros a b Hin. by apply elem_of_nil in Hin.
  - destruct (Hts i j) as (Hi & Hj & x & y & Hx & Hy); [by left|].
    destruct (IH (mat_put M i j y)) as (M' & Hrun & Hwf' & Hr' & Hc' & Hin' & Hout').
    + by apply mat_put_wf.
    + intros a b Hab. destruct (Hts a b) as (Ha & Hb & x' & y' & Hx' & Hy'); [by right|].
      split_and!; [done..|]. exists x', y'. split; [|done].
      rewrite mat_at_put by done. rewrite decide_False; [done|].
      intros [-> ->]. done.
    + exists M'. cbn [foldM fst snd].
      assert (mat_get M i j = Ok x) as -> by (unfold mat_get; by rewrite Hx).
      cbn [mbind res_bind]. rewrite Hy. cbn [mbind res_bind].
      rewrite mat_set_put by done. cbn [mbind res_bind]. rewrite Hrun.
      split_and!; [done..| |].
      * intros a b [[= -> ->]|Hab]%elem_of_cons.
        -- exists x, y. split_and!; [done..|]. rewrite Hout' by done.
           rewrite mat_at_put by done. by rewrite decide_True.
        -- destruct (Hin' a b Hab) as (x' & y' & Hx' & Hy' & Hm').
           exists x', y'. split_and!; [|done..].
           rewrite mat_at_put in Hx' by done. rewrite decide_False in Hx'; [done|].
           intros [-> ->]. done.
      * intros a b Hab. rewrite Hout' by (intros ?; apply Hab; by right).
        rewrite mat_at_put by done. rewrite decide_False; [done|].
        intros [-> ->]. apply Hab. by left.
Qed.

(** The in-place substitution replaces every entry by its image. *)
Lemma subst_loop_spec (M : matrix A) :
  mat_wf M →
  (∀ i j x, mat_at M i j = Some x → ∃ y, f x = Ok y) →
  ∃ M', subst_loop f (nrows M) (ncols M) M = Ok M'
    ∧ mat_wf M' ∧ nrows M' = nrows M ∧ ncols M' = ncols M
    ∧ ∀ i j, (i < nrows M)%nat → (j < ncols M)%nat →
        ∃ x y, mat_at M i j = Some x ∧ f x = Ok y ∧ mat_at M' i j = Some y.
Proof.
  intros Hwf Hf. unfold subst_loop.
  rewrite (foldM_nested (λ i j M, x ← mat_get M i j; y ← f x; mat_set M i j y)
             _ (λ _, seq 0 (ncols M))).
  destruct (subst_tasks (seq 0 (nrows M) ≫= λ i, pair i <$> seq 0 (ncols M))) with (M := M)
    as (M' & Hrun & Hwf' & Hr' & Hc' & Hin' & _).
  - apply NoDup_bind.
    + intros i1 i2 [a b] _ _ (? & [= -> ->] & _)%list_elem_of_fmap
        (? & [= -> _] & _)%list_elem_of_fmap. done.
    + intros i _. apply NoDup_fmap_2; [|apply NoDup_seq]. by intros ?? [=].
    + apply NoDup_seq.
  - done.
  - intros a b [Ha Hb]%elem_of_pairs. apply elem_of_seq in Ha, Hb.
    split_and!; [lia..|].
    destruct (mat_at_is_Some M a b Hwf) as [x Hx]; [lia..|].
    destruct (Hf a b x Hx) as [y Hy]. eauto.
  - exists M'. split_and!; [done..|]. intros i j Hi Hj. apply Hin'.
    apply elem_of_pairs. split; apply elem_of_seq; lia.
Qed.
End subst.

Lemma block_matrix_spec (A Bm : matrix Q) (d d2 : nat) :
  mat_wf A → mat_wf Bm →
  nrows A = d → ncols A = d → nrows Bm = d → ncols Bm = d2 →
  ∃ blk, block_matrix A Bm = Ok blk
    ∧ nrows blk = (d + d2)%nat ∧ ncols blk = (d + d2)%nat
    ∧ (∀ i j, (i < d)%nat → (j < d)%nat → mat_at blk i j = mat_at A i j)
    ∧ (∀ i j, (i < d)%nat → (j < d2)%nat → mat_at blk i (d + j) = mat_at Bm i j)
    ∧ (∀ i j, (i < d2)%nat → (j < d)%nat → mat_at blk (d + i) j = mat_at Bm j i)
    ∧ (∀ i j, (i < d2)%nat → (j < d2)%nat →
         mat_at blk (d + i) (d + j) = Some (inject_Z 0)).
Proof.
  intros [HrA HcA] [HrB HcB] HnA HmA HnB HmB.
  unfold block_matrix. rewrite decide_True by (split; congruence).
  eexists. split; [reflexivity|]. cbn [nrows ncols]. rewrite HnA, HmA, HmB.
  split_and!; [done..| | | |].
  - intros i j Hi Hj. unfold mat_at. cbn [mdata].
    rewrite lookup_app_l by (rewrite length_zip_with; lia).
    rewrite lookup_zip_with.
    destruct (lookup_lt_is_Some_2 (mdata A) i) as [ra Hra]; [lia|].
    destruct (lookup_lt_is_Some_2 (mdata Bm) i) as [rb Hrb]; [lia|].
    rewrite Hra, Hrb. cbn. apply lookup_app_l.
    eapply Forall_lookup_1 in HcA; [|done]. cbn in HcA. lia.
  - intros i j Hi Hj. unfold mat_at. cbn [mdata].
    rewrite lookup_app_l by (rewrite length_zip_with; lia).
    rewrite lookup_zip_with.
    destruct (lookup_lt_is_Some_2 (mdata A) i) as [ra Hra]; [lia|].
    destruct (lookup_lt_is_Some_2 (mdata Bm) i) as [rb Hrb]; [lia|].
    rewrite Hra, Hrb. cbn.
    eapply Forall_lookup_1 in HcA; [|done]. cbn in HcA.
    rewrite lookup_app_r by lia. f_equal. lia.
  - intros i j Hi Hj. unfold mat_at. cbn [mdata transpose].
    rewrite lookup_app_r by (rewrite length_zip_with; lia).
    rewrite length_zip_with. replace (d + i - length (mdata A) `min` length (mdata Bm))%nat
      with i by lia.
    rewrite !list_lookup_fmap, lookup_seq_lt by lia. cbn.
    rewrite lookup_app_l by (rewrite length_fmap; lia).
    rewrite list_lookup_fmap.
    destruct (lookup_lt_is_Some_2 (mdata Bm) j) as [rb Hrb]; [lia|].
    rewrite Hrb. cbn.
    eapply Forall_lookup_1 in HcB; [|done]. cbn in HcB.
    destruct (lookup_lt_is_Some_2 rb i) as [x Hx]; [lia|]. by rewrite Hx.
  - intros i j Hi Hj. unfold mat_at. cbn [mdata transpose].
    rewrite lookup_app_r by (rewrite length_zip_with; lia).
    rewrite length_zip_with. replace (d + i - length (mdata A) `min` length (mdata Bm))%nat
      with i by lia.
    rewrite !list_lookup_fmap, lookup_seq_lt by lia. cbn.
    rewrite lookup_app_r by (rewrite length_fmap; lia).
    rewrite length_fmap. apply lookup_replicate_2. lia.
Qed.

Lemma sign_pow_spec (e : Z) : 0 ≤ e → sign_pow e = (-1) ^ e.
Proof.
  intros He. unfold sign_pow. destruct (Z.even e) eqn:Hev.
  - apply Z.even_spec in Hev as [k ->]. rewrite Z.pow_mul_r by lia. cbn.
    by rewrite Z.pow_1_l by lia.
  - rewrite <- Z.negb_odd in Hev. apply negb_false_iff, Z.odd_spec in Hev as [k ->].
    rewrite Z.pow_add_r, Z.pow_mul_r by lia. cbn. rewrite Z.pow_1_l by lia. done.
Qed.

(** ** The arithmetic assembler *)

Section degree_substitution.
Context (deg : vec → res Q) (fD : Q → res Q).
Context (l l2 : list vec) (off : vec) (d : nat) (Zp : list vec) (Mi : matrix Z).
Hypothesis Hl : Forall (λ v, length v = d) l.
Hypothesis Hl2 : Forall (λ v, length v = d) l2.
Hypothesis Hoff : length off = d.
Hypothesis Htab : index_table l l2 off Zp Mi.
Hypothesis HfD : ∀ (k : nat) z, Zp !! k = Some z →
  ∃ q, deg z = Ok q ∧ fD (inject_Z (Z.of_nat k)) = Ok q.

Lemma degree_substitution :
  ∃ D, subst_loop fD (length l) (length l2) (mat_map inject_Z Mi) = Ok D
    ∧ degree_block deg l l2 off Zp Mi D.
Proof.
  destruct Htab as (Hwf & Hr & Hc & Hat).
  destruct (subst_loop_spec fD (mat_map inject_Z Mi)) as (D & Hrun & HwfD & HrD & HcD & HD).
  - by apply mat_map_wf.
  - intros i j x Hx. rewrite mat_at_map in Hx.
    destruct (mat_at Mi i j) as [x0|] eqn:Hx0; [|done]. injection Hx as <-.
    destruct (mat_at_range Mi i j x0 Hwf Hx0) as [Hi Hj].
    destruct (lookup_lt_is_Some_2 l i) as [vi Hvi]; [lia|].
    destruct (lookup_lt_is_Some_2 l2 j) as [wj Hwj]; [lia|].
    destruct (Hat i j vi wj Hvi Hwj) as (k & Hk & [Hz _]%pool_find_Some).
    destruct (HfD k _ Hz) as (q & _ & Hq). exists q.
    rewrite Hx0 in Hk. by injection Hk as ->.
  - cbn [mat_map nrows ncols] in Hrun, HrD, HcD, HD.
    rewrite Hr, Hc in Hrun. exists D. split; [done|].
    split_and!; [done|congruence|congruence|].
    intros i j vi wj Hvi Hwj.
    pose proof (lookup_lt_Some _ _ _ Hvi) as Hi.
    pose proof (lookup_lt_Some _ _ _ Hwj) as Hj.
    destruct (Hat i j vi wj Hvi Hwj) as (k & Hk & [Hz _]%pool_find_Some).
    destruct (HfD k _ Hz) as (q & Hdeg & Hq).
    destruct (HD i j) as (x & y & Hx & Hy & HDij); [lia..|].
    rewrite mat_at_map, Hk in Hx. injection Hx as <-.
    rewrite Hq in Hy. injection Hy as <-.
    exists k, (comb vi wj off), q. split_and!; [done..| |done|done].
    apply comb_vadd.
    + pose proof (Forall_lookup_1 _ _ _ _ Hl Hvi).
      pose proof (Forall_lookup_1 _ _ _ _ Hl2 Hwj). cbn in *. lia.
    + pose proof (Forall_lookup_1 _ _ _ _ Hl2 Hwj). cbn in *. lia.
Qed.
End degree_substitution.

Lemma q_index_inject (k : Z) : q_index (inject_Z k) = Ok k.
Proof. done. Qed.

Lemma gdeg_ok (r : vec) (n w : Z) :
  1 ≤ n → pool_vector n w r → w `mod` n = 0 → ∃ g, gdeg r = Ok g.
Proof.
  intros Hn (Hlen & _ & Hw) Hmod. unfold gdeg. rewrite Hlen, Hw.
  destruct (decide (n = 0)); [lia|]. destruct (decide (w `mod` n ≠ 0)); [done|].
  eauto.
Qed.

Lemma adeg_pool_ok (m n : Z) (r : vec) :
  1 ≤ n → pool_vector n (n * m + 1) r →
  ∃ q, adeg r (Some (Tam m n)) (Some (harm_list (m + n - 1))) = Ok q
       ∧ adeg r None None = Ok q.
Proof.
  intros Hn (Hlen & Hnn & Hw).
  assert (r ≠ []) as Hne by (intros ->; simpl in Hlen; lia).
  assert ((weight r - 1) `div` Z.of_nat (length r) = m) as Hm.
  { rewrite Hw, Hlen. replace (n * m + 1 - 1) with (m * n) by lia.
    apply Z.div_mul. lia. }
  assert ((weight r - 1) `mod` Z.of_nat (length r) = 0) as Hmod.
  { rewrite Hw, Hlen. replace (n * m + 1 - 1) with (m * n) by lia.
    apply Z.mod_mul. lia. }
  destruct (adeg_tables_ok r Hne Hnn Hmod) as [q Hq].
  rewrite Hm, Hlen in Hq. exists q. split; [done|].
  rewrite <- Hq. symmetry.
  pose proof (adeg_tables_default r) as Hdef. cbv zeta in Hdef.
  rewrite Hm, Hlen in Hdef. apply Hdef.
Qed.

Lemma vadd_comb_inv (u v off z : vec) :
  (s ← vadd u v; vadd s off) = Ok z → z = comb u v off.
Proof.
  unfold vadd, comb. case_decide; [|done]. cbn [mbind res_bind].
  case_decide; [|done]. by intros [= <-].
Qed.

(** A block of degrees of a grade paired with itself is symmetric. *)
Lemma degree_block_symmetric (deg : vec → res Q) (l : list vec) (off : vec)
    (Zp : list vec) (Mi : matrix Z) (D : matrix Q) :
  degree_block deg l l off Zp Mi D → symmetric_upto D (length l).
Proof.
  intros (_ & _ & _ & Hent) i j Hi Hj.
  destruct (lookup_lt_is_Some_2 l i Hi) as [vi Hvi].
  destruct (lookup_lt_is_Some_2 l j Hj) as [vj Hvj].
  destruct (Hent i j vi vj Hvi Hvj) as (k & z & q & _ & _ & Hz & Hq & ->).
  destruct (Hent j i vj vi Hvj Hvi) as (k' & z' & q' & _ & _ & Hz' & Hq' & ->).
  apply vadd_comb_inv in Hz, Hz'. rewrite comb_comm in Hz'. subst z z'.
  congruence.
Qed.

Lemma block_layout_symmetric (A Bm blk : matrix Q) (d d2 : nat) :
  block_layout A Bm blk d d2 → symmetric_upto A d → symmetric_upto blk (d + d2).
Proof.
  intros (_ & _ & HA & HB & HBt & H0) Hsym i j Hi Hj.
  destruct (decide (i < d)%nat) as [Hid|Hid]; destruct (decide (j < d)%nat) as [Hjd|Hjd].
  - rewrite !HA by done. by apply Hsym.
  - replace j with (d + (j - d))%nat by lia. rewrite HB, HBt by lia. done.
  - replace i with (d + (i - d))%nat by lia. rewrite HB, HBt by lia. done.
  - replace i with (d + (i - d))%nat by lia. replace j with (d + (j - d))%nat by lia.
    rewrite !H0 by lia. done.
Qed.

Lemma mat_map_symmetric (f : Q → Q) (M : matrix Q) (d : nat) :
  symmetric_upto M d → symmetric_upto (mat_map f M) d.
Proof. intros Hsym i j Hi Hj. rewrite !mat_at_map. by rewrite Hsym. Qed.

Lemma aHodge_grade_spec (m n : Z) (L : list (list vec)) (d : nat)
    (ZA ZB : list vec) (M : list (matrix Z * matrix Z))
    (Darith : list Q) (Dgeom : list Z) (p : nat) :
  1 ≤ n → Z.of_nat d = n → Forall (Forall (λ v, length v = d)) L →
  (∀ (k : nat) z, ZA !! k = Some z →
     ∃ q, adeg_plain z = Ok q ∧ py_get Darith (Z.of_nat k) = Ok q) →
  (∀ (k : nat) z, ZB !! k = Some z →
     ∃ g, gdeg z = Ok g ∧ py_get Dgeom (Z.of_nat k) = Ok g) →
  arith_done m n L ZA ZB M p →
  let off := vscale (n * m + 1 - 2 * Z.of_nat p) (e1 n) in
  ∃ l l2 MA MB A Bm blk,
    L !! p = Some l ∧ L !! (p - 1)%nat = Some l2 ∧ M !! p = Some (MA, MB)
    ∧ degree_block adeg_plain l l off ZA MA A
    ∧ degree_block gdeg_half l l2 off ZB MB Bm
    ∧ block_matrix A Bm = Ok blk
    ∧ block_layout A Bm blk (length l) (length l2)
    ∧ aHodge_grade Darith Dgeom M (Z.of_nat p)
      = Ok (mat_map (qmul (inject_Z (sign_pow (Z.of_nat p)))) blk).
Proof.
  intros Hn Hd HL HA HB (l & l2 & MA & MB & Hl & Hl2 & HM & HtA & HtB) off.
  assert (Forall (λ v, length v = d) l) as Hld
    by (eapply Forall_lookup_1 in HL; done).
  assert (Forall (λ v, length v = d) l2) as Hld2
    by (eapply (Forall_lookup_1 _ _ (p - 1)%nat) in HL; done).
  assert (length off = d) as Hoff.
  { unfold off. rewrite length_vscale. pose proof (length_e1 n Hn). lia. }
  destruct (degree_substitution adeg_plain (λ x, k ← q_index x; py_get Darith k)
              l l off d ZA MA Hld Hld Hoff HtA) as (A & HrunA & HdA).
  { intros k z Hz. destruct (HA k z Hz) as (q & Hq1 & Hq2). exists q. split; [done|].
    rewrite q_index_inject. done. }
  destruct (degree_substitution gdeg_half
              (λ x, k ← q_index x; g ← py_get Dgeom k;
                    Ok (qdiv (inject_Z g) (inject_Z 2)))
              l l2 off d ZB MB Hld Hld2 Hoff HtB) as (Bm & HrunB & HdB).
  { intros k z Hz. destruct (HB k z Hz) as (g & Hg1 & Hg2).
    exists (qdiv (inject_Z g) (inject_Z 2)). unfold gdeg_half. rewrite Hg1. split; [done|].
    rewrite q_index_inject. cbn [mbind res_bind]. rewrite Hg2. done. }
  destruct HdA as (HwfA & HrA & HcA & HentA).
  destruct HdB as (HwfB & HrB & HcB & HentB).
  destruct (block_matrix_spec A Bm (length l) (length l2))
    as (blk & Hblk & Hlayout); [done..|].
  exists l, l2, MA, MB, A, Bm, blk.
  split_and!; [done|done|done|by split_and!|by split_and!|done|done|].
  unfold aHodge_grade. rewrite (py_get_nat M p _ HM). cbn [mbind res_bind fst snd].
  destruct HtA as (_ & HrMA & _). destruct HtB as (_ & HrMB & HcMB & _).
  rewrite HrMA, HrunA. cbn [mbind res_bind]. rewrite HrMB, HcMB, HrunB.
  cbn [mbind res_bind]. rewrite Hblk. done.
Qed.

(** ** The loop over the assembled matrices *)

Section check_loop.
Context {A : Type} (is_singular : matrix A → bool) (signature : matrix A → res Z).

(** The loop stops at the first singular matrix and reports failure. *)
Lemma check_signatures_singular (s1 : list Z) (pre post : list (matrix A)) (h : matrix A) :
  Forall (λ x, is_singular x = false ∧ ∃ s, signature x = Ok s) pre →
  is_singular h = true →
  check_signatures is_singular signature s1 (pre ++ h :: post)
  = Ok (pre ++ h :: post, false).
Proof.
  intros Hpre Hh. unfold check_signatures.
  assert (signatures is_singular signature (pre ++ h :: post) = Ok None) as ->; [|done].
  induction Hpre as [|x pre [Hx [s Hs]] _ IH]; cbn [app signatures].
  - by rewrite Hh.
  - rewrite Hx, Hs. cbn [mbind res_bind]. rewrite IH. done.
Qed.

(** Without a singular matrix, the check succeeds exactly when the actual
    signatures are the expected ones. *)
Lemma check_signatures_regular (s1 s2 : list Z) (H : list (matrix A)) :
  Forall2 (λ h s, is_singular h = false ∧ signature h = Ok s) H s2 →
  check_signatures is_singular signature s1 H = Ok (H, bool_decide (s1 = s2)).
Proof.
  intros HH. unfold check_signatures.
  assert (signatures is_singular signature H = Ok (Some s2)) as ->.
  { induction HH as [|h s H s2 [Hh Hs] _ IH]; cbn [signatures]; [done|].
    rewrite Hh, Hs. cbn [mbind res_bind]. rewrite IH. done. }
  cbn [mbind res_bind]. by destruct (decide (s1 = s2)); [rewrite bool_decide_true|rewrite bool_decide_false].
Qed.
End check_loop.

(** ** The basis enumerator: statements *)

Lemma B_total_length (m n : Z) :
  0 ≤ m → 0 ≤ n → sum_list (length <$> B m n) = length (all_vectors m n).
Proof.
  intros Hm Hn. rewrite <- length_join, B_buckets, join_filter_nonempty by done.
  apply length_join_buckets. apply Forall_forall. intros v Hv.
  pose proof (weight_range m n v Hm Hn Hv). nia.
Qed.

(** C6. For [m, n >= 0] the grades of [B(m,n)] hold, in total, as many
    vectors as there are vectors of [n] non-negative integers of sum at
    most [m], and that number is the binomial coefficient C(m+n, n). *)
Theorem B_total_count (m n : Z) :
  0 ≤ m → 0 ≤ n →
  ∃ pts : list vec,
    NoDup pts
    ∧ (∀ v, v ∈ pts ↔ Z.of_nat (length v) = n ∧ nonneg v ∧ sumZ v ≤ m)
    ∧ sum_list (length <$> B m n) = length pts
    ∧ length pts = binomial (Z.to_nat (m + n)) (Z.to_nat n).
Proof.
  intros Hm Hn. exists (all_vectors m n). split_and!.
  - apply NoDup_all_vectors.
  - intros v. by apply elem_of_all_vectors.
  - by apply B_total_length.
  - rewrite length_all_vectors by done. f_equal. lia.
Qed.

Lemma B_total_count_witness :
  0 ≤ 2 ∧ 0 ≤ 3 ∧
  ∃ pts : list vec,
    NoDup pts
    ∧ (∀ v, v ∈ pts ↔ Z.of_nat (length v) = 3 ∧ nonneg v ∧ sumZ v ≤ 2)
    ∧ sum_list (length <$> B 2 3) = length pts
    ∧ length pts = binomial (Z.to_nat (2 + 3)) (Z.to_nat 3).
Proof. split; [lia|]. split; [lia|]. apply (B_total_count 2 3); lia. Defined.

(** C9. For [m < 0] or [n < 0] the enumerator [B(m,n)] returns the empty
    list, and [Varith(m,n)] returns the empty list as well; neither
    raises. *)
Theorem negative_bounds_empty (m n : Z) :
  m < 0 ∨ n < 0 → B m n = [] ∧ Varith m n = Ok EmptyList.
Proof.
  intros Hneg. unfold B, Varith.
  assert ((m <? 0) || (n <? 0) = true) as ->; [|done].
  apply orb_true_iff. destruct Hneg; [left|right]; by apply Z.ltb_lt.
Qed.

Lemma negative_bounds_empty_witness :
  (-1 < 0 ∨ 2 < 0) ∧ B (-1) 2 = [] ∧ Varith (-1) 2 = Ok EmptyList.
Proof. split; [left; lia|]. apply (negative_bounds_empty (-1) 2). left. lia. Defined.

(** C10. For [m, n >= 1] the list [B(m,n)] has exactly [m*n+1] grades,
    none of them empty, and its [p]-th grade holds, without repetition,
    exactly the vectors of [n] non-negative integers of sum at most [m]
    and of weight [p]. *)
Theorem B_grade_is_weight (m n : Z) :
  1 ≤ m → 1 ≤ n →
  length (B m n) = Z.to_nat (m * n + 1)
  ∧ Forall (λ g, g ≠ []) (B m n)
  ∧ ∀ (p : nat) (g : list vec), B m n !! p = Some g →
      NoDup g
      ∧ ∀ v, v ∈ g ↔
          Z.of_nat (length v) = n ∧ nonneg v ∧ sumZ v ≤ m ∧ weight v = Z.of_nat p.
Proof.
  intros Hm Hn. split_and!.
  - apply B_length; lia.
  - apply Forall_forall. intros g (p & Hp)%list_elem_of_lookup.
    apply B_lookup_inv in Hp as [Hp ->]; [|lia..].
    apply (bucket_nonempty m n); lia.
  - intros p g Hg. apply B_lookup_inv in Hg as [Hp ->]; [|lia..]. split.
    + apply NoDup_filter, NoDup_all_vectors.
    + intros v. apply elem_of_bucket_weight; lia.
Qed.

Lemma B_grade_is_weight_witness :
  1 ≤ 2 ∧ 1 ≤ 2 ∧
  length (B 2 2) = Z.to_nat (2 * 2 + 1)
  ∧ Forall (λ g, g ≠ []) (B 2 2)
  ∧ ∀ (p : nat) (g : list vec), B 2 2 !! p = Some g →
      NoDup g
      ∧ ∀ v, v ∈ g ↔
          Z.of_nat (length v) = 2 ∧ nonneg v ∧ sumZ v ≤ 2 ∧ weight v = Z.of_nat p.
Proof. split; [lia|]. split; [lia|]. apply (B_grade_is_weight 2 2); lia. Defined.

(** ** The geometric check: statements *)

(** C1. [Check_GST(m,n)] does not return: its first statement calls
    [HilbGeommm], a name the notebook never binds (the Hilbert function is
    bound as [HilbGeom]), so every call raises [NameError] before any
    matrix is assembled. *)
Theorem Check_GST_unbound_name (is_singular : matrix Z → bool)
    (signature : matrix Z → res Z) (m n : Z) :
  ("HilbGeommm" ∉ notebook_names)
  ∧ ("HilbGeom" ∈ notebook_names)
  ∧ call_global "HilbGeom" m n = HilbGeom m n
  ∧ Check_GST is_singular signature m n = Raise NameError.
Proof.
  split_and!.
  - apply (bool_decide_unpack _). by vm_compute.
  - apply (bool_decide_unpack _). by vm_compute.
  - reflexivity.
  - reflexivity.
Qed.

(** C5. For [(m,n) = (1,1)]: [B(1,1)] has one vector in grade 0 and one
    in grade 1, [gHodge(1,1)] is the single matrix [[1]], and
    [Check_GST(1,1)] raises [NameError] instead of returning [true]. *)
Theorem small_case_1_1 (is_singular : matrix Z → bool)
    (signature : matrix Z → res Z) :
  B 1 1 = [[[0]]; [[1]]]
  ∧ gHodge 1 1 = Ok [Mat 1 1 [[1]]]
  ∧ Check_GST is_singular signature 1 1 = Raise NameError.
Proof. split_and!; [by vm_compute..|reflexivity]. Qed.

(** ** The degree functions: statements *)

(** C2, as stated, fails for vectors of length one: [weight mod 1] is
    never 1, yet [adeg] accepts the vector [(2)]. *)
Lemma adeg_length_one_counterexample :
  ¬ (adeg [2] None None = Raise ValueError
     ↔ weight [2] `mod` Z.of_nat (length [2]) ≠ 1).
Proof.
  intros [_ Hraise].
  assert (adeg [2] None None = Ok (1 # 2)) as Hval by (by vm_compute).
  rewrite Hval in Hraise. discriminate Hraise. by vm_compute.
Qed.

(** C2, amended. For a non-empty vector [r] of non-negative integers,
    [gdeg(r)] raises [ValueError] exactly when [weight(r)] is not a multiple
    of [len(r)] and otherwise returns the Kostka number of the rectangle
    [(n)^m] with content [mu(r)]; [adeg(r)] raises [ValueError] exactly when
    [weight(r) - 1] is not a multiple of [len(r)] (for [len(r) >= 2], when
    [weight(r) mod len(r)] is not 1) and otherwise returns a rational;
    neither raises any other exception. *)
Theorem degree_errors (r : vec) :
  r ≠ [] → nonneg r →
  let n := Z.of_nat (length r) in
  (gdeg r = Raise ValueError ↔ weight r `mod` n ≠ 0)
  ∧ (weight r `mod` n = 0 →
       gdeg r = Ok (kostka (py_rep n (weight r `div` n)) (mu r)))
  ∧ (adeg r None None = Raise ValueError ↔ (weight r - 1) `mod` n ≠ 0)
  ∧ (2 ≤ n → ((weight r - 1) `mod` n ≠ 0 ↔ weight r `mod` n ≠ 1))
  ∧ ((weight r - 1) `mod` n = 0 → ∃ q, adeg r None None = Ok q)
  ∧ (∀ e, gdeg r = Raise e → e = ValueError)
  ∧ (∀ e, adeg r None None = Raise e → e = ValueError).
Proof.
  intros Hne Hnn n.
  assert (1 ≤ n) as Hn by (subst n; destruct r; [done|simpl; lia]).
  assert (∀ x, adeg r None None = x →
          if decide ((weight r - 1) `mod` n = 0) then ∃ q, x = Ok q
          else x = Raise ValueError) as Hadeg.
  { intros x <-. case_decide as Hmod.
    - destruct (adeg_tables_ok r Hne Hnn Hmod) as [q Hq]. exists q.
      rewrite <- Hq. symmetry. apply adeg_tables_default.
    - unfold adeg. fold n. destruct (decide (n = 0)); [lia|].
      destruct (decide ((weight r - 1) `mod` n ≠ 0)); [done|tauto]. }
  assert (∀ x, gdeg r = x →
          if decide (weight r `mod` n = 0)
          then x = Ok (kostka (py_rep n (weight r `div` n)) (mu r))
          else x = Raise ValueError) as Hgdeg.
  { intros x <-. unfold gdeg. fold n. destruct (decide (n = 0)); [lia|].
    destruct (decide (weight r `mod` n = 0)) as [Hz|Hz].
    - destruct (decide (weight r `mod` n ≠ 0)); [done|done].
    - destruct (decide (weight r `mod` n ≠ 0)); [done|tauto]. }
  split_and!.
  - specialize (Hgdeg _ eq_refl). clear Hadeg. case_decide; [|by split].
    rewrite Hgdeg. split; [done|tauto].
  - intros Hmod. specialize (Hgdeg _ eq_refl). clear Hadeg. by rewrite decide_True in Hgdeg.
  - specialize (Hadeg _ eq_refl). clear Hgdeg. case_decide; [|by split].
    destruct Hadeg as [q ->]. split; [done|tauto].
  - intros Hn2.
    assert ((weight r - 1) `mod` n = 0 ↔ weight r `mod` n = 1) as Hiff; [|tauto].
    split; intros Hmod.
    + replace (weight r) with (weight r - 1 + 1) by lia.
      rewrite Z.add_mod, Hmod, Z.add_0_l, Z.mod_mod by lia.
      apply Z.mod_1_l. lia.
    + rewrite Zminus_mod, Hmod, Z.mod_1_l by lia. done.
  - intros Hmod. specialize (Hadeg _ eq_refl). clear Hgdeg. by rewrite decide_True in Hadeg.
  - intros e He. specialize (Hgdeg _ He). clear Hadeg. case_decide; congruence.
  - intros e He. specialize (Hadeg _ He). clear Hgdeg. case_decide; [|congruence].
    by destruct Hadeg.
Qed.

Lemma degree_errors_witness :
  [3; 1] ≠ [] ∧ nonneg [3; 1] ∧
  (gdeg [3; 1] = Raise ValueError ↔ weight [3; 1] `mod` 2 ≠ 0)
  ∧ (weight [3; 1] `mod` 2 = 0 →
       gdeg [3; 1] = Ok (kostka (py_rep 2 (weight [3; 1] `div` 2)) (mu [3; 1])))
  ∧ (adeg [3; 1] None None = Raise ValueError ↔ (weight [3; 1] - 1) `mod` 2 ≠ 0)
  ∧ (2 ≤ 2 → ((weight [3; 1] - 1) `mod` 2 ≠ 0 ↔ weight [3; 1] `mod` 2 ≠ 1))
  ∧ ((weight [3; 1] - 1) `mod` 2 = 0 → ∃ q, adeg [3; 1] None None = Ok q)
  ∧ (∀ e, gdeg [3; 1] = Raise e → e = ValueError)
  ∧ (∀ e, adeg [3; 1] None None = Raise e → e = ValueError).
Proof.
  split; [done|]. split; [repeat constructor; lia|].
  apply (degree_errors [3; 1]); [done|repeat constructor; lia].
Defined.




(** ** The pairing-index builders: statements *)

(** C7, as stated, fails for [n = 0]: the offset vector [e1] then has one
    coordinate and the basis vectors none, so [Vgeom(1,0)] raises
    [TypeError] and returns no matrix for the grade [p = 0]. *)
Lemma Vgeom_no_variables_counterexample :
  0 ≤ 1 ∧ 0 ≤ 0 ∧ (0 ≤ (1 * 0) `div` 2) ∧ Vgeom 1 0 = Raise TypeError.
Proof. by vm_compute. Qed.

(** C7, amended. For [m >= 0] and [n >= 1], [Vgeom(m,n)] returns, and for
    every grade [p] from 0 to [floor(m*n/2)] the matrix [M[p]] is square of
    the size of the grade [p] of [B(m,n)] and symmetric, its entry [(i,j)]
    being the index in the pool [Z] of the vector
    [v_i + v_j + (m*n - 2p)*e1]. *)
Theorem Vgeom_tables_symmetric (m n : Z) :
  0 ≤ m → 1 ≤ n →
  ∃ Zp M, Vgeom m n = Ok (Tuple (Zp, M))
    ∧ ∀ p : nat, Z.of_nat p ≤ (m * n) `div` 2 →
        ∃ l Mp, B m n !! p = Some l ∧ M !! p = Some Mp
          ∧ nrows Mp = length l ∧ ncols Mp = length l
          ∧ ∀ i j vi vj, l !! i = Some vi → l !! j = Some vj →
              ∃ (k : nat) (z : vec),
                mat_get Mp i j = Ok (Z.of_nat k)
                ∧ mat_get Mp j i = Ok (Z.of_nat k)
                ∧ (s ← vadd vi vj;
                   vadd s (vscale (m * n - 2 * Z.of_nat p) (e1 n))) = Ok z
                ∧ Zp !! k = Some z.
Proof.
  intros Hm Hn.
  destruct (Vgeom_spec m n Hm Hn) as (Zp & M & HV & _ & Hlen & Hdone).
  exists Zp, M. split; [done|]. intros p Hp.
  rewrite (Z.mul_comm m n) in Hp |- *.
  assert (0 ≤ (n * m) `div` 2) by (apply Z.div_pos; nia).
  destruct (Hdone p) as (l & Mp & Hl & HMp & Hwf & Hr & Hc & Hat); [lia|].
  exists l, Mp. split_and!; [done..|].
  intros i j vi vj Hvi Hvj.
  destruct (Hat i j vi vj Hvi Hvj) as (k & Hk & Hf).
  destruct (Hat j i vj vi Hvj Hvi) as (k' & Hk' & Hf').
  rewrite comb_comm, Hf in Hf'. injection Hf' as <-.
  exists k, (comb vi vj (vscale (n * m - 2 * Z.of_nat p) (e1 n))).
  unfold mat_get. rewrite Hk, Hk'. split_and!; [done..| |].
  - pose proof (B_vectors_length m n ltac:(lia) ltac:(lia)) as HL.
    eapply Forall_lookup_1 in HL; [|done]. cbn in HL.
    pose proof (Forall_lookup_1 _ _ _ _ HL Hvi) as Hli.
    pose proof (Forall_lookup_1 _ _ _ _ HL Hvj) as Hlj. cbn in Hli, Hlj.
    apply comb_vadd; [lia|]. rewrite length_vscale.
    pose proof (length_e1 n Hn). lia.
  - by apply pool_find_Some in Hf as [Hz _].
Qed.

Lemma Vgeom_tables_symmetric_witness :
  0 ≤ 2 ∧ 1 ≤ 2 ∧
  ∃ Zp M, Vgeom 2 2 = Ok (Tuple (Zp, M))
    ∧ ∀ p : nat, Z.of_nat p ≤ (2 * 2) `div` 2 →
        ∃ l Mp, B 2 2 !! p = Some l ∧ M !! p = Some Mp
          ∧ nrows Mp = length l ∧ ncols Mp = length l
          ∧ ∀ i j vi vj, l !! i = Some vi → l !! j = Some vj →
              ∃ (k : nat) (z : vec),
                mat_get Mp i j = Ok (Z.of_nat k)
                ∧ mat_get Mp j i = Ok (Z.of_nat k)
                ∧ (s ← vadd vi vj;
                   vadd s (vscale (2 * 2 - 2 * Z.of_nat p) (e1 2))) = Ok z
                ∧ Zp !! k = Some z.
Proof. split; [lia|]. split; [lia|]. apply (Vgeom_tables_symmetric 2 2); lia. Defined.

(** C8, as stated, fails for [n = 0]: [Vgeom(0,0)] adds the empty basis
    vector to a multiple of [e1 = (1)] and raises [TypeError], so it
    returns no pool, while [Varith(0,0)] returns its two pools. *)
Lemma Vgeom_returns_no_pool_counterexample :
  0 ≤ 0 ∧ 0 ≤ 0
  ∧ Vgeom 0 0 = Raise TypeError
  ∧ (∀ Zp M, Vgeom 0 0 ≠ Ok (Tuple (Zp, M)))
  ∧ Varith 0 0
    = Ok (Tuple (([vscale 1 (e1 0)], []), [(zero_matrix 0 1 1, zero_matrix 0 0 0)])).
Proof.
  assert (Vgeom 0 0 = Raise TypeError) as HV by (by vm_compute).
  split_and!; [done..| |by vm_compute]. intros Zp M. by rewrite HV.
Qed.

(** C8, amended. For [m >= 0] and [n >= 1], [Vgeom(m,n)] returns a pool
    and its matrices, and for [m, n >= 0], [Varith(m,n)] returns its two
    pools and its matrices; no returned pool holds a vector twice; every
    entry of a pairing-index matrix is the first position, in the
    corresponding pool, of the combined vector of its pair (and the single
    entry of the grade 0 of [Varith] is the position 0 of the vector
    [(m*n+1)*e1]); and a turn of either pairing loop only appends to its
    pool, so that the position of a vector never changes. *)
Theorem pools_without_duplicates (m n : Z) :
  0 ≤ m → 0 ≤ n →
  (1 ≤ n →
     ∃ Zp M, Vgeom m n = Ok (Tuple (Zp, M))
       ∧ NoDup Zp
       ∧ length M = Z.to_nat ((n * m) `div` 2 + 1)
       ∧ ∀ p Mp, M !! p = Some Mp →
           ∃ l, B m n !! p = Some l
             ∧ first_seen_table l l (vscale (n * m - 2 * Z.of_nat p) (e1 n)) Zp Mp)
  ∧ (∃ ZA ZB M, Varith m n = Ok (Tuple ((ZA, ZB), M))
       ∧ NoDup ZA ∧ NoDup ZB
       ∧ length M = Z.to_nat ((n * m + 1) `div` 2 + 1)
       ∧ M !! 0%nat = Some (zero_matrix 0 1 1, zero_matrix 0 0 0)
       ∧ ZA !! 0%nat = Some (vscale (n * m + 1) (e1 n))
       ∧ ∀ p MA MB, (1 ≤ p)%nat → M !! p = Some (MA, MB) →
           ∃ l l2, B m n !! p = Some l ∧ B m n !! (p - 1)%nat = Some l2
             ∧ first_seen_table l l (vscale (n * m + 1 - 2 * Z.of_nat p) (e1 n)) ZA MA
             ∧ first_seen_table l l2 (vscale (n * m + 1 - 2 * Z.of_nat p) (e1 n)) ZB MB)
  ∧ (∀ l off i j Zp Mp Zp' Mp',
       sym_pair l off i j (Zp, Mp) = Ok (Zp', Mp') →
       ∀ k z, Zp !! k = Some z → Zp' !! k = Some z)
  ∧ (∀ l l2 off i j Zp Mp Zp' Mp',
       rect_pair l l2 off i j (Zp, Mp) = Ok (Zp', Mp') →
       ∀ k z, Zp !! k = Some z → Zp' !! k = Some z).
Proof.
  intros Hm Hn. split_and!.
  - intros Hn1.
    destruct (Vgeom_spec m n Hm Hn1) as (Zp & M & HV & Hnd & Hlen & Hdone).
    exists Zp, M. split_and!; [done..|].
    intros p Mp Hp.
    destruct (Hdone p) as (l & Mp' & Hl & HMp & Htab); [by eapply lookup_lt_Some|].
    rewrite Hp in HMp. injection HMp as <-. exists l. split; [done|].
    by apply index_table_first_seen.
  - destruct (Varith_spec m n Hm Hn)
      as (ZA & ZB & M & HV & HndA & HndB & Hlen & H0 & HZ0 & _ & Hdone).
    exists ZA, ZB, M. split_and!; [done..|].
    intros p MA MB Hp1 Hp.
    destruct (Hdone p) as (l & l2 & MA' & MB' & Hl & Hl2 & HMp & HtA & HtB).
    { split; [lia|]. by eapply lookup_lt_Some. }
    rewrite Hp in HMp. injection HMp as <- <-.
    exists l, l2. split_and!; [done|done|by apply index_table_first_seen..].
  - intros l off i j Zp Mp Zp' Mp' Hstep k z Hk.
    eapply prefix_lookup_Some; [done|]. by eapply sym_pair_prefix.
  - intros l l2 off i j Zp Mp Zp' Mp' Hstep k z Hk.
    eapply prefix_lookup_Some; [done|]. by eapply rect_pair_prefix.
Qed.

Lemma pools_without_duplicates_witness :
  0 ≤ 2 ∧ 0 ≤ 2 ∧ 1 ≤ 2
  ∧ (∃ Zp M, Vgeom 2 2 = Ok (Tuple (Zp, M))
       ∧ NoDup Zp
       ∧ length M = Z.to_nat ((2 * 2) `div` 2 + 1)
       ∧ ∀ p Mp, M !! p = Some Mp →
           ∃ l, B 2 2 !! p = Some l
             ∧ first_seen_table l l (vscale (2 * 2 - 2 * Z.of_nat p) (e1 2)) Zp Mp)
  ∧ (∃ ZA ZB M, Varith 2 2 = Ok (Tuple ((ZA, ZB), M))
       ∧ NoDup ZA ∧ NoDup ZB
       ∧ length M = Z.to_nat ((2 * 2 + 1) `div` 2 + 1)
       ∧ M !! 0%nat = Some (zero_matrix 0 1 1, zero_matrix 0 0 0)
       ∧ ZA !! 0%nat = Some (vscale (2 * 2 + 1) (e1 2))
       ∧ ∀ p MA MB, (1 ≤ p)%nat → M !! p = Some (MA, MB) →
           ∃ l l2, B 2 2 !! p = Some l ∧ B 2 2 !! (p - 1)%nat = Some l2
             ∧ first_seen_table l l (vscale (2 * 2 + 1 - 2 * Z.of_nat p) (e1 2)) ZA MA
             ∧ first_seen_table l l2 (vscale (2 * 2 + 1 - 2 * Z.of_nat p) (e1 2)) ZB MB)
  ∧ (∀ l off i j Zp Mp Zp' Mp',
       sym_pair l off i j (Zp, Mp) = Ok (Zp', Mp') →
       ∀ k z, Zp !! k = Some z → Zp' !! k = Some z)
  ∧ (∀ l l2 off i j Zp Mp Zp' Mp',
       rect_pair l l2 off i j (Zp, Mp) = Ok (Zp', Mp') →
       ∀ k z, Zp !! k = Some z → Zp' !! k = Some z).
Proof.
  split; [lia|]. split; [lia|]. split; [lia|].
  destruct (pools_without_duplicates 2 2) as (HV & HA & Hs & Hr); [lia..|].
  split; [apply HV; lia|]. split; [exact HA|]. split; [exact Hs|exact Hr].
Defined.

(** ** The arithmetic assembler: statement *)

(** C4. For [m, n >= 1], [aHodge(m,n)] returns one matrix per grade of
    [Varith(m,n)], and for every grade [p >= 1] the returned matrix is
    [(-1)^p] times the symmetric block matrix [[A, Bm], [Bm^T, 0]], where
    [A(i,j)] is the arithmetic degree of the pooled vector that the
    self-pairing table of the grade names at [(i,j)], [Bm(i,j)] is half the
    geometric degree of the pooled vector that the cross-pairing table
    names at [(i,j)], the lower-right block is zero, and both tables pair
    with the offset [(m*n+1-2p)*e1]. *)
Theorem aHodge_block_matrix (m n : Z) :
  1 ≤ m → 1 ≤ n →
  ∃ ZA ZB M Hs,
    Varith m n = Ok (Tuple ((ZA, ZB), M))
    ∧ aHodge m n = Ok Hs
    ∧ length Hs = length M
    ∧ length Hs = Z.to_nat ((m * n + 1) `div` 2 + 1)
    ∧ ∀ p : nat, (1 ≤ p < length Hs)%nat →
        let off := vscale (m * n + 1 - 2 * Z.of_nat p) (e1 n) in
        ∃ l l2 MA MB A Bm blk,
          B m n !! p = Some l ∧ B m n !! (p - 1)%nat = Some l2
          ∧ M !! p = Some (MA, MB)
          ∧ degree_block adeg_plain l l off ZA MA A
          ∧ degree_block gdeg_half l l2 off ZB MB Bm
          ∧ block_matrix A Bm = Ok blk
          ∧ block_layout A Bm blk (length l) (length l2)
          ∧ symmetric_upto blk (length l + length l2)
          ∧ Hs !! p = Some (mat_map (qmul (inject_Z ((-1) ^ Z.of_nat p))) blk)
          ∧ symmetric_upto (mat_map (qmul (inject_Z ((-1) ^ Z.of_nat p))) blk)
                           (length l + length l2).
Proof.
  intros Hm Hn. rewrite (Z.mul_comm m n).
  destruct (Varith_spec m n ltac:(lia) ltac:(lia))
    as (ZA & ZB & M & HV & _ & _ & Hlen & H0 & HZ0 & Hpool & Hdone).
  destruct (Hpool Hn) as [HpA HpB].
  destruct (res_mapM_ok (λ v, adeg v (Some (Tam m n)) (Some (harm_list (m + n - 1)))) ZA)
    as [Darith HDa].
  { intros v Hv. eapply Forall_forall in HpA; [|done].
    destruct (adeg_pool_ok m n v Hn HpA) as (q & Hq & _). eauto. }
  destruct (res_mapM_ok gdeg ZB) as [Dgeom HDg].
  { intros v Hv. eapply Forall_forall in HpB; [|done].
    apply (gdeg_ok v n (n * m)); [done..|]. rewrite Z.mul_comm. apply Z.mod_mul. lia. }
  pose proof HDa as HDa2. apply res_mapM_Forall2 in HDa2.
  pose proof HDg as HDg2. apply res_mapM_Forall2 in HDg2.
  assert (∀ (k : nat) z, ZA !! k = Some z →
            ∃ q, adeg_plain z = Ok q ∧ py_get Darith (Z.of_nat k) = Ok q) as HA.
  { intros k z Hz. destruct (Forall2_lookup_l _ _ _ _ _ HDa2 Hz) as (q & Hq & Hadeg).
    pose proof (list_elem_of_lookup_2 _ _ _ Hz) as Hin.
    eapply Forall_forall in HpA; [|done].
    destruct (adeg_pool_ok m n z Hn HpA) as (q' & Hq1 & Hq2).
    rewrite Hq1 in Hadeg. injection Hadeg as ->.
    exists q. split; [done|]. by apply py_get_nat. }
  assert (∀ (k : nat) z, ZB !! k = Some z →
            ∃ g, gdeg z = Ok g ∧ py_get Dgeom (Z.of_nat k) = Ok g) as HB.
  { intros k z Hz. destruct (Forall2_lookup_l _ _ _ _ _ HDg2 Hz) as (g & Hg & Hgdeg).
    exists g. split; [done|]. by apply py_get_nat. }
  assert (0 ≤ (n * m + 1) `div` 2) as Htop by (apply Z.div_pos; nia).
  destruct (res_mapM_ok (aHodge_grade Darith Dgeom M)
              (erange 1 (Z.of_nat (length M) - 1))) as [rest Hrest].
  { intros p Hp%elem_of_seqZ.
    destruct (aHodge_grade_spec m n (B m n) (Z.to_nat n) ZA ZB M Darith Dgeom (Z.to_nat p))
      as (l & l2 & MA & MB & A & Bm & blk & _ & _ & _ & _ & _ & _ & _ & Hgr);
      [done|lia|apply B_vectors_length; lia|done|done|apply Hdone; lia|].
    rewrite Z2Nat.id in Hgr by lia. eauto. }
  pose proof Hrest as Hrest2. apply res_mapM_Forall2 in Hrest2.
  pose proof (Forall2_length _ _ _ Hrest2) as Hlenrest.
  unfold erange in Hlenrest. rewrite length_seqZ in Hlenrest.
  destruct (HA 0%nat _ HZ0) as (d0 & _ & Hd0).
  exists ZA, ZB, M, (Mat 1 1 [[d0]] :: rest). split_and!.
  - done.
  - unfold aHodge. rewrite HV. cbn [mbind res_bind]. rewrite HDa. cbn [mbind res_bind].
    rewrite HDg. cbn [mbind res_bind].
    pose proof (py_get_nat M 0 _ H0) as HM0. change (Z.of_nat 0) with 0 in HM0.
    rewrite HM0. cbn [mbind res_bind fst].
    change (mat_get (zero_matrix 0 1 1) 0 0) with (Ok (A := Z) 0).
    cbn [mbind res_bind]. change (Z.of_nat 0) with 0 in Hd0. rewrite Hd0.
    cbn [mbind res_bind]. rewrite Hrest. done.
  - cbn [length]. lia.
  - cbn [length]. lia.
  - intros p Hp off. cbn [length] in Hp.
    destruct (aHodge_grade_spec m n (B m n) (Z.to_nat n) ZA ZB M Darith Dgeom p)
      as (l & l2 & MA & MB & A & Bm & blk & Hl & Hl2 & HM & HdA & HdB & Hblk & Hlay & Hgr);
      [done|lia|apply B_vectors_length; lia|done|done|apply Hdone; lia|].
    assert (symmetric_upto blk (length l + length l2)) as Hsym.
    { eapply block_layout_symmetric; [done|]. by eapply degree_block_symmetric. }
    exists l, l2, MA, MB, A, Bm, blk.
    split_and!; [done..| |by apply mat_map_symmetric].
    destruct p as [|p']; [lia|]. cbn [lookup list_lookup].
    change (rest !! p' = Some (mat_map (qmul (inject_Z ((-1) ^ Z.of_nat (S p')))) blk)).
    destruct (Forall2_lookup_l _ _ _ p' (Z.of_nat (S p')) Hrest2) as (y & Hy & Hgr').
    { unfold erange. rewrite lookup_seqZ. lia. }
    rewrite Hgr in Hgr'. injection Hgr' as <-.
    rewrite Hy. rewrite sign_pow_spec by lia. done.
Qed.

Lemma aHodge_block_matrix_witness :
  1 ≤ 2 ∧ 1 ≤ 2 ∧
  ∃ ZA ZB M Hs,
    Varith 2 2 = Ok (Tuple ((ZA, ZB), M))
    ∧ aHodge 2 2 = Ok Hs
    ∧ length Hs = length M
    ∧ length Hs = Z.to_nat ((2 * 2 + 1) `div` 2 + 1)
    ∧ ∀ p : nat, (1 ≤ p < length Hs)%nat →
        let off := vscale (2 * 2 + 1 - 2 * Z.of_nat p) (e1 2) in
        ∃ l l2 MA MB A Bm blk,
          B 2 2 !! p = Some l ∧ B 2 2 !! (p - 1)%nat = Some l2
          ∧ M !! p = Some (MA, MB)
          ∧ degree_block adeg_plain l l off ZA MA A
          ∧ degree_block gdeg_half l l2 off ZB MB Bm
          ∧ block_matrix A Bm = Ok blk
          ∧ block_layout A Bm blk (length l) (length l2)
          ∧ symmetric_upto blk (length l + length l2)
          ∧ Hs !! p = Some (mat_map (qmul (inject_Z ((-1) ^ Z.of_nat p))) blk)
          ∧ symmetric_upto (mat_map (qmul (inject_Z ((-1) ^ Z.of_nat p))) blk)
                           (length l + length l2).
Proof. split; [lia|]. split; [lia|]. apply (aHodge_block_matrix 2 2); lia. Defined.

(** ** Further properties: weights, degenerate bounds, the index set *)

Lemma weight_from_scale (c k : Z) (v : vec) :
  weight_from c (vscale k v) = k * weight_from c v.
Proof.
  revert c. induction v as [|x v IH]; intros c; cbn [vscale fmap list_fmap weight_from].
  - lia.
  - fold (vscale k v). rewrite IH. lia.
Qed.

(** X1. The weight is linear: a sum of two vectors of the same degree has
    the sum of their weights, vectors of different degrees cannot be
    added, and a multiple of a vector has the multiple of its weight. *)
Theorem weight_linear (u v : vec) (c : Z) :
  (length u = length v →
     ∃ s, vadd u v = Ok s ∧ length s = length u ∧ weight s = weight u + weight v)
  ∧ (length u ≠ length v → vadd u v = Raise TypeError)
  ∧ weight (vscale c u) = c * weight u
  ∧ length (vscale c u) = length u.
Proof.
  split_and!.
  - intros Hlen. exists (zip_with Z.add u v). unfold vadd. rewrite decide_True by done.
    split_and!; [done| |].
    + rewrite length_zip_with. lia.
    + rewrite !weight_eq. by apply weight_from_zip.
  - intros Hlen. unfold vadd. by rewrite decide_False.
  - rewrite !weight_eq. apply weight_from_scale.
  - apply length_vscale.
Qed.

Lemma weight_linear_witness :
  length [1; 2] = length [3; 4]
  ∧ ∃ s, vadd [1; 2] [3; 4] = Ok s ∧ length s = length [1; 2]
         ∧ weight s = weight [1; 2] + weight [3; 4].
Proof. split; [reflexivity|]. exact (proj1 (weight_linear [1; 2] [3; 4] 1) eq_refl). Defined.

Lemma IntegerVectors_nk_zero (k : nat) : IntegerVectors_nk k 0 = [replicate k 0].
Proof.
  induction k as [|k IH]; [done|]. cbn [IntegerVectors_nk seq].
  rewrite bind_cons. cbn [mbind list_bind]. rewrite IH. done.
Qed.

Lemma all_vectors_no_variables (m : Z) : 0 ≤ m → all_vectors m 0 = [[]].
Proof.
  intros Hm. unfold all_vectors, erange, IntegerVectors. cbn [Z.to_nat IntegerVectors_nk].
  rewrite seqZ_cons by lia. rewrite bind_cons. cbn [Z.to_nat].
  assert (∀ a c, 1 ≤ a → seqZ a c ≫=
            (λ j, match Z.to_nat j with O => [[]] | S _ => [] end) = @nil vec) as Hz.
  { intros a c Ha. unfold seqZ. generalize (seq 0 (Z.to_nat c)). intros s.
    induction s as [|x s IH]; [done|]. cbn [fmap list_fmap]. rewrite bind_cons, IH.
    destruct (Z.to_nat (Z.of_nat x + a)) eqn:E; [lia|done]. }
  rewrite Hz by lia. done.
Qed.

(** X2. With no variable, or with total degree 0, the basis has the single
    grade 0, which holds the zero vector alone. *)
Theorem B_degenerate (m n : Z) :
  (0 ≤ m → B m 0 = [[[]]])
  ∧ (0 ≤ n → B 0 n = [[replicate (Z.to_nat n) 0]]).
Proof.
  split.
  - intros Hm. unfold B. rewrite (proj2 (Z.ltb_ge _ _) Hm). cbn [Z.ltb Z.compare orb].
    fold (all_vectors m 0). by rewrite all_vectors_no_variables.
  - intros Hn. unfold B. rewrite (proj2 (Z.ltb_ge _ _) Hn). cbn [Z.ltb Z.compare orb].
    unfold erange, IntegerVectors. change (seqZ 0 (0 - 0 + 1)) with [0].
    rewrite bind_cons. cbn [Z.to_nat]. rewrite IntegerVectors_nk_zero. done.
Qed.

Lemma B_degenerate_witness :
  0 ≤ 3 ∧ 0 ≤ 2 ∧ B 3 0 = [[[]]] ∧ B 0 2 = [[replicate (Z.to_nat 2) 0]].
Proof.
  split; [lia|]. split; [lia|].
  split; [apply (proj1 (B_degenerate 3 2)); lia|apply (proj2 (B_degenerate 3 2)); lia].
Defined.

(** X3. [Tam(m,n)] lists, each once, exactly the triples [(a,b,j)] of
    non-negative integers with [a < m], [j < b < n] and [a + b + j < m + n],
    the index set of Tamvakis's formula. *)
Theorem Tam_index_set (m n : Z) :
  NoDup (Tam m n)
  ∧ ∀ a b j, (a, b, j) ∈ Tam m n ↔
      0 ≤ a ∧ a < m ∧ 0 ≤ j ∧ j < b ∧ b < n ∧ a + b + j < m + n.
Proof.
  split.
  - unfold Tam, erange. apply NoDup_bind; [| |apply NoDup_seqZ].
    + intros a1 a2 [[a b] j] _ _ H1 H2.
      apply list_elem_of_bind in H1 as (j1 & H1 & _).
      apply list_elem_of_bind in H1 as (b1 & H1 & _).
      apply list_elem_of_singleton in H1 as [= -> _ _].
      apply list_elem_of_bind in H2 as (j2 & H2 & _).
      apply list_elem_of_bind in H2 as (b2 & H2 & _).
      by apply list_elem_of_singleton in H2 as [= -> _ _].
    + intros a _. apply NoDup_bind; [| |apply NoDup_seqZ].
      * intros j1 j2 [[a' b] j] _ _ H1 H2.
        apply list_elem_of_bind in H1 as (b1 & H1 & _).
        apply list_elem_of_singleton in H1 as [= _ _ ->].
        apply list_elem_of_bind in H2 as (b2 & H2 & _).
        by apply list_elem_of_singleton in H2 as [= _ _ ->].
      * intros j _. apply NoDup_bind; [| |apply NoDup_seqZ].
        -- intros b1 b2 [[a' b] j'] _ _ H1 H2.
           apply list_elem_of_singleton in H1 as [= _ -> _].
           by apply list_elem_of_singleton in H2 as [= _ -> _].
        -- intros b _. apply NoDup_singleton.
  - intros a b j. rewrite elem_of_Tam. lia.
Qed.

(** X4. On a negative bound [Vgeom] returns the empty list, like [B] and
    [Varith], but the assemblers do not: unpacking the empty list into a
    pool and its matrices raises [ValueError] in [gHodge] and in [aHodge]. *)
Theorem negative_bounds_assemblers (m n : Z) :
  m < 0 ∨ n < 0 →
  Vgeom m n = Ok EmptyList
  ∧ gHodge m n = Raise ValueError
  ∧ aHodge m n = Raise ValueError.
Proof.
  intros Hneg. unfold gHodge, aHodge, Vgeom, Varith.
  assert ((m <? 0) || (n <? 0) = true) as ->; [|done].
  apply orb_true_iff. destruct Hneg; [left|right]; by apply Z.ltb_lt.
Qed.

Lemma negative_bounds_assemblers_witness :
  (2 < 0 ∨ -1 < 0)
  ∧ Vgeom 2 (-1) = Ok EmptyList
  ∧ gHodge 2 (-1) = Raise ValueError
  ∧ aHodge 2 (-1) = Raise ValueError.
Proof. split; [right; lia|]. apply (negative_bounds_assemblers 2 (-1)). right. lia. Defined.

(** ** Further properties: harmonic numbers and expected signatures *)

Lemma harm_list_nonpos (n : Z) : n ≤ 0 → harm_list n = [inject_Z 0].
Proof. intros Hn. unfold harm_list, erange. by rewrite seqZ_nil by lia. Qed.

Lemma harm_list_S (k : nat) :
  harm_list (Z.of_nat (S k))
  = harm_list (Z.of_nat k)
    ++ [qadd (default (inject_Z 0) (last (harm_list (Z.of_nat k))))
             (qdiv (inject_Z 1) (inject_Z (Z.of_nat (S k))))].
Proof.
  unfold harm_list, erange.
  replace (Z.of_nat (S k) - 1 + 1) with (Z.of_nat (S k)) by lia.
  replace (Z.of_nat k - 1 + 1) with (Z.of_nat k) by lia.
  rewrite seqZ_S, foldl_app. cbn [foldl].
  replace (1 + Z.of_nat k) with (Z.of_nat (S k)) by lia. done.
Qed.

Lemma harm_list_step (N k : nat) (h : Q) :
  (k < N)%nat → harm_list (Z.of_nat N) !! k = Some h →
  harm_list (Z.of_nat N) !! S k
  = Some (qadd h (qdiv (inject_Z 1) (inject_Z (Z.of_nat (S k))))).
Proof.
  induction N as [|N IH]; intros Hk Hh; [lia|].
  pose proof (length_harm_list (Z.of_nat N)) as Hlen. rewrite Nat2Z.id in Hlen.
  rewrite harm_list_S in Hh |- *.
  destruct (decide (k < N)%nat) as [Hlt|Hge].
  - rewrite lookup_app_l in Hh by lia. rewrite lookup_app_l by lia. by apply IH.
  - assert (k = N) as -> by lia. rewrite lookup_app_l in Hh by lia.
    rewrite lookup_app_r by lia. rewrite Hlen, Nat.sub_diag. cbn [lookup list_lookup].
    rewrite last_lookup, Hlen. cbn [pred]. rewrite Hh. done.
Qed.

Lemma harm_list_prefix_nat (k c : nat) :
  harm_list (Z.of_nat k) `prefix_of` harm_list (Z.of_nat (k + c)).
Proof.
  induction c as [|c IH]; [by rewrite Nat.add_0_r|].
  replace (k + S c)%nat with (S (k + c)) by lia. rewrite harm_list_S.
  by apply prefix_app_r.
Qed.

(** X5. [harm_list(n)] is the list of the harmonic numbers [H_0, ..., H_n]:
    it has [n+1] entries (one entry for [n <= 0]), starts with 0, each
    further entry adds [1/k] to the one before, and the list for a smaller
    bound is a prefix of the list for a larger one. *)
Theorem harm_list_harmonic (n : Z) :
  length (harm_list n) = S (Z.to_nat n)
  ∧ harm_list n !! 0%nat = Some (inject_Z 0)
  ∧ (∀ (k : nat) h, Z.of_nat k < n → harm_list n !! k = Some h →
       harm_list n !! S k
       = Some (qadd h (qdiv (inject_Z 1) (inject_Z (Z.of_nat (S k))))))
  ∧ (∀ n', n ≤ n' → harm_list n `prefix_of` harm_list n').
Proof.
  split_and!.
  - apply length_harm_list.
  - destruct (decide (n ≤ 0)) as [Hn|Hn]; [by rewrite harm_list_nonpos|].
    rewrite <- (Z2Nat.id n) by lia.
    eapply prefix_lookup_Some; [|apply (harm_list_prefix_nat 0 (Z.to_nat n))]. done.
  - intros k h Hk Hh. rewrite <- (Z2Nat.id n) in Hh |- * by lia.
    apply harm_list_step; [lia|done].
  - intros n' Hn'. destruct (decide (n ≤ 0)) as [Hn|Hn].
    + rewrite harm_list_nonpos by done.
      destruct (decide (n' ≤ 0)) as [Hn0|Hn0]; [by rewrite harm_list_nonpos|].
      rewrite <- (Z2Nat.id n') by lia. apply (harm_list_prefix_nat 0 (Z.to_nat n')).
    + rewrite <- (Z2Nat.id n), <- (Z2Nat.id n') by lia.
      replace (Z.to_nat n') with (Z.to_nat n + (Z.to_nat n' - Z.to_nat n))%nat by lia.
      apply harm_list_prefix_nat.
Qed.

Lemma res_mapM_fmap {X Y : Type} (f : X → res Y) (g : X → Y) (xs : list X) :
  (∀ x, x ∈ xs → f x = Ok (g x)) → res_mapM f xs = Ok (g <$> xs).
Proof.
  induction xs as [|x xs IH]; intros Hf; [done|]. cbn [res_mapM fmap list_fmap].
  rewrite Hf by left. cbn [mbind res_bind]. rewrite IH; [done|].
  intros y Hy. apply Hf. by right.
Qed.

Lemma py_get_total (l : list Z) (k : Z) :
  0 ≤ k < Z.of_nat (length l) → py_get l k = Ok (l !!! Z.to_nat k).
Proof.
  intros Hk. destruct (py_get_Z l k Hk) as (x & -> & Hx).
  by rewrite (list_lookup_total_correct _ _ _ Hx).
Qed.

Lemma sign_pow_succ (e : Z) : sign_pow (e + 1) = - sign_pow e.
Proof.
  unfold sign_pow. rewrite Z.add_1_r, Z.even_succ, <- Z.negb_even.
  by destruct (Z.even e).
Qed.

Lemma sign_pow_square (e : Z) : sign_pow e * sign_pow e = 1.
Proof. unfold sign_pow. by destruct (Z.even e). Qed.

(** The signature sequence in closed form. *)
Lemma Signature_closed (v : list Z) :
  let K := (Z.of_nat (length v) - 1) `div` 2 in
  let w := 1 :: ((λ i, v !!! Z.to_nat i - v !!! Z.to_nat (i - 1)) <$> erange 1 K) in
  Signature v
  = Ok ((λ q, sign_pow q
              * sumZ ((λ p, sign_pow p * (w !!! Z.to_nat p)) <$> erange 0 q))
          <$> erange 0 K).
Proof.
  intros K w. unfold Signature. fold K.
  assert (K ≤ Z.of_nat (length v) - 1 ∨ K < 0) as HK.
  { unfold K. destruct v as [|x v]; [right; by vm_compute|]. left.
    apply Z.div_le_upper_bound; cbn [length]; lia. }
  rewrite (res_mapM_fmap _ (λ i, v !!! Z.to_nat i - v !!! Z.to_nat (i - 1))).
  2:{ intros i Hi%elem_of_seqZ.
      rewrite !py_get_total by lia. done. }
  cbn [mbind res_bind]. fold w.
  apply res_mapM_fmap. intros q Hq%elem_of_seqZ.
  rewrite (res_mapM_fmap _ (λ p, sign_pow p * (w !!! Z.to_nat p))); [done|].
  intros p Hp%elem_of_seqZ. rewrite py_get_total; [done|].
  unfold w, erange. cbn [length]. rewrite length_fmap, length_seqZ. lia.
Qed.

(** X6. [Signature(v)] never raises; it returns [floor((len(v)-1)/2) + 1]
    expected signatures (none for the empty list), the first of which is
    1, and two consecutive ones add up to the difference of the
    corresponding dimensions: [s[q+1] + s[q] = v[q+1] - v[q]]. *)
Theorem Signature_recurrence (v : list Z) :
  ∃ s, Signature v = Ok s
    ∧ length s = Z.to_nat ((Z.of_nat (length v) - 1) `div` 2 + 1)
    ∧ (v ≠ [] → s !! 0%nat = Some 1)
    ∧ ∀ (q : nat) x, s !! S q = Some x →
        ∃ y a b, s !! q = Some y ∧ v !! S q = Some a ∧ v !! q = Some b
                 ∧ x + y = a - b.
Proof.
  pose proof (Signature_closed v) as Hs. cbv zeta in Hs.
  set (K := (Z.of_nat (length v) - 1) `div` 2) in *.
  set (w := 1 :: ((λ i, v !!! Z.to_nat i - v !!! Z.to_nat (i - 1)) <$> erange 1 K)) in *.
  set (S0 := λ q, sumZ ((λ p, sign_pow p * (w !!! Z.to_nat p)) <$> erange 0 q)) in *.
  eexists. split; [exact Hs|]. split_and!.
  - unfold erange. rewrite length_fmap, length_seqZ. f_equal. lia.
  - intros Hv. assert (0 ≤ K).
    { apply Z.div_pos; [|lia]. destruct v; [done|]. cbn [length]. lia. }
    unfold erange. rewrite list_lookup_fmap, lookup_seqZ_lt by lia. done.
  - intros q x Hx. unfold erange in Hx.
    rewrite list_lookup_fmap in Hx.
    destruct (seqZ 0 (K - 0 + 1) !! S q) as [q'|] eqn:Hq'; [|done].
    apply lookup_seqZ in Hq' as [-> Hq]. injection Hx as <-.
    assert (K ≤ Z.of_nat (length v) - 1) as HK.
    { unfold K in Hq |- *.
      destruct v as [|x0 v]; [exfalso; change (Z.of_nat (S q) < -1 - 0 + 1) in Hq; lia|].
      apply Z.div_le_upper_bound; cbn [length]; lia. }
    destruct (lookup_lt_is_Some_2 v (S q)) as [a Ha]; [lia|].
    destruct (lookup_lt_is_Some_2 v q) as [b Hb]; [lia|].
    exists (sign_pow (Z.of_nat q) * S0 (Z.of_nat q)), a, b. split_and!; [|done..|].
    + unfold erange. rewrite list_lookup_fmap, lookup_seqZ_lt by lia. done.
    + replace (0 + Z.of_nat (S q)) with (Z.of_nat q + 1) by lia.
      change (sumZ ((λ p, sign_pow p * (w !!! Z.to_nat p))
                      <$> seqZ 0 (Z.of_nat q + 1 - 0 + 1)))
        with (S0 (Z.of_nat q + 1)).
      assert (S0 (Z.of_nat q + 1) = S0 (Z.of_nat q)
              + sign_pow (Z.of_nat q + 1) * (a - b)) as ->.
      { unfold S0, erange.
        replace (Z.of_nat q + 1 - 0 + 1) with (Z.of_nat (S (S q))) by lia.
        replace (Z.of_nat q - 0 + 1) with (Z.of_nat (S q)) by lia.
        rewrite (seqZ_S 0 (S q)), fmap_app, sumZ_app. cbn [fmap list_fmap sumZ foldr].
        replace (0 + Z.of_nat (S q)) with (Z.of_nat q + 1) by lia.
        replace (Z.to_nat (Z.of_nat q + 1)) with (S q) by lia.
        assert (w !!! S q = a - b) as ->; [|lia].
        apply list_lookup_total_correct. unfold w.
        rewrite lookup_cons_ne_0 by lia. cbn [pred].
        unfold erange. rewrite list_lookup_fmap, lookup_seqZ_lt by lia.
        cbn [fmap option_fmap option_map].
        replace (Z.to_nat (1 + Z.of_nat q)) with (S q) by lia.
        replace (Z.to_nat (1 + Z.of_nat q - 1)) with q by lia.
        by rewrite (list_lookup_total_correct _ _ _ Ha),
                   (list_lookup_total_correct _ _ _ Hb). }
      rewrite sign_pow_succ. pose proof (sign_pow_square (Z.of_nat q)) as Hsq.
      revert Hsq. generalize (S0 (Z.of_nat q)) (sign_pow (Z.of_nat q)).
      intros t sg Hsq.
      transitivity (sg * sg * (a - b)); [ring|]. rewrite Hsq. ring.
Qed.

(** ** Further properties: the geometric pool and the geometric forms *)

Lemma foldM_inv {S X : Type} (I : S → Prop) (f : S → X → res S) (xs : list X) :
  (∀ s x s', x ∈ xs → I s → f s x = Ok s' → I s') →
  ∀ s s', I s → foldM f xs s = Ok s' → I s'.
Proof.
  induction xs as [|x xs IH]; intros Hstep s s' Hs Hrun.
  - cbn in Hrun. by injection Hrun as <-.
  - cbn [foldM] in Hrun. destruct (f s x) as [s1|e] eqn:Hf; [|done].
    cbn [mbind res_bind] in Hrun.
    apply (IH (λ s0 x0 s0' Hx0, Hstep s0 x0 s0' (list_elem_of_further _ _ _ Hx0)) s1);
      [|done].
    apply (Hstep s x); [by left|done..].
Qed.

Lemma list_get_elem {A : Type} (l : list A) (i : nat) (x : A) :
  list_get l i = Ok x → x ∈ l.
Proof.
  unfold list_get. destruct (l !! i) as [y|] eqn:Hy; [|done].
  intros [= <-]. by eapply list_elem_of_lookup_2.
Qed.

Section pool_invariant.
Context (P : vec → Prop) (l l2 : list vec) (off : vec).
Hypothesis HP : ∀ vi wj z, vi ∈ l → wj ∈ l2 →
  (s ← vadd vi wj; vadd s off) = Ok z → P z.

Lemma rect_pair_pool (i j : nat) (Zp Zp' : list vec) (Mp Mp' : matrix Z) :
  Forall P Zp → rect_pair l l2 off i j (Zp, Mp) = Ok (Zp', Mp') → Forall P Zp'.
Proof.
  intros HZ. unfold rect_pair.
  destruct (list_get l i) as [vi|] eqn:Hvi; [|done].
  destruct (list_get l2 j) as [wj|] eqn:Hwj; [|done]. cbn [mbind res_bind].
  destruct (vadd vi wj) as [s|] eqn:Hs; [|done]. cbn [mbind res_bind].
  destruct (vadd s off) as [z|] eqn:Hz; [|done]. cbn [mbind res_bind].
  assert (P z) as Hpz.
  { apply (HP vi wj); [by eapply list_get_elem..|]. by rewrite Hs. }
  case_bool_decide.
  - destruct (py_index z Zp); [|done]. cbn [mbind res_bind].
    destruct (mat_set Mp i j _); [|done]. cbn [mbind res_bind]. by intros [= <- _].
  - destruct (mat_set Mp i j _); [|done]. cbn [mbind res_bind]. intros [= <- _].
    apply Forall_app. split; [done|]. by constructor.
Qed.

Lemma rect_loop_pool (Zp Zp' : list vec) (Mp Mp' : matrix Z) :
  Forall P Zp → rect_loop l l2 off (Zp, Mp) = Ok (Zp', Mp') → Forall P Zp'.
Proof.
  intros HZ Hrun. unfold rect_loop in Hrun.
  apply (foldM_inv (λ st, Forall P st.1) _ _) with (s := (Zp, Mp)) (s' := (Zp', Mp'))
    in Hrun; [done| |done].
  intros st i st' _ Hst Hin.
  apply (foldM_inv (λ st, Forall P st.1) _ _) with (s := st) (s' := st') in Hin;
    [done| |done].
  intros [Z1 M1] j [Z2 M2] _ H1 Hstep. by eapply rect_pair_pool.
Qed.
End pool_invariant.

Section sym_pool_invariant.
Context (P : vec → Prop) (l : list vec) (off : vec).
Hypothesis HP : ∀ vi vj z, vi ∈ l → vj ∈ l →
  (s ← vadd vi vj; vadd s off) = Ok z → P z.

Lemma sym_pair_pool (i j : nat) (Zp Zp' : list vec) (Mp Mp' : matrix Z) :
  Forall P Zp → sym_pair l off i j (Zp, Mp) = Ok (Zp', Mp') → Forall P Zp'.
Proof.
  intros HZ. unfold sym_pair.
  destruct (list_get l i) as [vi|] eqn:Hvi; [|done].
  destruct (list_get l j) as [vj|] eqn:Hvj; [|done]. cbn [mbind res_bind].
  destruct (vadd vi vj) as [s|] eqn:Hs; [|done]. cbn [mbind res_bind].
  destruct (vadd s off) as [z|] eqn:Hz; [|done]. cbn [mbind res_bind].
  assert (P z) as Hpz.
  { apply (HP vi vj); [by eapply list_get_elem..|]. by rewrite Hs. }
  case_bool_decide.
  - destruct (py_index z Zp); [|done]. cbn [mbind res_bind].
    destruct (mat_set Mp i j _) as [M1|]; [|done]. cbn [mbind res_bind].
    destruct (mat_get M1 i j); [|done]. cbn [mbind res_bind].
    destruct (mat_set M1 j i _); [|done]. cbn [mbind res_bind]. by intros [= <- _].
  - destruct (mat_set Mp i j _) as [M1|]; [|done]. cbn [mbind res_bind].
    destruct (mat_get M1 i j); [|done]. cbn [mbind res_bind].
    destruct (mat_set M1 j i _); [|done]. cbn [mbind res_bind]. intros [= <- _].
    apply Forall_app. split; [done|]. by constructor.
Qed.

Lemma sym_loop_pool (Zp Zp' : list vec) (Mp Mp' : matrix Z) :
  Forall P Zp → sym_loop l off (Zp, Mp) = Ok (Zp', Mp') → Forall P Zp'.
Proof.
  intros HZ Hrun. unfold sym_loop in Hrun.
  apply (foldM_inv (λ st, Forall P st.1) _ _) with (s := (Zp, Mp)) (s' := (Zp', Mp'))
    in Hrun; [done| |done].
  intros st i st' _ Hst Hin.
  apply (foldM_inv (λ st, Forall P st.1) _ _) with (s := st) (s' := st') in Hin;
    [done| |done].
  intros [Z1 M1] j [Z2 M2] _ H1 Hstep. by eapply sym_pair_pool.
Qed.
End sym_pool_invariant.

Lemma Vgeom_pool (m n : Z) (Zp : list vec) (M : list (matrix Z)) :
  0 ≤ m → 1 ≤ n → Vgeom m n = Ok (Tuple (Zp, M)) →
  Forall (pool_vector n (n * m)) Zp.
Proof.
  intros Hm Hn. unfold Vgeom.
  rewrite (proj2 (Z.ltb_ge _ _) Hm), (proj2 (Z.ltb_ge n 0)) by lia. cbn [orb]. cbv zeta.
  destruct (foldM _ _ _) as [[Zp' M']|] eqn:Hfold; [|done]. cbn [mbind res_bind].
  intros [= -> ->].
  apply (foldM_inv (λ st, Forall (pool_vector n (n * m)) st.1) _ _)
    with (s := ([], _)) (s' := (Zp, M)) in Hfold; [done| |by constructor].
  intros [Z1 M1] p [Z2 M2] Hp%elem_of_seqZ H1. cbn [fst] in *.
  destruct (py_get (B m n) p) as [l|] eqn:Hl; [|done]. cbn [mbind res_bind].
  destruct (py_get M1 p) as [Mp|]; [|done]. cbn [mbind res_bind].
  destruct (sym_loop _ _ _) as [[Z3 M3]|] eqn:Hloop; [|done]. cbn [mbind res_bind].
  intros [= <- _].
  assert (0 ≤ (n * m) `div` 2) by (apply Z.div_pos; nia).
  assert (2 * ((n * m) `div` 2) ≤ n * m) by (apply Z.mul_div_le; lia).
  apply py_get_inv in Hl; [|lia].
  eapply sym_loop_pool; [|done|done].
  intros vi vj z Hvi Hvj Hz. apply vadd_comb_inv in Hz as ->.
  replace (n * m) with
    (Z.of_nat (Z.to_nat p) + Z.of_nat (Z.to_nat p) + (n * m - 2 * p)) at 1 by lia.
  apply pool_vector_comb;
    [by apply (B_grade_vectors m n (Z.to_nat p) l)
    |by apply (B_grade_vectors m n (Z.to_nat p) l)|].
  apply pool_vector_e1; lia.
Qed.

Lemma gdeg_pool (m n : Z) (z : vec) :
  1 ≤ n → pool_vector n (n * m) z → gdeg z = Ok (kostka (py_rep n m) (mu z)).
Proof.
  intros Hn (Hlen & _ & Hw). unfold gdeg. rewrite Hlen, Hw.
  destruct (decide (n = 0)); [lia|].
  rewrite (Z.mul_comm n m), Z.mod_mul, Z.div_mul by lia.
  by destruct (decide (0 ≠ 0)).
Qed.

(** X7. For [m >= 0] and [n >= 1], every vector pooled by [Vgeom(m,n)] has
    [n] non-negative coordinates and the top weight [n*m], so that [gdeg]
    accepts it and returns the Kostka number of the rectangle [(n)^m]. *)
Theorem Vgeom_pool_degrees (m n : Z) :
  0 ≤ m → 1 ≤ n →
  ∃ Zp M, Vgeom m n = Ok (Tuple (Zp, M))
    ∧ ∀ z, z ∈ Zp →
        Z.of_nat (length z) = n ∧ nonneg z ∧ weight z = n * m
        ∧ gdeg z = Ok (kostka (py_rep n m) (mu z)).
Proof.
  intros Hm Hn. destruct (Vgeom_spec m n Hm Hn) as (Zp & M & HV & _).
  exists Zp, M. split; [done|]. intros z Hz.
  pose proof (Vgeom_pool m n Zp M Hm Hn HV) as Hpool.
  eapply Forall_forall in Hpool; [|done].
  pose proof (gdeg_pool m n z Hn Hpool). by destruct Hpool as (? & ? & ?).
Qed.

Lemma Vgeom_pool_degrees_witness :
  0 ≤ 2 ∧ 1 ≤ 2 ∧
  ∃ Zp M, Vgeom 2 2 = Ok (Tuple (Zp, M))
    ∧ ∀ z, z ∈ Zp →
        Z.of_nat (length z) = 2 ∧ nonneg z ∧ weight z = 2 * 2
        ∧ gdeg z = Ok (kostka (py_rep 2 2) (mu z)).
Proof. split; [lia|]. split; [lia|]. apply (Vgeom_pool_degrees 2 2); lia. Defined.

(** The substitution of [gHodge] on one index table: every entry becomes
    the image of the pooled vector it names. *)
Lemma gHodge_grade (g : vec → Z) (l : list vec) (off : vec) (Zp : list vec)
    (Mp : matrix Z) :
  index_table l l off Zp Mp →
  ∃ Hp, subst_loop (py_get (g <$> Zp)) (nrows Mp) (nrows Mp) Mp = Ok Hp
    ∧ nrows Hp = length l ∧ ncols Hp = length l
    ∧ ∀ i j vi vj, l !! i = Some vi → l !! j = Some vj →
        mat_at Hp i j = Some (g (comb vi vj off)).
Proof.
  intros (Hwf & Hr & Hc & Hat).
  destruct (subst_loop_spec (py_get (g <$> Zp)) Mp Hwf)
    as (Hp & Hrun & _ & Hr' & Hc' & Hent).
  - intros i j x Hx. destruct (mat_at_range Mp i j x Hwf Hx) as [Hi Hj].
    destruct (lookup_lt_is_Some_2 l i) as [vi Hvi]; [lia|].
    destruct (lookup_lt_is_Some_2 l j) as [vj Hvj]; [lia|].
    destruct (Hat i j vi vj Hvi Hvj) as (k & Hk & [Hz _]%pool_find_Some).
    rewrite Hx in Hk. injection Hk as ->. exists (g (comb vi vj off)).
    apply py_get_nat. by rewrite list_lookup_fmap, Hz.
  - exists Hp. rewrite Hc, <- Hr in Hrun. split_and!; [done|lia..|].
    intros i j vi vj Hvi Hvj.
    pose proof (lookup_lt_Some _ _ _ Hvi). pose proof (lookup_lt_Some _ _ _ Hvj).
    destruct (Hent i j) as (x & y & Hx & Hy & Hxy); [lia..|].
    destruct (Hat i j vi vj Hvi Hvj) as (k & Hk & [Hz _]%pool_find_Some).
    rewrite Hx in Hk. injection Hk as ->.
    rewrite (py_get_nat (g <$> Zp) k (g (comb vi vj off))) in Hy
      by (by rewrite list_lookup_fmap, Hz).
    by injection Hy as <-.
Qed.

(** X8. For [m >= 0] and [n >= 1], [gHodge(m,n)] returns one matrix for
    each grade [p] from [0] to [floor(n*m/2)]; the matrix of grade [p] is
    square of the size of [B(m,n)[p]], its entry [(i,j)] is the Kostka
    number of the rectangle [(n)^m] and of the content of
    [l[i]+l[j]+(n*m-2p)*e1], and it is symmetric. *)
Theorem gHodge_kostka_matrices (m n : Z) :
  0 ≤ m → 1 ≤ n →
  ∃ Hs, gHodge m n = Ok Hs
    ∧ length Hs = Z.to_nat ((n * m) `div` 2 + 1)
    ∧ ∀ (p : nat) Hp, Hs !! p = Some Hp →
        ∃ l, B m n !! p = Some l
          ∧ nrows Hp = length l ∧ ncols Hp = length l
          ∧ ∀ i j vi vj, l !! i = Some vi → l !! j = Some vj →
              mat_at Hp i j
              = Some (kostka (py_rep n m)
                        (mu (comb vi vj (vscale (n * m - 2 * Z.of_nat p) (e1 n)))))
              ∧ mat_at Hp j i = mat_at Hp i j.
Proof.
  intros Hm Hn. destruct (Vgeom_spec m n Hm Hn) as (Zp & M & HV & _ & HlenM & Hdone).
  pose proof (Vgeom_pool m n Zp M Hm Hn HV) as Hpool.
  set (g := λ z : vec, kostka (py_rep n m) (mu z)).
  assert (res_mapM gdeg Zp = Ok (g <$> Zp)) as HD.
  { apply res_mapM_fmap. intros z Hz. eapply Forall_forall in Hpool; [|done].
    by apply gdeg_pool. }
  destruct (res_mapM_ok
              (λ Mp, let d := nrows Mp in subst_loop (py_get (g <$> Zp)) d d Mp) M)
    as [Hs HHs].
  { intros Mp (p & HMp)%list_elem_of_lookup_1.
    destruct (Hdone p) as (l & Mp' & _ & HMp' & Htab); [by eapply lookup_lt_Some|].
    rewrite HMp in HMp'. injection HMp' as <-.
    destruct (gHodge_grade g l _ Zp Mp Htab) as (Hp & Hrun & _). eauto. }
  exists Hs. pose proof HHs as HF. apply res_mapM_Forall2 in HF.
  pose proof (Forall2_length _ _ _ HF) as HlenHs. split_and!.
  - unfold gHodge. rewrite HV. cbn [mbind res_bind]. rewrite HD. cbn [mbind res_bind].
    done.
  - lia.
  - intros p Hp HHp. destruct (Forall2_lookup_r _ _ _ _ _ HF HHp) as (Mp & HMp & Hrun).
    destruct (Hdone p) as (l & Mp' & Hl & HMp' & Htab); [by eapply lookup_lt_Some|].
    rewrite HMp in HMp'. injection HMp' as <-.
    destruct (gHodge_grade g l _ Zp Mp Htab) as (Hp' & Hrun' & Hr & Hc & Hent).
    cbv zeta in Hrun. rewrite Hrun in Hrun'. injection Hrun' as <-.
    exists l. split_and!; [done..|]. intros i j vi vj Hvi Hvj.
    rewrite (Hent i j vi vj Hvi Hvj), (Hent j i vj vi Hvj Hvi).
    split; [done|]. by rewrite comb_comm.
Qed.

Lemma gHodge_kostka_matrices_witness :
  0 ≤ 2 ∧ 1 ≤ 2 ∧
  ∃ Hs, gHodge 2 2 = Ok Hs
    ∧ length Hs = Z.to_nat ((2 * 2) `div` 2 + 1)
    ∧ ∀ (p : nat) Hp, Hs !! p = Some Hp →
        ∃ l, B 2 2 !! p = Some l
          ∧ nrows Hp = length l ∧ ncols Hp = length l
          ∧ ∀ i j vi vj, l !! i = Some vi → l !! j = Some vj →
              mat_at Hp i j
              = Some (kostka (py_rep 2 2)
                        (mu (comb vi vj (vscale (2 * 2 - 2 * Z.of_nat p) (e1 2)))))
              ∧ mat_at Hp j i = mat_at Hp i j.
Proof. split; [lia|]. split; [lia|]. apply (gHodge_kostka_matrices 2 2); lia. Defined.

(** X9. Without variables ([n = 0], [m >= 0]) the geometric assembler
    fails: the first pairing adds the empty basis vector to a multiple of
    [e1 = (1)], so [Vgeom(m,0)] raises [TypeError], and [gHodge(m,0)]
    with it. *)
Theorem gHodge_no_variables (m : Z) :
  0 ≤ m → Vgeom m 0 = Raise TypeError ∧ gHodge m 0 = Raise TypeError.
Proof.
  intros Hm. pose proof (Vgeom_no_variables m Hm) as HV. split; [done|].
  unfold gHodge. by rewrite HV.
Qed.

Lemma gHodge_no_variables_witness :
  0 ≤ 3 ∧ Vgeom 3 0 = Raise TypeError ∧ gHodge 3 0 = Raise TypeError.
Proof. split; [lia|]. apply (gHodge_no_variables 3); lia. Defined.

(** ** Further properties: the arithmetic degree and the arithmetic forms *)

Lemma Tam_no_rows (m n : Z) : m ≤ 0 → Tam m n = [].
Proof. intros Hm. unfold Tam, erange. by rewrite (seqZ_nil 0 (m - 1 - 0 + 1)) by lia. Qed.

Lemma Tam_no_columns (m n : Z) : n ≤ 0 → Tam m n = [].
Proof.
  intros Hn. unfold Tam. induction (erange 0 (m - 1)) as [|a l IH]; [done|].
  rewrite bind_cons, IH.
  assert (erange 0 (n - 1) = []) as -> by (unfold erange; apply seqZ_nil; lia).
  done.
Qed.

Lemma qmul_zero_r (x : Q) : qmul x (inject_Z 0) = inject_Z 0.
Proof.
  unfold qmul. change (inject_Z 0) with (Qred (inject_Z 0)) at 2.
  apply Qred_complete. ring.
Qed.

Lemma adeg_empty_sums (r : vec) (T : list (Z * Z * Z)) (H : list Q) :
  r ≠ [] → weight r = 1 → T = [] →
  adeg r (Some T) (Some H) = Ok (inject_Z 0).
Proof.
  intros Hne Hw ->. unfold adeg. rewrite Hw.
  destruct (decide (Z.of_nat (length r) = 0)) as [Hz|Hz]; [by destruct r|].
  change (1 - 1) with 0. rewrite Z.mod_0_l, Z.div_0_l by done.
  destruct (decide (0 ≠ 0)); [done|]. cbv zeta.
  unfold erange at 1. rewrite seqZ_nil by lia. cbn [res_mapM mbind res_bind foldM].
  change (qsum []) with (inject_Z 0). by rewrite qmul_zero_r.
Qed.

(** X10. A non-empty vector of weight one has arithmetic degree zero,
    whatever harmonic table is passed: the case [m = 0] of the formula,
    where both sums are empty. *)
Theorem adeg_weight_one (r : vec) (H : option (list Q)) :
  r ≠ [] → weight r = 1 →
  adeg r None H = Ok (inject_Z 0) ∧ adeg r (Some []) H = Ok (inject_Z 0).
Proof.
  intros Hne Hw.
  assert (adeg r None H = adeg r (Some (Tam 0 (Z.of_nat (length r)))) H) as ->.
  { unfold adeg. rewrite Hw. change (1 - 1) with 0. by rewrite Z.div_0_l by (by destruct r). }
  assert (∀ T, adeg r (Some T) H
               = adeg r (Some T) (Some (default (harm_list (Z.of_nat (length r) - 1)) H)))
    as HH.
  { intros T. destruct H as [H|]; [done|]. unfold adeg. rewrite Hw.
    change (1 - 1) with 0. rewrite Z.div_0_l by (by destruct r). done. }
  rewrite !HH. split; apply adeg_empty_sums; first [done | by apply Tam_no_rows].
Qed.

Lemma adeg_weight_one_witness :
  [1; 0; 0] ≠ [] ∧ weight [1; 0; 0] = 1
  ∧ adeg [1; 0; 0] None None = Ok (inject_Z 0)
  ∧ adeg [1; 0; 0] (Some []) None = Ok (inject_Z 0).
Proof.
  split; [done|]. split; [reflexivity|].
  apply (adeg_weight_one [1; 0; 0] None); [done|reflexivity].
Defined.

Lemma Varith_degenerate (m n : Z) :
  0 ≤ m → 0 ≤ n → n * m = 0 →
  Varith m n
  = Ok (Tuple (([vscale 1 (e1 n)], []), [(zero_matrix 0 1 1, zero_matrix 0 0 0)])).
Proof.
  intros Hm Hn Hnm. unfold Varith.
  rewrite (proj2 (Z.ltb_ge _ _) Hm), (proj2 (Z.ltb_ge _ _) Hn). cbn [orb]. cbv zeta.
  rewrite Hnm. change ((0 + 1) `div` 2) with 0. unfold erange.
  change (seqZ 1 (0 - 1 + 1)) with (@nil Z). cbn [res_mapM mbind res_bind foldM].
  done.
Qed.

Lemma weight_e1 (c n : Z) : weight (vscale c (e1 n)) = c.
Proof. rewrite vscale_e1, weight_eq. cbn [weight_from]. rewrite weight_from_zeros. lia. Qed.

(** X11. When [n*m = 0] (no rows or no columns), [aHodge(m,n)] returns the
    single [1 x 1] matrix [(0)]. *)
Theorem aHodge_degenerate (m n : Z) :
  0 ≤ m → 0 ≤ n → n * m = 0 →
  aHodge m n = Ok [Mat 1 1 [[inject_Z 0]]].
Proof.
  intros Hm Hn Hnm. unfold aHodge. rewrite Varith_degenerate by done.
  cbn [mbind res_bind]. cbv zeta. cbn [res_mapM].
  rewrite adeg_empty_sums.
  - cbn [mbind res_bind length]. done.
  - by rewrite vscale_e1.
  - apply weight_e1.
  - destruct (decide (m = 0)) as [->|]; [by apply Tam_no_rows|].
    apply Tam_no_columns. nia.
Qed.

Lemma aHodge_degenerate_witness :
  0 ≤ 3 ∧ 0 ≤ 0 ∧ 0 * 3 = 0 ∧ aHodge 3 0 = Ok [Mat 1 1 [[inject_Z 0]]].
Proof.
  split; [lia|]. split; [lia|]. split; [reflexivity|].
  apply (aHodge_degenerate 3 0); [lia|lia|reflexivity].
Defined.

(** X12. For [m >= 0] and [n >= 1], every vector of the first pool of
    [Varith(m,n)] has [n] non-negative coordinates and weight [n*m+1], and
    [adeg] returns on it, with the tables of [aHodge] as with its own;
    every vector of the second pool has weight [n*m], and [gdeg] returns
    on it the Kostka number of the rectangle [(n)^m]. *)
Theorem Varith_pool_degrees (m n : Z) :
  0 ≤ m → 1 ≤ n →
  ∃ ZA ZB M, Varith m n = Ok (Tuple ((ZA, ZB), M))
    ∧ (∀ z, z ∈ ZA →
         Z.of_nat (length z) = n ∧ nonneg z ∧ weight z = n * m + 1
         ∧ ∃ q, adeg z (Some (Tam m n)) (Some (harm_list (m + n - 1))) = Ok q
                ∧ adeg z None None = Ok q)
    ∧ (∀ z, z ∈ ZB →
         Z.of_nat (length z) = n ∧ nonneg z ∧ weight z = n * m
         ∧ gdeg z = Ok (kostka (py_rep n m) (mu z))).
Proof.
  intros Hm Hn.
  destruct (Varith_spec m n Hm ltac:(lia))
    as (ZA & ZB & M & HV & _ & _ & _ & _ & _ & Hpool & _).
  destruct (Hpool Hn) as [HpA HpB]. exists ZA, ZB, M. split_and!; [done| |].
  - intros z Hz. eapply Forall_forall in HpA; [|done].
    pose proof (adeg_pool_ok m n z Hn HpA). by destruct HpA as (? & ? & ?).
  - intros z Hz. eapply Forall_forall in HpB; [|done].
    pose proof (gdeg_pool m n z Hn HpB). by destruct HpB as (? & ? & ?).
Qed.

Lemma Varith_pool_degrees_witness :
  0 ≤ 2 ∧ 1 ≤ 2 ∧
  ∃ ZA ZB M, Varith 2 2 = Ok (Tuple ((ZA, ZB), M))
    ∧ (∀ z, z ∈ ZA →
         Z.of_nat (length z) = 2 ∧ nonneg z ∧ weight z = 2 * 2 + 1
         ∧ ∃ q, adeg z (Some (Tam 2 2)) (Some (harm_list (2 + 2 - 1))) = Ok q
                ∧ adeg z None None = Ok q)
    ∧ (∀ z, z ∈ ZB →
         Z.of_nat (length z) = 2 ∧ nonneg z ∧ weight z = 2 * 2
         ∧ gdeg z = Ok (kostka (py_rep 2 2) (mu z))).
Proof. split; [lia|]. split; [lia|]. apply (Varith_pool_degrees 2 2); lia. Defined.

(** [aHodge] returns whenever there is a variable. *)
Lemma aHodge_returns (m n : Z) :
  0 ≤ m → 1 ≤ n →
  ∃ q rest, aHodge m n = Ok (Mat 1 1 [[q]] :: rest)
    ∧ adeg_plain (vscale (n * m + 1) (e1 n)) = Ok q
    ∧ length rest = Z.to_nat ((n * m + 1) `div` 2).
Proof.
  intros Hm Hn.
  destruct (Varith_spec m n ltac:(lia) ltac:(lia))
    as (ZA & ZB & M & HV & _ & _ & Hlen & H0 & HZ0 & Hpool & Hdone).
  destruct (Hpool Hn) as [HpA HpB].
  destruct (res_mapM_ok (λ v, adeg v (Some (Tam m n)) (Some (harm_list (m + n - 1)))) ZA)
    as [Darith HDa].
  { intros v Hv. eapply Forall_forall in HpA; [|done].
    destruct (adeg_pool_ok m n v Hn HpA) as (q & Hq & _). eauto. }
  destruct (res_mapM_ok gdeg ZB) as [Dgeom HDg].
  { intros v Hv. eapply Forall_forall in HpB; [|done]. rewrite (gdeg_pool m n); eauto. }
  pose proof HDa as HDa2. apply res_mapM_Forall2 in HDa2.
  pose proof HDg as HDg2. apply res_mapM_Forall2 in HDg2.
  assert (∀ (k : nat) z, ZA !! k = Some z →
            ∃ q, adeg_plain z = Ok q ∧ py_get Darith (Z.of_nat k) = Ok q) as HA.
  { intros k z Hz. destruct (Forall2_lookup_l _ _ _ _ _ HDa2 Hz) as (q & Hq & Hadeg).
    pose proof (list_elem_of_lookup_2 _ _ _ Hz) as Hin.
    eapply Forall_forall in HpA; [|done].
    destruct (adeg_pool_ok m n z Hn HpA) as (q' & Hq1 & Hq2).
    rewrite Hq1 in Hadeg. injection Hadeg as ->.
    exists q. split; [done|]. by apply py_get_nat. }
  assert (∀ (k : nat) z, ZB !! k = Some z →
            ∃ g, gdeg z = Ok g ∧ py_get Dgeom (Z.of_nat k) = Ok g) as HB.
  { intros k z Hz. destruct (Forall2_lookup_l _ _ _ _ _ HDg2 Hz) as (g & Hg & Hgdeg).
    exists g. split; [done|]. by apply py_get_nat. }
  assert (0 ≤ (n * m + 1) `div` 2) as Htop by (apply Z.div_pos; nia).
  destruct (res_mapM_ok (aHodge_grade Darith Dgeom M)
              (erange 1 (Z.of_nat (length M) - 1))) as [rest Hrest].
  { intros p Hp%elem_of_seqZ.
    destruct (aHodge_grade_spec m n (B m n) (Z.to_nat n) ZA ZB M Darith Dgeom (Z.to_nat p))
      as (l & l2 & MA & MB & A & Bm & blk & _ & _ & _ & _ & _ & _ & _ & Hgr);
      [done|lia|apply B_vectors_length; lia|done|done|apply Hdone; lia|].
    rewrite Z2Nat.id in Hgr by lia. eauto. }
  pose proof Hrest as Hrest2. apply res_mapM_Forall2 in Hrest2.
  pose proof (Forall2_length _ _ _ Hrest2) as Hlenrest.
  unfold erange in Hlenrest. rewrite length_seqZ in Hlenrest.
  destruct (HA 0%nat _ HZ0) as (d0 & Hq0 & Hd0).
  exists d0, rest. split_and!; [|done|lia].
  unfold aHodge. rewrite HV. cbn [mbind res_bind]. rewrite HDa. cbn [mbind res_bind].
  rewrite HDg. cbn [mbind res_bind].
  pose proof (py_get_nat M 0 _ H0) as HM0. change (Z.of_nat 0) with 0 in HM0.
  rewrite HM0. cbn [mbind res_bind fst].
  change (mat_get (zero_matrix 0 1 1) 0 0) with (Ok (A := Z) 0).
  cbn [mbind res_bind]. change (Z.of_nat 0) with 0 in Hd0. rewrite Hd0.
  cbn [mbind res_bind]. rewrite Hrest. done.
Qed.

(** X13. For [m >= 0] and [n >= 1], [aHodge(m,n)] returns
    [floor((n*m+1)/2) + 1] matrices, and the first one is the [1 x 1]
    matrix holding the arithmetic degree of [(n*m+1)*e1]. *)
Theorem aHodge_grade_zero (m n : Z) :
  0 ≤ m → 1 ≤ n →
  ∃ Hs q, aHodge m n = Ok Hs
    ∧ length Hs = Z.to_nat ((n * m + 1) `div` 2 + 1)
    ∧ Hs !! 0%nat = Some (Mat 1 1 [[q]])
    ∧ adeg (vscale (n * m + 1) (e1 n)) None None = Ok q.
Proof.
  intros Hm Hn. destruct (aHodge_returns m n Hm Hn) as (q & rest & HH & Hq & Hlen).
  exists (Mat 1 1 [[q]] :: rest), q. split_and!; [done| |done..].
  assert (0 ≤ (n * m + 1) `div` 2) by (apply Z.div_pos; nia).
  cbn [length]. lia.
Qed.

Lemma aHodge_grade_zero_witness :
  0 ≤ 1 ∧ 1 ≤ 1 ∧
  ∃ Hs q, aHodge 1 1 = Ok Hs
    ∧ length Hs = Z.to_nat ((1 * 1 + 1) `div` 2 + 1)
    ∧ Hs !! 0%nat = Some (Mat 1 1 [[q]])
    ∧ adeg (vscale (1 * 1 + 1) (e1 1)) None None = Ok q.
Proof. split; [lia|]. split; [lia|]. apply (aHodge_grade_zero 1 1); lia. Defined.

(** The loop of the checks, with a signature routine that always
    returns. *)
Lemma check_signatures_outcome {A : Type} (is_singular : matrix A → bool)
    (signature : matrix A → res Z) (sig : matrix A → Z) (s1 : list Z)
    (H : list (matrix A)) :
  (∀ h, signature h = Ok (sig h)) →
  check_signatures is_singular signature s1 H
  = Ok (H, bool_decide (Forall (λ h, is_singular h = false) H ∧ s1 = sig <$> H)).
Proof.
  intros Hsig. unfold check_signatures.
  assert (signatures is_singular signature H
          = Ok (if decide (Forall (λ h, is_singular h = false) H)
                then Some (sig <$> H) else None)) as ->.
  { induction H as [|h H IH]; cbn [signatures].
    - by rewrite decide_True by constructor.
    - destruct (is_singular h) eqn:Hh.
      + rewrite decide_False; [done|]. intros HF%Forall_cons_1. destruct HF. congruence.
      + rewrite Hsig, IH. cbn [mbind res_bind].
        destruct (decide (Forall (λ h, is_singular h = false) H)) as [HF|HF].
        * by rewrite decide_True by (by constructor).
        * rewrite decide_False; [done|]. by intros [_ ?]%Forall_cons_1. }
  cbn [mbind res_bind].
  destruct (decide (Forall (λ h, is_singular h = false) H)) as [HF|HF].
  - destruct (decide (s1 = sig <$> H)) as [Heq|Hne].
    + by rewrite bool_decide_true.
    + rewrite bool_decide_false; [done|]. by intros [_ ?].
  - rewrite bool_decide_false; [done|]. by intros [? _].
Qed.

(** X14. For [m >= 0] and [n >= 1], when the Hilbert function is a
    polynomial and the signature routine returns on every matrix,
    [Check_AST(m,n)] returns the matrices of [aHodge(m,n)] and the verdict:
    true exactly when no matrix is singular and the signatures of the
    matrices are the ones [Signature] predicts from [HilbArithm(m,n)]. *)
Theorem Check_AST_outcome (is_singular : matrix Q → bool)
    (signature : matrix Q → res Z) (sig : matrix Q → Z) (m n : Z) (hilb : list Z) :
  0 ≤ m → 1 ≤ n →
  (∀ h, signature h = Ok (sig h)) →
  HilbArithm m n = Ok hilb →
  ∃ H s1, aHodge m n = Ok H ∧ Signature hilb = Ok s1
    ∧ Check_AST is_singular signature m n
      = Ok (H, bool_decide (Forall (λ h, is_singular h = false) H ∧ s1 = sig <$> H)).
Proof.
  intros Hm Hn Hsig Hhilb.
  destruct (aHodge_returns m n Hm Hn) as (q & rest & HH & _).
  assert (∃ s1, Signature hilb = Ok s1) as [s1 Hs1]
    by (eexists; apply Signature_closed).
  exists (Mat 1 1 [[q]] :: rest), s1. split_and!; [done..|].
  unfold Check_AST.
  assert (call_global "HilbArithm" m n = HilbArithm m n) as -> by done.
  rewrite Hhilb. cbn [mbind res_bind]. rewrite Hs1. cbn [mbind res_bind].
  rewrite HH. cbn [mbind res_bind]. by apply check_signatures_outcome.
Qed.

Lemma Check_AST_outcome_witness :
  0 ≤ 1 ∧ 1 ≤ 1 ∧ (∀ h : matrix Q, Ok (A := Z) 0 = Ok 0)
  ∧ HilbArithm 1 1 = Ok [1; 2; 1]
  ∧ ∃ H s1, aHodge 1 1 = Ok H ∧ Signature [1; 2; 1] = Ok s1
    ∧ Check_AST (λ _, false) (λ _, Ok 0) 1 1
      = Ok (H, bool_decide (Forall (λ h, (λ _ : matrix Q, false) h = false) H
                            ∧ s1 = (λ _, 0) <$> H)).
Proof.
  split; [lia|]. split; [lia|]. split; [done|]. split; [reflexivity|].
  apply (Check_AST_outcome (λ _, false) (λ _, Ok 0) (λ _, 0) 1 1 [1; 2; 1]);
    [lia|lia|done|reflexivity].
Defined.

Lemma res_mapM_ext {X Y : Type} (f g : X → res Y) (xs : list X) :
  (∀ x, x ∈ xs → f x = g x) → res_mapM f xs = res_mapM g xs.
Proof.
  induction xs as [|x xs IH]; intros Hfg; [done|]. cbn [res_mapM].
  rewrite Hfg by left. rewrite IH; [done|]. intros y Hy. apply Hfg. by right.
Qed.

Lemma foldM_ext {S X : Type} (f g : S → X → res S) (xs : list X) (s : S) :
  (∀ s x, x ∈ xs → f s x = g s x) → foldM f xs s = foldM g xs s.
Proof.
  revert s. induction xs as [|x xs IH]; intros s Hfg; [done|]. cbn [foldM].
  rewrite Hfg by left. destruct (g s x) as [s'|]; [|done]. cbn [mbind res_bind].
  apply IH. intros s0 y Hy. apply Hfg. by right.
Qed.

Lemma py_get_app_l {A : Type} (l W : list A) (k : Z) :
  0 ≤ k < Z.of_nat (length l) → py_get (l ++ W) k = py_get l k.
Proof.
  intros Hk. destruct (py_get_Z l k Hk) as (x & -> & Hx).
  rewrite <- (Z2Nat.id k) by lia. apply py_get_nat. by apply lookup_app_l_Some.
Qed.

(** X15. [adeg] reads the harmonic table only at the positions
    [0..m+n-1]: a table that continues [harm_list(m+n-1)] gives the result
    of the default table, error cases included. *)
Theorem adeg_longer_harmonic_table (r : vec) (W : list Q) :
  let n := Z.of_nat (length r) in
  let m := (weight r - 1) `div` n in
  adeg r None (Some (harm_list (m + n - 1) ++ W)) = adeg r None None.
Proof.
  intros n m. unfold adeg. fold n. destruct (decide (n = 0)) as [Hn0|Hn0]; [done|].
  destruct (decide ((weight r - 1) `mod` n ≠ 0)); [done|]. cbv zeta. fold m.
  assert (1 ≤ n) as Hn by lia.
  set (H0 := harm_list (m + n - 1)).
  assert (length H0 = S (Z.to_nat (m + n - 1))) as Hlen by apply length_harm_list.
  rewrite (res_mapM_ext (py_get (H0 ++ W)) (py_get H0)).
  2:{ intros k Hk%elem_of_seqZ. apply py_get_app_l. lia. }
  destruct (res_mapM (py_get H0) (erange n (m + n - 1))) as [hs|]; [|done].
  cbn [mbind res_bind].
  rewrite (foldM_ext (adeg_term m n (mu r) (H0 ++ W)) (adeg_term m n (mu r) H0));
    [done|].
  intros s [[a b] j] Ht%elem_of_Tam. unfold adeg_term.
  rewrite !py_get_app_l by lia. done.
Qed.

(** ** Further properties: the Hilbert function of projective space *)

Lemma pmul_one_r (f : poly) : pmul f [1] = f.
Proof.
  induction f as [|a f IH]; [done|]. cbn [pmul pscale fmap list_fmap padd].
  rewrite IH. destruct f; f_equal; lia.
Qed.

Lemma zip_sub_zeros (x : list Z) (k : nat) :
  k = length x → zip_with Z.sub x (replicate k 0) = x.
Proof.
  intros ->. induction x as [|a x IH]; [done|]. cbn [length replicate zip_with].
  rewrite IH. f_equal. lia.
Qed.

(** The long division of [t^(k+1) - 1] by [t - 1], with signs as the
    model keeps them: the quotient is [1 + t + ... + t^k]. *)
Lemma pdiv_hi_geometric (k fuel : nat) :
  (k < fuel)%nat →
  pdiv_hi fuel (-1 :: replicate k 0 ++ [1]) [-1; 1] = (replicate (S k) 1, [0]).
Proof.
  revert fuel. induction k as [|k IH]; intros [|fuel] Hf; try lia.
  - cbn [pdiv_hi replicate app length Nat.ltb Nat.leb pscale fmap list_fmap zip_with
         Nat.sub tail].
    change (-1 - 1 * -1 * -1) with 0. change (1 - 1 * -1 * 1 * 1) with 0.
    destruct fuel; done.
  - cbn [pdiv_hi]. rewrite (proj2 (Nat.ltb_ge _ _)).
    2:{ cbn [length]. rewrite length_app, length_replicate. cbn [length]. lia. }
    cbn [length]. rewrite length_app, length_replicate. cbn [length].
    replace (S (S k + 1) - 2)%nat with (S k) by lia.
    cbn [pscale fmap list_fmap app replicate zip_with tail].
    change (0 :: replicate k 0) with (replicate (S k) 0).
    rewrite zip_sub_zeros by (rewrite length_app, length_replicate; cbn [length]; lia).
    change (0 - -1 * -1 * 1) with (-1).
    rewrite IH by lia. done.
Qed.

Lemma sumZ_fmap_zeros {X : Type} (f : X → Z) (l : list X) :
  (∀ x, x ∈ l → f x = 0) → sumZ (f <$> l) = 0.
Proof.
  induction l as [|x l IH]; intros Hf; [done|]. cbn [fmap list_fmap sumZ foldr].
  rewrite Hf by left. fold (sumZ (f <$> l)). rewrite IH; [done|].
  intros y Hy. apply Hf. by right.
Qed.

Lemma fmap_ext_elem {X Y : Type} (f g : X → Y) (l : list X) :
  (∀ x, x ∈ l → f x = g x) → f <$> l = g <$> l.
Proof.
  induction l as [|x l IH]; intros Hfg; [done|]. cbn [fmap list_fmap].
  rewrite Hfg by left. f_equal. apply IH. intros y Hy. apply Hfg. by right.
Qed.

Lemma coefficients_nonzero (f : poly) : Forall (λ a, a ≠ 0) f → coefficients f = f.
Proof.
  unfold coefficients, poly. induction 1 as [|a f Ha _ IH]; [done|].
  rewrite filter_cons_True by done. by rewrite IH.
Qed.

Lemma hilbert_poly_projective (m : Z) :
  0 ≤ m → hilbert_poly m 1 = Ok (replicate (S (Z.to_nat m)) 1).
Proof.
  intros Hm. unfold hilbert_poly. change (erange 1 1) with [1].
  cbn [fmap list_fmap].
  assert (one_minus_pow (m + 1) = (padd [1] (pscale (-1) (pmonom (m + 1))), [1])) as ->.
  { unfold one_minus_pow. by rewrite (proj2 (Z.leb_le 0 (m + 1))) by lia. }
  cbn [fst snd].
  change (pmul (pprod [[1]]) (pprod [(one_minus_pow 1).1])) with [1; -1].
  unfold pprod at 1. cbn [foldr]. rewrite pmul_one_r.
  unfold pmonom, py_rep. replace (Z.to_nat (m + 1)) with (S (Z.to_nat m)) by lia.
  set (k := Z.to_nat m).
  assert (padd [1] (pscale (-1) (replicate (S k) 0 ++ [1]))
          = 1 :: replicate k 0 ++ [-1]) as ->.
  { cbn [replicate app pscale fmap list_fmap padd]. f_equal.
    rewrite fmap_app, fmap_replicate. done. }
  unfold pexact.
  assert (reverse (pnorm (1 :: replicate k 0 ++ [-1])) = -1 :: replicate k 0 ++ [1])
    as ->.
  { unfold pnorm. rewrite reverse_involutive.
    rewrite reverse_cons, reverse_app, reverse_replicate. cbn [reverse app].
    change (rev_append [-1] []) with [-1]. cbn [app drop_zeros].
    destruct (decide (-1 = 0)); [done|].
    rewrite <- app_assoc. done. }
  change (reverse (pnorm [1; -1])) with [-1; 1].
  rewrite pdiv_hi_geometric.
  2:{ cbn [length]. rewrite length_app, length_replicate. cbn [length]. lia. }
  rewrite decide_True by (by repeat constructor).
  by rewrite reverse_replicate.
Qed.

(** X16. For projective space ([n = 1], [m >= 0]) the Hilbert function is
    [1 + t + ... + t^m]: [HilbGeom(m,1)] returns [m+1] ones, and
    [Signature] predicts from it the signs [(-1)^q] for [q] from [0] to
    [floor(m/2)]. *)
Theorem HilbGeom_projective_space (m : Z) :
  0 ≤ m →
  HilbGeom m 1 = Ok (replicate (Z.to_nat (m + 1)) 1)
  ∧ Signature (replicate (Z.to_nat (m + 1)) 1) = Ok (sign_pow <$> erange 0 (m `div` 2)).
Proof.
  intros Hm. replace (Z.to_nat (m + 1)) with (S (Z.to_nat m)) by lia. split.
  - unfold HilbGeom. rewrite hilbert_poly_projective by done. cbn [mbind res_bind].
    rewrite coefficients_nonzero; [done|]. by apply Forall_replicate.
  - rewrite Signature_closed. cbv zeta. rewrite length_replicate.
    replace (Z.of_nat (S (Z.to_nat m)) - 1) with m by lia.
    assert (0 ≤ m `div` 2) by (apply Z.div_pos; lia).
    assert (2 * (m `div` 2) ≤ m) by (apply Z.mul_div_le; lia).
    f_equal. apply fmap_ext_elem. intros q Hq%elem_of_seqZ.
    set (w := 1 :: _).
    assert (sumZ ((λ p, sign_pow p * w !!! Z.to_nat p) <$> erange 0 q) = 1) as ->;
      [|lia].
    unfold erange. replace (q - 0 + 1) with (Z.succ q) by lia.
    rewrite seqZ_cons by lia. rewrite fmap_cons.
    change (sumZ (?a :: ?l)) with (a + sumZ l).
    rewrite sumZ_fmap_zeros; [reflexivity|].
    intros p Hp%elem_of_seqZ. subst w.
    replace (Z.to_nat p) with (S (Z.to_nat (p - 1))) by lia.
    cbn [lookup_total list_lookup_total].
    match goal with |- _ * ?t = 0 => assert (t = 0) as ->; [|lia] end.
    apply list_lookup_total_correct.
    rewrite list_lookup_fmap. unfold erange. rewrite lookup_seqZ_lt by lia.
    cbn [fmap option_fmap option_map].
    rewrite !lookup_total_replicate_2 by lia. done.
Qed.

Lemma HilbGeom_projective_space_witness :
  0 ≤ 2
  ∧ HilbGeom 2 1 = Ok (replicate (Z.to_nat (2 + 1)) 1)
  ∧ Signature (replicate (Z.to_nat (2 + 1)) 1) = Ok (sign_pow <$> erange 0 (2 `div` 2)).
Proof. split; [lia|]. apply (HilbGeom_projective_space 2); lia. Defined.

Lemma padd_ones (k : nat) : padd (replicate k 1) (replicate (S k) 1) = replicate k 2 ++ [1].
Proof.
  induction k as [|k IH]; [done|].
  change (replicate (S (S k)) 1) with (1 :: replicate (S k) 1).
  change (replicate (S k) 1) with (1 :: replicate k 1) at 1.
  change (replicate (S k) 2 ++ [1]) with (2 :: (replicate k 2 ++ [1])).
  cbn [padd]. by rewrite IH.
Qed.

Lemma pmul_one_plus_t (k : nat) :
  pmul [1; 1] (replicate (S k) 1) = 1 :: replicate k 2 ++ [1].
Proof.
  cbn [pmul]. unfold pscale. rewrite fmap_replicate. change (1 * 1) with 1.
  assert (padd (replicate (S k) 1) [0] = replicate (S k) 1) as ->.
  { cbn [replicate padd]. by destruct (replicate k 1). }
  change (replicate (S k) 1) with (1 :: replicate k 1) at 1.
  cbn [padd]. by rewrite padd_ones.
Qed.

(** X17. For projective space ([n = 1], [m >= 0]) the arithmetic Hilbert
    function is [(1+t)(1 + t + ... + t^m)]: [HilbArithm(m,1)] returns
    [1, 2, ..., 2, 1] with [m] twos, and [Signature] predicts from it the
    signature [1] in grade [0] and [0] in the grades [1] to
    [floor((m+1)/2)]. *)
Theorem HilbArithm_projective_space (m : Z) :
  0 ≤ m →
  HilbArithm m 1 = Ok (1 :: replicate (Z.to_nat m) 2 ++ [1])
  ∧ Signature (1 :: replicate (Z.to_nat m) 2 ++ [1])
    = Ok (1 :: replicate (Z.to_nat ((m + 1) `div` 2)) 0).
Proof.
  intros Hm. split.
  - unfold HilbArithm. rewrite hilbert_poly_projective by done. cbn [mbind res_bind].
    rewrite pmul_one_plus_t. rewrite coefficients_nonzero; [done|].
    constructor; [done|]. apply Forall_app. split; [|by repeat constructor].
    by apply Forall_replicate.
  - rewrite Signature_closed. cbv zeta. set (v := 1 :: replicate (Z.to_nat m) 2 ++ [1]).
    assert (Z.of_nat (length v) - 1 = m + 1) as ->.
    { unfold v. cbn [length]. rewrite length_app, length_replicate. cbn [length]. lia. }
    set (K := (m + 1) `div` 2).
    assert (0 ≤ K) by (apply Z.div_pos; lia).
    assert (2 * K ≤ m + 1) by (apply Z.mul_div_le; lia).
    assert (∀ j : nat, (1 ≤ j ≤ Z.to_nat m)%nat → v !!! j = 2) as Hv.
    { intros [|j] Hj; [lia|]. apply list_lookup_total_correct. unfold v.
      rewrite lookup_cons_ne_0 by done. cbn [Nat.pred].
      rewrite lookup_app_l by (rewrite length_replicate; lia).
      apply lookup_replicate_2. lia. }
    set (w := 1 :: _).
    assert (∀ i, 1 ≤ i ≤ K → w !!! Z.to_nat i = if decide (i = 1) then 1 else 0) as Hw.
    { intros i Hi. subst w. replace (Z.to_nat i) with (S (Z.to_nat (i - 1))) by lia.
      cbn [lookup_total list_lookup_total]. apply list_lookup_total_correct.
      rewrite list_lookup_fmap. unfold erange. rewrite lookup_seqZ_lt by lia.
      cbn [fmap option_fmap option_map]. f_equal.
      replace (1 + Z.of_nat (Z.to_nat (i - 1))) with i by lia.
      rewrite (Hv (Z.to_nat i)) by lia.
      destruct (decide (i = 1)) as [->|Hne]; [done|].
      by rewrite (Hv (Z.to_nat (i - 1))) by lia. }
    f_equal.
    assert (erange 0 K = 0 :: seqZ 1 K) as ->.
    { unfold erange. replace (K - 0 + 1) with (Z.succ K) by lia.
      rewrite seqZ_cons by lia. do 2 f_equal. lia. }
    rewrite fmap_cons. f_equal.
    replace (Z.to_nat K) with (length (seqZ 1 K)) by apply length_seqZ.
    transitivity ((λ _ : Z, 0) <$> seqZ 1 K); [|by apply const_fmap].
    apply fmap_ext_elem. intros q Hq%elem_of_seqZ.
    assert (sumZ ((λ p, sign_pow p * w !!! Z.to_nat p) <$> erange 0 q) = 0) as ->;
      [|lia].
    unfold erange. replace (q - 0 + 1) with (Z.succ (Z.succ (q - 1))) by lia.
    rewrite seqZ_cons by lia. rewrite fmap_cons.
    change (sumZ (?a :: ?l)) with (a + sumZ l).
    replace (Z.pred (Z.succ (Z.succ (q - 1)))) with (Z.succ (q - 1)) by lia.
    rewrite seqZ_cons by lia. rewrite fmap_cons.
    change (sumZ (?a :: ?l)) with (a + sumZ l).
    rewrite sumZ_fmap_zeros.
    + change (Z.succ 0) with 1. rewrite (Hw 1) by lia. reflexivity.
    + intros p Hp%elem_of_seqZ. rewrite Hw by lia.
      destruct (decide (p = 1)); lia.
Qed.

Lemma HilbArithm_projective_space_witness :
  0 ≤ 2
  ∧ HilbArithm 2 1 = Ok (1 :: replicate (Z.to_nat 2) 2 ++ [1])
  ∧ Signature (1 :: replicate (Z.to_nat 2) 2 ++ [1])
    = Ok (1 :: replicate (Z.to_nat ((2 + 1) `div` 2)) 0).
Proof. split; [lia|]. apply (HilbArithm_projective_space 2); lia. Defined.
